(** * AVL map (CS280::AVLmap): a pointer-level model and its verification

    The container of [avl-map.h] / [avl-map.cpp] is a binary search tree of
    heap-allocated nodes linked by [left], [right] and [parent] pointers.
    The model keeps that shape: nodes live in a store (the C++ free store),
    pointers are optional addresses, and every member function reads and
    writes the store the way the C++ statements do.  Dereferencing a null or
    dangling pointer, and running out of recursion fuel, yield [None].

    [KEY_TYPE] and [VALUE_TYPE] are instantiated at [int]; [VALUE_TYPE{}]
    is [0].  [int] fields are modelled by [Z]; [unsigned int size_] wraps
    modulo 2^32. *)

From Stdlib Require Import ZArith Lia Ascii.
From stdpp Require Import gmap list sorting.

Local Open Scope Z_scope.

(** * Part I: the model *)

(** ** Data model *)

Definition addr := positive.

Abbreviation ptr := (option addr).

Record Node := mkNode {
  key : Z;
  value : Z;
  height : Z;
  balance : Z;
  parent : ptr;
  left : ptr;
  right : ptr
}.

Abbreviation store := (gmap addr Node).

Record AVLmap := mkMap {
  mRoot : ptr;
  size_ : Z
}.

Definition set_key (k : Z) (n : Node) : Node :=
  mkNode k (value n) (height n) (balance n) (parent n) (left n) (right n).

Definition set_value (v : Z) (n : Node) : Node :=
  mkNode (key n) v (height n) (balance n) (parent n) (left n) (right n).

Definition set_height (hg : Z) (n : Node) : Node :=
  mkNode (key n) (value n) hg (balance n) (parent n) (left n) (right n).

Definition set_parent (p : ptr) (n : Node) : Node :=
  mkNode (key n) (value n) (height n) (balance n) p (left n) (right n).

Definition set_left (p : ptr) (n : Node) : Node :=
  mkNode (key n) (value n) (height n) (balance n) (parent n) p (right n).

Definition set_right (p : ptr) (n : Node) : Node :=
  mkNode (key n) (value n) (height n) (balance n) (parent n) (left n) p.

Definition set_mRoot (p : ptr) (m : AVLmap) : AVLmap := mkMap p (size_ m).

(** [unsigned int] arithmetic. *)
Definition wrap32 (z : Z) : Z := z mod 2 ^ 32.

(** A write through a pointer: [a->field = ...]. *)
Definition wr (h : store) (a : addr) (f : Node → Node) : option store :=
  n ← h !! a; Some (<[a := f n]> h).

(** [new Node(...)]: an address not in use. *)
Definition new_addr (h : store) : addr := fresh (dom h).

(** Recursion depth available to the recursive member functions: one more
    than the number of live nodes. *)
Definition fuel_of (h : store) : nat := S (size h).

(** The empty map built by [AVLmap()]. *)
Definition empty_map : AVLmap := mkMap None 0.

(** ** Node navigation: [first], [last], [increment], [decrement] *)

(** [Node::last] takes the name of the list function; keep a handle on
    the latter. *)
Abbreviation list_last := last.

Fixpoint first (fuel : nat) (h : store) (this : addr) : option addr :=
  match fuel with
  | O => None
  | S f =>
      n ← h !! this;
      match left n with
      | None => Some this
      | Some l => first f h l
      end
  end.

Fixpoint last (fuel : nat) (h : store) (this : addr) : option addr :=
  match fuel with
  | O => None
  | S f =>
      n ← h !! this;
      match right n with
      | None => Some this
      | Some r => last f h r
      end
  end.

(** The loop of [increment]:
    [while (parentWalker != nullptr && parentWalker->right == walker)]. *)
Fixpoint increment_loop (fuel : nat) (h : store) (walker : addr)
    (parentWalker : ptr) : option ptr :=
  match fuel with
  | O => None
  | S f =>
      match parentWalker with
      | None => Some None
      | Some pw =>
          n ← h !! pw;
          if decide (right n = Some walker)
          then increment_loop f h pw (parent n)
          else Some parentWalker
      end
  end.

Definition increment (fuel : nat) (h : store) (this : addr) : option ptr :=
  n ← h !! this;
  match right n with
  | Some r => a ← first fuel h r; Some (Some a)
  | None =>
      match parent n with
      | None => Some None
      | Some _ => increment_loop fuel h this (parent n)
      end
  end.

(** The loop of [decrement]:
    [while (parentWalker != nullptr && parentWalker->left == walker)]. *)
Fixpoint decrement_loop (fuel : nat) (h : store) (walker : addr)
    (parentWalker : ptr) : option ptr :=
  match fuel with
  | O => None
  | S f =>
      match parentWalker with
      | None => Some None
      | Some pw =>
          n ← h !! pw;
          if decide (left n = Some walker)
          then decrement_loop f h pw (parent n)
          else Some parentWalker
      end
  end.

Definition decrement (fuel : nat) (h : store) (this : addr) : option ptr :=
  n ← h !! this;
  match left n with
  | Some l => a ← last fuel h l; Some (Some a)
  | None =>
      match parent n with
      | Some p =>
          np ← h !! p;
          if decide (right np = Some this)
          then Some (Some p)
          else decrement_loop fuel h this (parent n)
      | None => decrement_loop fuel h this (parent n)
      end
  end.

(** ** Lookup *)

Fixpoint FindNode (fuel : nat) (h : store) (tree : ptr) (k : Z) : option ptr :=
  match fuel with
  | O => None
  | S f =>
      match tree with
      | None => Some None
      | Some a =>
          n ← h !! a;
          if decide (key n = k) then Some tree
          else if decide (key n < k) then FindNode f h (right n) k
          else FindNode f h (left n) k
      end
  end.

(** ** Heights *)

Fixpoint GetSubtreeHeight (fuel : nat) (h : store) (node : ptr) : option Z :=
  match fuel with
  | O => None
  | S f =>
      match node with
      | None => Some (-1)
      | Some a =>
          n ← h !! a;
          hl ← GetSubtreeHeight f h (left n);
          hr ← GetSubtreeHeight f h (right n);
          Some (1 + Z.max hl hr)
      end
  end.

Definition GetSubtreeBalance (fuel : nat) (h : store) (node : ptr) : option Z :=
  match node with
  | None => Some (-1)
  | Some a =>
      n ← h !! a;
      hl ← GetSubtreeHeight fuel h (left n);
      hr ← GetSubtreeHeight fuel h (right n);
      Some (hl - hr)
  end.

(** [subtree->height = subtree->parent ? subtree->parent->height + 1 : 0],
    then the two children, top-down. *)
Fixpoint UpdateSubtreeHeights (fuel : nat) (h : store) (subtree : ptr)
    : option store :=
  match fuel with
  | O => None
  | S f =>
      match subtree with
      | None => Some h
      | Some a =>
          n ← h !! a;
          hg ← match parent n with
               | Some p => np ← h !! p; Some (height np + 1)
               | None => Some 0
               end;
          let h1 := <[a := set_height hg n]> h in
          h2 ← UpdateSubtreeHeights f h1 (left n);
          UpdateSubtreeHeights f h2 (right n)
      end
  end.

(** ** Rotations *)

(** [RotateRootRight]. *)
Definition RotateRootRight (fuel : nat) (h : store) (m : AVLmap)
    : option (store * AVLmap) :=
  temp ← mRoot m;
  nt ← h !! temp;
  let newRoot := left nt in
  let m := set_mRoot (left nt) m in
  r ← mRoot m;
  h ← wr h r (set_parent None);
  h ← wr h temp (set_parent newRoot);
  nr ← newRoot;
  nnr ← h !! nr;
  h ← wr h temp (set_left (right nnr));
  nt ← h !! temp;
  h ← match left nt with
      | Some c => wr h c (set_parent (Some temp))
      | None => Some h
      end;
  h ← wr h nr (set_right (Some temp));
  h ← UpdateSubtreeHeights fuel h (mRoot m);
  Some (h, m).

(** [RotateRootLeft]. *)
Definition RotateRootLeft (fuel : nat) (h : store) (m : AVLmap)
    : option (store * AVLmap) :=
  temp ← mRoot m;
  nt ← h !! temp;
  let newRoot := right nt in
  let m := set_mRoot (right nt) m in
  r ← mRoot m;
  h ← wr h r (set_parent None);
  h ← wr h temp (set_parent newRoot);
  nr ← newRoot;
  nnr ← h !! nr;
  h ← wr h temp (set_right (left nnr));
  nt ← h !! temp;
  h ← match right nt with
      | Some c => wr h c (set_parent (Some temp))
      | None => Some h
      end;
  h ← wr h nr (set_left (Some temp));
  h ← UpdateSubtreeHeights fuel h (mRoot m);
  Some (h, m).

(** [RotateRight(Node*& node)]; the first component of the result is the
    value left in the reference [node]. *)
Definition RotateRight (fuel : nat) (h : store) (m : AVLmap) (node : ptr)
    : option (ptr * store * AVLmap) :=
  if decide (node = mRoot m) then
    '(h, m) ← RotateRootRight fuel h m; Some (node, h, m)
  else
    temp ← node;
    nt ← h !! temp;
    let nodeParent := parent nt in
    np ← nodeParent;
    nnp ← h !! np;
    h ← (if decide (node = left nnp)
         then wr h np (set_left (left nt))
         else wr h np (set_right (left nt)));
    nt ← h !! temp;
    let node := left nt in
    a ← node;
    h ← wr h a (set_parent nodeParent);
    h ← wr h temp (set_parent node);
    na ← h !! a;
    h ← wr h temp (set_left (right na));
    nt ← h !! temp;
    h ← match left nt with
        | Some c => wr h c (set_parent (Some temp))
        | None => Some h
        end;
    h ← wr h a (set_right (Some temp));
    h ← UpdateSubtreeHeights fuel h node;
    Some (node, h, m).

(** [RotateLeft(Node*& node)]. *)
Definition RotateLeft (fuel : nat) (h : store) (m : AVLmap) (node : ptr)
    : option (ptr * store * AVLmap) :=
  if decide (node = mRoot m) then
    '(h, m) ← RotateRootLeft fuel h m; Some (node, h, m)
  else
    temp ← node;
    nt ← h !! temp;
    let nodeParent := parent nt in
    np ← nodeParent;
    nnp ← h !! np;
    h ← (if decide (node = left nnp)
         then wr h np (set_left (right nt))
         else wr h np (set_right (right nt)));
    nt ← h !! temp;
    let node := right nt in
    a ← node;
    h ← wr h a (set_parent nodeParent);
    h ← wr h temp (set_parent node);
    na ← h !! a;
    h ← wr h temp (set_right (left na));
    nt ← h !! temp;
    h ← match right nt with
        | Some c => wr h c (set_parent (Some temp))
        | None => Some h
        end;
    h ← wr h a (set_left (Some temp));
    h ← UpdateSubtreeHeights fuel h node;
    Some (node, h, m).

(** ** Rebalancing *)

(** What one run of [BalanceTree] did, in order: the nodes popped from the
    stack and the rotation calls with the node they were given.  The log is
    ghost state; no statement of the program reads it. *)
Inductive event :=
  | Examine (y : addr)
  | RotR (a : ptr)
  | RotL (a : ptr).

Global Instance event_eq_dec : EqDecision event.
Proof. solve_decision. Defined.

(** One pass of the body of the [while] loop for the popped node [y].
    The boolean says whether the body ran to its end (past the
    [continue]). *)
Definition BalanceNode (fuel : nat) (h : store) (m : AVLmap) (y : addr)
    : option (store * AVLmap * list event * bool) :=
  ny ← h !! y;
  let leftSubtree := left ny in
  let rightSubtree := right ny in
  bal ← GetSubtreeBalance fuel h (Some y);
  leftSubtreeHeight ← GetSubtreeHeight fuel h leftSubtree;
  rightSubtreeHeight ← GetSubtreeHeight fuel h rightSubtree;
  if decide (Z.abs (leftSubtreeHeight - rightSubtreeHeight) ≤ 1) then
    Some (h, m, [Examine y], false)
  else
    '(h, m, log1) ←
      (if decide (bal > 1) then
         l ← leftSubtree;
         nl ← h !! l;
         hll ← GetSubtreeHeight fuel h (left nl);
         hlr ← GetSubtreeHeight fuel h (right nl);
         if decide (hll >= hlr) then
           '(_, h, m) ← RotateRight fuel h m (Some y);
           Some (h, m, [RotR (Some y)])
         else
           '(_, h, m) ← RotateLeft fuel h m leftSubtree;
           '(_, h, m) ← RotateRight fuel h m (Some y);
           Some (h, m, [RotL leftSubtree; RotR (Some y)])
       else Some (h, m, []));
    '(h, m, log2) ←
      (if decide (bal < -1) then
         r ← rightSubtree;
         nr ← h !! r;
         hrr ← GetSubtreeHeight fuel h (right nr);
         hrl ← GetSubtreeHeight fuel h (left nr);
         if decide (hrr >= hrl) then
           '(_, h, m) ← RotateLeft fuel h m (Some y);
           Some (h, m, [RotL (Some y)])
         else
           '(_, h, m) ← RotateRight fuel h m rightSubtree;
           '(_, h, m) ← RotateLeft fuel h m (Some y);
           Some (h, m, [RotR rightSubtree; RotL (Some y)])
       else Some (h, m, []));
    Some (h, m, Examine y :: log1 ++ log2, true).

(** [BalanceTree(nodes, inserting)]; the head of the list is the top of the
    stack. *)
Fixpoint BalanceTree (fuel : nat) (nodes : list addr) (inserting : bool)
    (h : store) (m : AVLmap) : option (store * AVLmap * list event) :=
  match nodes with
  | [] => Some (h, m, [])
  | y :: nodes =>
      '(h, m, log, ran) ← BalanceNode fuel h m y;
      if ran && inserting then Some (h, m, log)
      else
        '(h, m, log') ← BalanceTree fuel nodes inserting h m;
        Some (h, m, log ++ log')
  end.

(** ** Insertion *)

(** [InsertItem(tree, parentNode, key, value, nodes)]: the result is the
    returned pointer, the store, the map object and the stack. *)
Fixpoint InsertItem (fuel : nat) (h : store) (m : AVLmap) (tree parentNode : ptr)
    (k v : Z) (nodes : list addr)
    : option (ptr * store * AVLmap * list addr) :=
  match fuel with
  | O => None
  | S f =>
      match tree with
      | None =>
          hg ← match parentNode with
               | Some p => np ← h !! p; Some (height np + 1)
               | None => Some 0
               end;
          let a := new_addr h in
          let h := <[a := mkNode k v hg 0 parentNode None None]> h in
          let m := mkMap (mRoot m) (wrap32 (size_ m + 1)) in
          let m := match mRoot m with
                   | None => set_mRoot (Some a) m
                   | Some _ => m
                   end in
          Some (Some a, h, m, nodes)
      | Some a =>
          n ← h !! a;
          if decide (k < key n) then
            '(r, h, m, nodes) ← InsertItem f h m (left n) tree k v (a :: nodes);
            h ← wr h a (set_left r);
            Some (tree, h, m, nodes)
          else if decide (k > key n) then
            '(r, h, m, nodes) ← InsertItem f h m (right n) tree k v (a :: nodes);
            h ← wr h a (set_right r);
            Some (tree, h, m, nodes)
          else Some (tree, h, m, nodes)
      end
  end.

(** ** Deletion *)

(** [FreeNode]: [delete node; --size_]. *)
Definition FreeNode (h : store) (m : AVLmap) (node : addr)
    : option (store * AVLmap) :=
  _ ← h !! node;
  Some (delete node h, mkMap (mRoot m) (wrap32 (size_ m - 1))).

Definition DeleteLeafNode (h : store) (m : AVLmap) (node : addr)
    : option (store * AVLmap) :=
  '(h, m) ←
    (if decide (Some node = mRoot m) then Some (h, set_mRoot None m)
     else
       n ← h !! node;
       p ← parent n;
       np ← h !! p;
       h ← (if decide (Some node = left np)
            then wr h p (set_left None)
            else wr h p (set_right None));
       Some (h, m));
  FreeNode h m node.

Fixpoint DeleteItem (fuel : nat) (h : store) (m : AVLmap) (tree : ptr) (k : Z)
    : option (store * AVLmap) :=
  match fuel with
  | O => None
  | S f =>
      match tree with
      | None => Some (h, m)
      | Some a =>
          n ← h !! a;
          if decide (k < key n) then DeleteItem f h m (left n) k
          else if decide (k > key n) then DeleteItem f h m (right n) k
          else
            match left n, right n with
            | None, None => DeleteLeafNode h m a
            | Some _, Some _ =>
                pred ← decrement fuel h a;
                p ← pred;
                np ← h !! p;
                h ← wr h a (set_value (value np));
                np ← h !! p;
                h ← wr h a (set_key (key np));
                n ← h !! a;
                DeleteItem f h m (left n) (key n)
            | _, _ =>
                let child := match left n with
                             | Some l => Some l
                             | None => right n
                             end in
                '(h, m) ←
                  (if decide (tree ≠ mRoot m) then
                     p ← parent n;
                     np ← h !! p;
                     h ← (if decide (tree = left np)
                          then wr h p (set_left child)
                          else wr h p (set_right child));
                     c ← child;
                     n ← h !! a;
                     h ← wr h c (set_parent (parent n));
                     Some (h, m)
                   else
                     let m := set_mRoot child m in
                     r ← mRoot m;
                     h ← wr h r (set_parent None);
                     Some (h, m));
                FreeNode h m a
            end
      end
  end.

(** [GetVisitedNodes(node, stack)]: the loop pushes [parentWalker] and
    moves to its parent. *)
Fixpoint GetVisitedNodes_loop (fuel : nat) (h : store) (parentWalker : ptr)
    (stack : list addr) : option (list addr) :=
  match fuel with
  | O => None
  | S f =>
      match parentWalker with
      | None => Some stack
      | Some pw =>
          n ← h !! pw;
          GetVisitedNodes_loop f h (parent n) (pw :: stack)
      end
  end.

Definition GetVisitedNodes (fuel : nat) (h : store) (node : addr)
    (stack : list addr) : option (list addr) :=
  n ← h !! node;
  match parent n with
  | None => Some stack
  | Some _ => GetVisitedNodes_loop fuel h (parent n) stack
  end.

(** ** Public operations *)

(** [size()]; the name [size] is taken by the store's cardinality. *)
Definition AVLmap_size (m : AVLmap) : Z := size_ m.

(** [operator[]], with the log of its [BalanceTree] call.  The result
    address is the node whose [value] the returned reference designates. *)
Definition operator_index_log (h : store) (m : AVLmap) (k : Z)
    : option (addr * store * AVLmap * list event) :=
  node ← FindNode (fuel_of h) h (mRoot m) k;
  match node with
  | Some a => Some (a, h, m, [])
  | None =>
      '(_, h, m, nodes) ← InsertItem (fuel_of h) h m (mRoot m) (mRoot m) k 0 [];
      '(h, m, log) ← BalanceTree (fuel_of h) nodes true h m;
      insert ← FindNode (fuel_of h) h (mRoot m) k;
      a ← insert;
      _ ← h !! a;
      Some (a, h, m, log)
  end.

Definition operator_index (h : store) (m : AVLmap) (k : Z)
    : option (addr * store * AVLmap) :=
  '(a, h, m, _) ← operator_index_log h m k; Some (a, h, m).

(** [begin()], [end()], [find(key)]: an iterator is its [mNode] pointer;
    [end_it] holds [nullptr]. *)
Definition end_it : ptr := None.

Definition begin (h : store) (m : AVLmap) : option ptr :=
  match mRoot m with
  | Some r => a ← first (fuel_of h) h r; Some (Some a)
  | None => Some end_it
  end.

Definition find (h : store) (m : AVLmap) (k : Z) : option ptr :=
  FindNode (fuel_of h) h (mRoot m) k.

(** [erase(it)], with the stack it collected and the log of its
    [BalanceTree] call. *)
Definition erase_log (h : store) (m : AVLmap) (it : ptr)
    : option (store * AVLmap * list addr * list event) :=
  if decide (it = end_it) then Some (h, m, [], [])
  else
    a ← it;
    let fuel := fuel_of h in
    nodes ← GetVisitedNodes fuel h a [];
    n ← h !! a;
    '(h, m) ← DeleteItem fuel h m it (key n);
    '(h, m, log) ← BalanceTree fuel nodes false h m;
    Some (h, m, nodes, log).

Definition erase (h : store) (m : AVLmap) (it : ptr)
    : option (store * AVLmap) :=
  '(h, m, _, _) ← erase_log h m it; Some (h, m).

(** Move construction: the result is the new object and what is left in
    [rhs]. *)
Definition move_construct (h : store) (rhs : AVLmap)
    : store * AVLmap * AVLmap :=
  let this := mkMap (mRoot rhs) (size_ rhs) in
  let rhs := mkMap (mRoot rhs) 0 in
  let rhs := set_mRoot None rhs in
  (h, this, rhs).

(** Move assignment: two [std::swap]s. *)
Definition move_assign (h : store) (this rhs : AVLmap)
    : store * AVLmap * AVLmap :=
  let '(this, rhs) := (set_mRoot (mRoot rhs) this, set_mRoot (mRoot this) rhs) in
  let '(this, rhs) := (mkMap (mRoot this) (size_ rhs), mkMap (mRoot rhs) (size_ this)) in
  (h, this, rhs).

(** ** The tree a store represents *)

(** The abstract view of a linked tree: every node carries its address,
    key, value and stored [height] field. *)
Inductive tree :=
  | Leaf
  | T (l : tree) (a : addr) (k v hg : Z) (r : tree).

Definition root (t : tree) : ptr :=
  match t with
  | Leaf => None
  | T _ a _ _ _ _ => Some a
  end.

(** In-order listing of (address, key, value). *)
Fixpoint items (t : tree) : list (addr * Z * Z) :=
  match t with
  | Leaf => []
  | T l a k v _ r => items l ++ (a, k, v) :: items r
  end.

Definition addrs (t : tree) : list addr := (λ x, x.1.1) <$> items t.

Definition keys (t : tree) : list Z := (λ x, x.1.2) <$> items t.

Definition count (t : tree) : nat := length (items t).

(** True subtree height: absent = -1, leaf = 0. *)
Fixpoint theight (t : tree) : Z :=
  match t with
  | Leaf => -1
  | T l _ _ _ _ r => 1 + Z.max (theight l) (theight r)
  end.

(** The store holds the nodes of [t], linked as in [t], below a node
    (or root slot) [par]. *)
Fixpoint rep (h : store) (par : ptr) (t : tree) : Prop :=
  match t with
  | Leaf => True
  | T l a k v hg r =>
      h !! a = Some (mkNode k v hg 0 par (root l) (root r))
      ∧ rep h (Some a) l ∧ rep h (Some a) r
  end.

(** Binary-search order: the in-order keys increase strictly. *)
Definition bst (t : tree) : Prop := StronglySorted Z.lt (keys t).

(** AVL balance on true heights. *)
Fixpoint avl (t : tree) : Prop :=
  match t with
  | Leaf => True
  | T l _ _ _ _ r => Z.abs (theight l - theight r) ≤ 1 ∧ avl l ∧ avl r
  end.

(** The stored [height] field equals the depth [d] of the node. *)
Fixpoint depth_ok (d : Z) (t : tree) : Prop :=
  match t with
  | Leaf => True
  | T l _ _ _ hg r => hg = d ∧ depth_ok (d + 1) l ∧ depth_ok (d + 1) r
  end.

(** The stored [height] field equals the true subtree height. *)
Fixpoint height_field_ok (t : tree) : Prop :=
  match t with
  | Leaf => True
  | T l _ _ _ hg r => hg = theight t ∧ height_field_ok l ∧ height_field_ok r
  end.

(** The map object [m] over store [h] is the tree [t]. *)
Record Shape (h : store) (m : AVLmap) (t : tree) : Prop := mkShape {
  shape_rep : rep h None t;
  shape_root : mRoot m = root t;
  shape_nodup : NoDup (addrs t);
  shape_bst : bst t
}.

Record Sized (m : AVLmap) (t : tree) : Prop := mkSized {
  sized_eq : size_ m = Z.of_nat (count t);
  sized_lt : size_ m < 2 ^ 32
}.

(** Contexts: the path from a subtree up to the root, innermost frame
    first. *)
Inductive frame :=
  | FL (a : addr) (k v hg : Z) (r : tree)
  | FR (l : tree) (a : addr) (k v hg : Z).

Definition frame_addr (f : frame) : addr :=
  match f with
  | FL a _ _ _ _ => a
  | FR _ a _ _ _ => a
  end.

Definition frame_hg (f : frame) : Z :=
  match f with
  | FL _ _ _ hg _ => hg
  | FR _ _ _ _ hg => hg
  end.

Definition fill (f : frame) (t : tree) : tree :=
  match f with
  | FL a k v hg r => T t a k v hg r
  | FR l a k v hg => T l a k v hg t
  end.

Fixpoint plug (c : list frame) (t : tree) : tree :=
  match c with
  | [] => t
  | f :: c => plug c (fill f t)
  end.

Definition ctx_parent (c : list frame) : ptr :=
  match c with
  | [] => None
  | f :: _ => Some (frame_addr f)
  end.

Definition frame_before (f : frame) : list (addr * Z * Z) :=
  match f with
  | FL _ _ _ _ _ => []
  | FR l a k v _ => items l ++ [(a, k, v)]
  end.

Definition frame_after (f : frame) : list (addr * Z * Z) :=
  match f with
  | FL a k v _ r => (a, k, v) :: items r
  | FR _ _ _ _ _ => []
  end.

Fixpoint ctx_before (c : list frame) : list (addr * Z * Z) :=
  match c with
  | [] => []
  | f :: c => ctx_before c ++ frame_before f
  end.

Fixpoint ctx_after (c : list frame) : list (addr * Z * Z) :=
  match c with
  | [] => []
  | f :: c => frame_after f ++ ctx_after c
  end.

(** The store holds the frames of [c], the innermost one pointing at
    [hole]. *)
Fixpoint rep_ctx (h : store) (c : list frame) (hole : ptr) : Prop :=
  match c with
  | [] => True
  | FL a k v hg r :: c' =>
      h !! a = Some (mkNode k v hg 0 (ctx_parent c') hole (root r))
      ∧ rep h (Some a) r ∧ rep_ctx h c' (Some a)
  | FR l a k v hg :: c' =>
      h !! a = Some (mkNode k v hg 0 (ctx_parent c') (root l) hole)
      ∧ rep h (Some a) l ∧ rep_ctx h c' (Some a)
  end.

Definition ctx_root (c : list frame) (hole : ptr) : ptr :=
  match reverse c with
  | [] => hole
  | f :: _ => Some (frame_addr f)
  end.

(** ** Read-only functions on a represented tree *)

Fixpoint find_t (t : tree) (k : Z) : ptr :=
  match t with
  | Leaf => None
  | T l a k' _ _ r =>
      if decide (k' = k) then Some a
      else if decide (k' < k) then find_t r k
      else find_t l k
  end.

(** ** Iteration *)

(** The client loop [for (it = begin(); it != end(); ++it)] collecting
    [it->Key()]; [n] bounds the number of steps. *)
Fixpoint iterate_forward (n : nat) (h : store) (it : ptr) : option (list Z) :=
  match it with
  | None => Some []
  | Some a =>
      match n with
      | O => None
      | S n =>
          nd ← h !! a;
          nxt ← increment (fuel_of h) h a;
          rest ← iterate_forward n h nxt;
          Some (key nd :: rest)
      end
  end.

(** The same loop walking backward with [Node::decrement]. *)
Fixpoint iterate_backward (n : nat) (h : store) (it : ptr) : option (list Z) :=
  match it with
  | None => Some []
  | Some a =>
      match n with
      | O => None
      | S n =>
          nd ← h !! a;
          prv ← decrement (fuel_of h) h a;
          rest ← iterate_backward n h prv;
          Some (key nd :: rest)
      end
  end.

Definition keys_forward (h : store) (m : AVLmap) : option (list Z) :=
  it ← begin h m; iterate_forward (fuel_of h) h it.

(** Backward from [last(root)]. *)
Definition keys_backward (h : store) (m : AVLmap) : option (list Z) :=
  match mRoot m with
  | None => Some []
  | Some r => a ← last (fuel_of h) h r; iterate_backward (fuel_of h) h (Some a)
  end.

(** ** Insertion *)

(** What [InsertItem] builds: the new leaf gets the stored height of its
    parent plus one ([d] when the tree is empty). *)
Fixpoint ins (anew : addr) (d k v : Z) (t : tree) : tree :=
  match t with
  | Leaf => T Leaf anew k v d Leaf
  | T l a k' v' hg r =>
      if decide (k < k') then T (ins anew (hg + 1) k v l) a k' v' hg r
      else if decide (k > k') then T l a k' v' hg (ins anew (hg + 1) k v r)
      else t
  end.

(** The nodes [InsertItem] pushes, last pushed first. *)
Fixpoint ins_path (k : Z) (t : tree) : list addr :=
  match t with
  | Leaf => []
  | T l a k' _ _ r =>
      if decide (k < k') then ins_path k l ++ [a]
      else if decide (k > k') then ins_path k r ++ [a]
      else []
  end.

(** The height a new child of [par] is given. *)
Definition child_height (h : store) (par : ptr) : option Z :=
  match par with
  | Some p => np ← h !! p; Some (height np + 1)
  | None => Some 0
  end.

(** ** Height refresh after a rotation *)

(** What [UpdateSubtreeHeights] leaves in the [height] fields: [d] at the
    root, one more at each level below. *)
Fixpoint redepth (d : Z) (t : tree) : tree :=
  match t with
  | Leaf => Leaf
  | T l a k v _ r => T (redepth (d + 1) l) a k v d (redepth (d + 1) r)
  end.

(** ** Re-linking a subtree under its parent *)

Definition ctx_addrs (c : list frame) : list addr :=
  (λ x, x.1.1) <$> (ctx_before c ++ ctx_after c).

(** The stored height a child of the innermost frame gets. *)
Definition ctx_depth (c : list frame) : Z :=
  match c with
  | [] => 0
  | f :: _ => frame_hg f + 1
  end.

(** The store after the parent's link to the hole is pointed at [hole]. *)
Definition relink (h : store) (c : list frame) (hole : ptr) : store :=
  match c with
  | [] => h
  | FL a k v hg r :: c' =>
      <[a := mkNode k v hg 0 (ctx_parent c') hole (root r)]> h
  | FR l a k v hg :: c' =>
      <[a := mkNode k v hg 0 (ctx_parent c') (root l) hole]> h
  end.

(** ** Rotations *)

Definition rot_right (t : tree) : tree :=
  match t with
  | T (T ll x kx vx hx lr) y ky vy hy r => T ll x kx vx hx (T lr y ky vy hy r)
  | _ => t
  end.

Definition rot_left (t : tree) : tree :=
  match t with
  | T l y ky vy hy (T rl x kx vx hx rr) => T (T l y ky vy hy rl) x kx vx hx rr
  | _ => t
  end.

(** ** One step of rebalancing *)

(** What [BalanceTree] does to the subtree rooted at the popped node; [d]
    is the stored height its root gets after a rotation. *)
Definition balance_node (d : Z) (s : tree) : tree :=
  match s with
  | Leaf => Leaf
  | T l y ky vy hy r =>
      if decide (Z.abs (theight l - theight r) ≤ 1) then s
      else if decide (theight l - theight r > 1) then
        match l with
        | Leaf => s
        | T ll _ _ _ _ lr =>
            if decide (theight ll >= theight lr)
            then redepth d (rot_right s)
            else redepth d (rot_right (T (redepth (hy + 1) (rot_left l)) y ky vy hy r))
        end
      else
        match r with
        | Leaf => s
        | T rl _ _ _ _ rr =>
            if decide (theight rr >= theight rl)
            then redepth d (rot_left s)
            else redepth d (rot_left (T l y ky vy hy (redepth (hy + 1) (rot_right r))))
        end
  end.

(** *** Splicing out a node with at most one child *)

Definition only_child (l r : tree) : tree :=
  match l with
  | Leaf => r
  | _ => l
  end.

(** *** Removing the in-order predecessor *)

Fixpoint remove_max (t : tree) : tree :=
  match t with
  | Leaf => Leaf
  | T l a k v hg r =>
      match r with
      | Leaf => l
      | T _ _ _ _ _ _ => T l a k v hg (remove_max r)
      end
  end.

(** What [DeleteItem] does to the subtree rooted at the node found. *)
Definition delete_here (s : tree) : tree :=
  match s with
  | Leaf => Leaf
  | T l a k v hg r =>
      match l, r with
      | T _ _ _ _ _ _, T _ _ _ _ _ _ =>
          match list_last (items l) with
          | Some (ap, kp, vp) => T (remove_max l) a kp vp hg r
          | None => s
          end
      | _, _ => only_child l r
      end
  end.

(** The node [DeleteItem] frees: the node found, or its in-order
    predecessor when it has two children. *)
Definition freed_addr (s : tree) : option addr :=
  match s with
  | Leaf => None
  | T l a _ _ _ r =>
      match l, r with
      | T _ _ _ _ _ _, T _ _ _ _ _ _ => list_last (addrs l)
      | _, _ => Some a
      end
  end.

(** ** The log of a rebalancing walk *)

Definition is_rotation (e : event) : bool :=
  match e with
  | Examine _ => false
  | _ => true
  end.

(** The nodes a log shows as examined, in order. *)
Definition examined (log : list event) : list addr :=
  omap (λ e, match e with Examine y => Some y | _ => None end) log.

(** The rotation calls of one loop iteration at [y]: the last one is on
    [y] itself, possibly preceded by one on a child. *)
Definition rotation_at (y : addr) (rots : list event) : Prop :=
  rots = [RotR (Some y)] ∨ (∃ l, rots = [RotL l; RotR (Some y)])
  ∨ rots = [RotL (Some y)] ∨ (∃ r, rots = [RotR r; RotL (Some y)]).

(** The chain of [parent] links from [a]: [chain] lists the parent,
    grandparent, ... and the last of them has parent [top]. *)
Fixpoint chain_up (h : store) (a : addr) (chain : list addr) (top : ptr) : Prop :=
  match chain with
  | [] => ∃ n, h !! a = Some n ∧ parent n = top
  | p :: rest => (∃ n, h !! a = Some n ∧ parent n = Some p) ∧ chain_up h p rest top
  end.

(** ** Sequences of public operations *)

(** [m[k]] for each key of the list, in order. *)
Fixpoint insert_all (ks : list Z) (h : store) (m : AVLmap)
    : option (store * AVLmap) :=
  match ks with
  | [] => Some (h, m)
  | k :: ks => '(_, h, m) ← operator_index h m k; insert_all ks h m
  end.

(** [j + 1] calls of [m[k]]; the result of the last one. *)
Fixpoint repeat_index (j : nat) (h : store) (m : AVLmap) (k : Z)
    : option (addr * store * AVLmap) :=
  match j with
  | O => operator_index h m k
  | S j => '(_, h, m) ← operator_index h m k; repeat_index j h m k
  end.

(** A client operation: [m[k]], or [m.erase(m.find(k))]. *)
Inductive op :=
  | Index (k : Z)
  | Erase (k : Z).

Definition run_op (o : op) (h : store) (m : AVLmap) : option (store * AVLmap) :=
  match o with
  | Index k => '(_, h, m) ← operator_index h m k; Some (h, m)
  | Erase k => it ← find h m k; erase h m it
  end.

Fixpoint run (ops : list op) (h : store) (m : AVLmap) : option (store * AVLmap) :=
  match ops with
  | [] => Some (h, m)
  | o :: ops => '(h, m) ← run_op o h m; run ops h m
  end.

(** ** Example maps *)

Bind Scope positive_scope with addr.

(** The map after [m[10]; m[20]; m[30]]: node 1 holds 10, node 2 holds 20,
    node 3 holds 30. *)
Definition store_10_20_30 : store :=
  list_to_map
    [(1%positive, mkNode 10 0 1 0 (Some 2%positive) None None);
     (2%positive, mkNode 20 0 0 0 None (Some 1%positive) (Some 3%positive));
     (3%positive, mkNode 30 0 1 0 (Some 2%positive) None None)].

Definition map_10_20_30 : AVLmap := mkMap (Some 2%positive) 3.

Definition tree_10_20_30 : tree :=
  T (T Leaf 1%positive 10 0 1 Leaf) 2%positive 20 0 0 (T Leaf 3%positive 30 0 1 Leaf).

(** The map after [m[10]; m[20]]. *)
Definition store_10_20 : store :=
  list_to_map
    [(1%positive, mkNode 10 0 0 0 None None (Some 2%positive));
     (2%positive, mkNode 20 0 1 0 (Some 1%positive) None None)].

Definition map_10_20 : AVLmap := mkMap (Some 1%positive) 2.

Definition tree_10_20 : tree :=
  T Leaf 1%positive 10 0 0 (T Leaf 2%positive 20 0 1 Leaf).

(** The map after [m[20]; m[10]; m[30]; m[40]]: node 1 holds 20, node 2
    holds 10, node 3 holds 30, node 4 holds 40. *)
Definition store_20_10_30_40 : store :=
  list_to_map
    [(1%positive, mkNode 20 0 0 0 None (Some 2%positive) (Some 3%positive));
     (2%positive, mkNode 10 0 1 0 (Some 1%positive) None None);
     (3%positive, mkNode 30 0 1 0 (Some 1%positive) None (Some 4%positive));
     (4%positive, mkNode 40 0 2 0 (Some 3%positive) None None)].

Definition map_20_10_30_40 : AVLmap := mkMap (Some 1%positive) 4.

Definition tree_20_10_30_40 : tree :=
  T (T Leaf 2%positive 10 0 1 Leaf) 1%positive 20 0 0
    (T Leaf 3%positive 30 0 1 (T Leaf 4%positive 40 0 2 Leaf)).

(** What [erase(find(20))] leaves of it: a right spine 10, 30, 40. *)
Definition store_spine : store :=
  list_to_map
    [(1%positive, mkNode 10 0 0 0 None None (Some 3%positive));
     (3%positive, mkNode 30 0 1 0 (Some 1%positive) None (Some 4%positive));
     (4%positive, mkNode 40 0 2 0 (Some 3%positive) None None)].

Definition map_spine : AVLmap := mkMap (Some 1%positive) 3.

Definition tree_spine : tree :=
  T Leaf 1%positive 10 0 0 (T Leaf 3%positive 30 0 1 (T Leaf 4%positive 40 0 2 Leaf)).

(** Twelve keys inserted level by level; no insertion rotates. *)
Definition twelve_keys : list Z := [50; 20; 80; 10; 30; 70; 90; 40; 60; 85; 95; 99].

(** Two single-node maps in one store. *)
Definition store_two_maps : store :=
  list_to_map
    [(1%positive, mkNode 5 0 0 0 None None None);
     (2%positive, mkNode 7 0 0 0 None None None)].

(** ** The order of the walk after erase *)

(** What [erase(find(40))] leaves of the map of 20, 10, 30, 40. *)
Definition store_20_10_30 : store :=
  list_to_map
    [(1%positive, mkNode 20 0 0 0 None (Some 2%positive) (Some 3%positive));
     (2%positive, mkNode 10 0 1 0 (Some 1%positive) None None);
     (3%positive, mkNode 30 0 1 0 (Some 1%positive) None None)].

Definition map_20_10_30 : AVLmap := mkMap (Some 1%positive) 3.

(** ** The stored height field *)

(** C3 as stated: after every sequence of operations every stored height
    equals the true subtree height. *)
Definition stored_height_is_subtree_height : Prop :=
  ∀ ops h m t,
    run ops ∅ empty_map = Some (h, m) → Shape h m t → height_field_ok t.

(** ** Move *)

(** C4 as stated, for move assignment: the destination takes the source's
    root and size, the source is left empty, the store is untouched. *)
Definition move_assign_resets_source : Prop :=
  ∀ h this rhs,
    move_assign h this rhs = (h, mkMap (mRoot rhs) (size_ rhs), empty_map).

(** ** Balance across insertion *)

(** Whether the loop of [BalanceTree] takes the [continue] at a node. *)
Definition balanced (s : tree) : bool :=
  match s with
  | Leaf => true
  | T l _ _ _ _ r => bool_decide (Z.abs (theight l - theight r) ≤ 1)
  end.

(** One iteration of the walk after an insertion, at a subtree [s] whose
    root is the popped node: nothing once the walk has stopped, else a
    rotation and a stop if [s] is out of balance. *)
Definition walk_step (d : Z) (s : tree) (stop : bool) : tree * bool :=
  if stop then (s, true)
  else if balanced s then (s, false)
  else (balance_node d s, true).

(** Insertion followed by the walk up the ancestors: the tree and whether
    the walk has stopped. *)
Fixpoint ins_walk (anew : addr) (d k v : Z) (t : tree) : tree * bool :=
  match t with
  | Leaf => (T Leaf anew k v d Leaf, false)
  | T l a k' v' hg r =>
      if decide (k < k') then
        let p := ins_walk anew (hg + 1) k v l in
        walk_step d (T p.1 a k' v' hg r) p.2
      else if decide (k > k') then
        let p := ins_walk anew (hg + 1) k v r in
        walk_step d (T l a k' v' hg p.1) p.2
      else (t, true)
  end.

(** The subtree leans to one side, or is a single node. *)
Definition tilted (t : tree) : Prop :=
  match t with
  | Leaf => False
  | T l _ _ _ _ r => theight l ≠ theight r ∨ theight t = 0
  end.

(** ** The map as a finite function *)

(** The entries of the map in key order. *)
Definition bindings (t : tree) : list (Z * Z) := (λ x, (x.1.2, x.2)) <$> items t.

(** The finite function from keys to values the tree stands for. *)
Definition contents (t : tree) : gmap Z Z := list_to_map (bindings t).

(** [it = m.find(k)] followed by [it->Value()] unless [it == m.end()]. *)
Definition get (h : store) (m : AVLmap) (k : Z) : option (option Z) :=
  it ← find h m k;
  match it with
  | None => Some None
  | Some a => n ← h !! a; Some (Some (value n))
  end.

(** [m[k] = v]: [operator[]] returns a reference to the [value] field of
    a node and the assignment stores [v] through it. *)
Definition index_assign (h : store) (m : AVLmap) (k v : Z)
    : option (store * AVLmap) :=
  '(a, h, m) ← operator_index h m k;
  h ← wr h a (set_value v);
  Some (h, m).

(** [m[k]] read as a value. *)
Definition index_read (h : store) (m : AVLmap) (k : Z)
    : option (Z * store * AVLmap) :=
  '(a, h, m) ← operator_index h m k;
  n ← h !! a;
  Some (value n, h, m).

(** The tree after the value of node [a] is overwritten. *)
Fixpoint set_val (a : addr) (v : Z) (t : tree) : tree :=
  match t with
  | Leaf => Leaf
  | T l a' k v' hg r =>
      T (set_val a v l) a' k (if decide (a' = a) then v else v') hg (set_val a v r)
  end.

(** *** Overwriting a value *)

Definition upd_item (a : addr) (v : Z) (x : addr * Z * Z) : addr * Z * Z :=
  if decide (x.1.1 = a) then (x.1, v) else x.

(** ** Sequences of operations against the finite function *)

(** The operations a caller has: [m[k] = v], [m[k]] and
    [m.erase(m.find(k))]. *)
Inductive cmd :=
  | Put (k v : Z)
  | Touch (k : Z)
  | Del (k : Z).

Definition exec_cmd (c : cmd) (h : store) (m : AVLmap) : option (store * AVLmap) :=
  match c with
  | Put k v => index_assign h m k v
  | Touch k => '(_, h, m) ← operator_index h m k; Some (h, m)
  | Del k => it ← find h m k; erase h m it
  end.

Fixpoint exec (cs : list cmd) (h : store) (m : AVLmap) : option (store * AVLmap) :=
  match cs with
  | [] => Some (h, m)
  | c :: cs => '(h, m) ← exec_cmd c h m; exec cs h m
  end.

(** The same operations on a finite function. *)
Definition model_cmd (c : cmd) (M : gmap Z Z) : gmap Z Z :=
  match c with
  | Put k v => <[k:=v]> M
  | Touch k => match M !! k with Some _ => M | None => <[k:=0]> M end
  | Del k => delete k M
  end.

Fixpoint model (cs : list cmd) (M : gmap Z Z) : gmap Z Z :=
  match cs with
  | [] => M
  | c :: cs => model cs (model_cmd c M)
  end.

(** The operations that insert or assign, as opposed to erasing. *)
Definition inserts (c : cmd) : bool :=
  match c with
  | Del _ => false
  | _ => true
  end.

(** What an operation on the tree [t] may touch in the store: a node of
    the new tree [t'] was a node of [t] or was not allocated; outside
    [t'], the nodes of [t] are freed and everything else is as it was. *)
Definition footprint (h : store) (t : tree) (h' : store) (t' : tree) : Prop :=
  (∀ b, b ∈ addrs t' → b ∈ addrs t ∨ h !! b = None)
  ∧ (∀ b, b ∉ addrs t' →
       h' !! b = if decide (b ∈ addrs t) then None else h !! b).

(** The store holds no node outside the tree. *)
Definition owns (h : store) (t : tree) : Prop :=
  ∀ b, is_Some (h !! b) → b ∈ addrs t.

(** ** Clearing *)

(** [ClearTree(node)]: the node is freed after its two child pointers
    are saved, then the subtrees are cleared. *)
Fixpoint ClearTree (fuel : nat) (h : store) (m : AVLmap) (node : ptr)
    : option (store * AVLmap) :=
  match fuel with
  | O => None
  | S f =>
      match node with
      | None => Some (h, m)
      | Some a =>
          n ← h !! a;
          let tempLeft := left n in
          let tempRight := right n in
          '(h, m) ← FreeNode h m a;
          '(h, m) ← ClearTree f h m tempLeft;
          '(h, m) ← ClearTree f h m tempRight;
          Some (h, set_mRoot None m)
      end
  end.

(** [~AVLmap()]. *)
Definition AVLmap_destructor (h : store) (m : AVLmap) : option (store * AVLmap) :=
  ClearTree (fuel_of h) h m (mRoot m).

(** ** Copying *)

(** [DeepCopyTree(root)] on the map [m] under construction; [root] is a
    node of the source.  The first statement assigns [root->value] to
    the reference that [operator[]] returns for [root->key] on [this]:
    the key and the value are read, [operator[]] runs and the value is
    stored through the reference.  The node is read again for
    [root->left] and [root->right]. *)
Fixpoint DeepCopyTree (fuel : nat) (h : store) (m : AVLmap) (root : ptr)
    : option (store * AVLmap) :=
  match fuel with
  | O => None
  | S f =>
      match root with
      | None => Some (h, m)
      | Some a =>
          n ← h !! a;
          '(h, m) ← index_assign h m (key n) (value n);
          n ← h !! a;
          '(h, m) ← DeepCopyTree f h m (left n);
          n ← h !! a;
          '(h, m) ← DeepCopyTree f h m (right n);
          Some (h, m)
      end
  end.

(** [AVLmap(const AVLmap& rhs)]: the new object starts with a null root
    and size 0. *)
Definition copy_construct (h : store) (rhs : AVLmap) : option (store * AVLmap) :=
  DeepCopyTree (fuel_of h) h empty_map (mRoot rhs).

(** [operator=(const AVLmap& rhs)]; [self] says whether [this == &rhs]. *)
Definition copy_assign (h : store) (this rhs : AVLmap) (self : bool)
    : option (store * AVLmap) :=
  if self then Some (h, this)
  else
    '(h, this) ← ClearTree (fuel_of h) h this (mRoot this);
    DeepCopyTree (fuel_of h) h this (mRoot rhs).

(** ** The accessors of the printer *)

(** [getdepth(node)]. *)
Definition getdepth (h : store) (node : addr) : option Z :=
  n ← h !! node; Some (height n).

(** [getedgesymbol(node)]. *)
Definition getedgesymbol (h : store) (node : addr) : option ascii :=
  n ← h !! node;
  match parent n with
  | None => Some "-"%char
  | Some p =>
      np ← h !! p;
      Some (if decide (left np = Some node) then "\"%char else "/"%char)
  end.

(** * Part II: the proofs *)

(** ** Basic facts about trees, contexts and the representation *)

Lemma items_plug c t :
  items (plug c t) = ctx_before c ++ items t ++ ctx_after c.
Proof.
  revert t. induction c as [|f c IH]; intros t; simpl.
  - by rewrite app_nil_r.
  - rewrite IH. destruct f; simpl; rewrite ?app_nil_r, <- ?app_assoc; simpl; done.
Qed.

Lemma root_plug c t : root (plug c t) = ctx_root c (root t).
Proof.
  unfold ctx_root. revert t. induction c as [|f c IH]; intros t; simpl; [done|].
  rewrite IH, reverse_cons. destruct (reverse c); simpl; [|done].
  by destruct f.
Qed.

Lemma ctx_root_nil hole : ctx_root [] hole = hole.
Proof. done. Qed.

Lemma root_fill f t : root (fill f t) = Some (frame_addr f).
Proof. by destruct f. Qed.

Lemma rep_plug h c t :
  rep h None (plug c t) ↔ rep h (ctx_parent c) t ∧ rep_ctx h c (root t).
Proof.
  revert t. induction c as [|f c IH]; intros t; simpl; [tauto|].
  rewrite IH. destruct f; simpl; tauto.
Qed.

Lemma addrs_T l a k v hg r : addrs (T l a k v hg r) = addrs l ++ a :: addrs r.
Proof. unfold addrs. simpl. by rewrite fmap_app. Qed.

Lemma rep_frame h h' par t :
  rep h par t → (∀ a, a ∈ addrs t → h' !! a = h !! a) → rep h' par t.
Proof.
  revert par. induction t as [|l IHl a k v hg r IHr]; intros par; simpl; [done|].
  rewrite addrs_T. intros (Ha & Hl & Hr) Hag. split_and!.
  - rewrite Hag; [done|]. apply elem_of_app. right. apply elem_of_cons. by left.
  - apply IHl; [done|]. intros b Hb. apply Hag. apply elem_of_app. by left.
  - apply IHr; [done|]. intros b Hb. apply Hag. apply elem_of_app. right.
    apply elem_of_cons. by right.
Qed.

Lemma keys_T l a k v hg r : keys (T l a k v hg r) = keys l ++ k :: keys r.
Proof. unfold keys. simpl. by rewrite fmap_app. Qed.

Lemma count_T l a k v hg r : count (T l a k v hg r) = S (count l + count r).
Proof. unfold count. simpl. rewrite length_app. simpl. lia. Qed.

Lemma count_addrs t : length (addrs t) = count t.
Proof. unfold addrs, count. by rewrite length_fmap. Qed.

Lemma rep_lookup h par t a :
  rep h par t → a ∈ addrs t → is_Some (h !! a).
Proof.
  revert par. induction t as [|l IHl b k v hg r IHr]; intros par; simpl.
  - unfold addrs; simpl. set_solver.
  - rewrite addrs_T. intros (Hb & Hl & Hr) Hin.
    apply elem_of_app in Hin as [Hin|Hin]; [by eapply IHl|].
    apply elem_of_cons in Hin as [->|Hin]; [by eexists|by eapply IHr].
Qed.

Lemma rep_count_le h par t :
  rep h par t → NoDup (addrs t) → (count t ≤ size h)%nat.
Proof.
  intros Hrep Hnd. rewrite <- count_addrs, <- size_dom.
  rewrite <- (size_list_to_set (C := gset addr)) by done.
  apply subseteq_size. intros a Ha. rewrite elem_of_list_to_set in Ha.
  apply elem_of_dom. by eapply rep_lookup.
Qed.

Lemma Shape_fuel h m t : Shape h m t → (count t < fuel_of h)%nat.
Proof.
  intros [Hrep _ Hnd _]. unfold fuel_of.
  pose proof (rep_count_le _ _ _ Hrep Hnd). lia.
Qed.

Lemma new_addr_fresh h : h !! new_addr h = None.
Proof. apply not_elem_of_dom. unfold new_addr. apply is_fresh. Qed.

Lemma rep_new_addr h par t : rep h par t → new_addr h ∉ addrs t.
Proof.
  intros Hrep Hin. destruct (rep_lookup _ _ _ _ Hrep Hin) as [n Hn].
  by rewrite new_addr_fresh in Hn.
Qed.

(** ** Read-only functions on a represented tree *)

Lemma GetSubtreeHeight_spec fuel h par t :
  rep h par t → (count t < fuel)%nat →
  GetSubtreeHeight fuel h (root t) = Some (theight t).
Proof.
  revert par t. induction fuel as [|fuel IH]; intros par t Hrep Hf; [lia|].
  destruct t as [|l a k v hg r]; simpl; [done|].
  destruct Hrep as (Ha & Hl & Hr). rewrite count_T in Hf.
  rewrite Ha. simpl.
  rewrite (IH _ _ Hl) by lia. simpl.
  rewrite (IH _ _ Hr) by lia. done.
Qed.

Lemma FindNode_spec fuel h par t k :
  rep h par t → (count t < fuel)%nat →
  FindNode fuel h (root t) k = Some (find_t t k).
Proof.
  revert par t. induction fuel as [|fuel IH]; intros par t Hrep Hf; [lia|].
  destruct t as [|l a k' v hg r]; simpl; [done|].
  destruct Hrep as (Ha & Hl & Hr). rewrite count_T in Hf.
  rewrite Ha. simpl.
  destruct (decide (k' = k)); [done|].
  destruct (decide (k' < k)); [apply (IH _ _ Hr)|apply (IH _ _ Hl)]; lia.
Qed.

Lemma bst_T l a k v hg r :
  bst (T l a k v hg r) ↔
  bst l ∧ bst r ∧ Forall (λ x, x < k) (keys l) ∧ Forall (λ x, k < x) (keys r).
Proof.
  unfold bst. rewrite keys_T.
  rewrite StronglySorted_app, StronglySorted_cons, !Forall_forall. split.
  - intros (Hlr & Hl & Hk & Hr). split_and!; try done.
    intros x Hx. apply (Hlr x k Hx). by left.
  - intros (Hl & Hr & Hlk & Hkr). split_and!; try done.
    intros x y Hx Hy.
    apply elem_of_cons in Hy as [->|Hy]; [by apply Hlk|].
    specialize (Hlk x Hx). specialize (Hkr y Hy). lia.
Qed.

Lemma keys_items t k : k ∈ keys t ↔ ∃ a v, (a, k, v) ∈ items t.
Proof.
  unfold keys. rewrite list_elem_of_fmap. split.
  - intros ([[a k'] v] & -> & Hin). eauto.
  - intros (a & v & Hin). by exists (a, k, v).
Qed.

Lemma find_t_None t k : bst t → find_t t k = None ↔ k ∉ keys t.
Proof.
  induction t as [|l IHl a k' v hg r IHr]; simpl; intros Hb.
  - split; [|done]. intros _. unfold keys. simpl. apply not_elem_of_nil.
  - apply bst_T in Hb as (Hl & Hr & Hlk & Hkr). rewrite keys_T.
    rewrite Forall_forall in Hlk. rewrite Forall_forall in Hkr.
    rewrite elem_of_app, elem_of_cons.
    destruct (decide (k' = k)) as [->|Hne].
    { split; [done|]. intros []. auto. }
    destruct (decide (k' < k)).
    + rewrite (IHr Hr). split; [|tauto]. intros Hn [Hin|[->|Hin]]; try done.
      specialize (Hlk _ Hin). lia.
    + rewrite (IHl Hl). split; [|tauto]. intros Hn [Hin|[->|Hin]]; try done.
      specialize (Hkr _ Hin). lia.
Qed.

Lemma find_t_Some t k a :
  find_t t k = Some a → ∃ v, (a, k, v) ∈ items t.
Proof.
  induction t as [|l IHl b k' v hg r IHr]; simpl; [done|].
  destruct (decide (k' = k)) as [->|Hne].
  - intros [= ->]. exists v. apply elem_of_app. right. by left.
  - destruct (decide (k' < k)); intros Hf.
    + destruct (IHr Hf) as [w Hw]. exists w. apply elem_of_app. right. by right.
    + destruct (IHl Hf) as [w Hw]. exists w. apply elem_of_app. by left.
Qed.

Lemma find_t_elem t k a v :
  bst t → (a, k, v) ∈ items t → find_t t k = Some a.
Proof.
  induction t as [|l IHl b k' v' hg r IHr]; simpl; intros Hb Hin.
  - by apply elem_of_nil in Hin.
  - apply bst_T in Hb as (Hl & Hr & Hlk & Hkr).
    rewrite Forall_forall in Hlk. rewrite Forall_forall in Hkr.
    apply elem_of_app in Hin as [Hin|Hin].
    + assert (k < k') by (apply Hlk, keys_items; eauto).
      rewrite decide_False by lia. rewrite decide_False by lia. by apply IHl.
    + apply elem_of_cons in Hin as [[= -> -> ->]|Hin].
      * by rewrite decide_True.
      * assert (k' < k) by (apply Hkr, keys_items; eauto).
        rewrite decide_False by lia. rewrite decide_True by lia. by apply IHr.
Qed.

(** Every listed item is a node of the store with that key and value. *)
Lemma rep_item h par t a k v :
  rep h par t → (a, k, v) ∈ items t →
  ∃ n, h !! a = Some n ∧ key n = k ∧ value n = v.
Proof.
  revert par. induction t as [|l IHl b k' v' hg r IHr]; intros par; simpl.
  - intros _ Hin. by apply elem_of_nil in Hin.
  - intros (Hb & Hl & Hr) Hin.
    apply elem_of_app in Hin as [Hin|Hin]; [by eapply IHl|].
    apply elem_of_cons in Hin as [[= -> -> ->]|Hin]; [|by eapply IHr].
    by eexists.
Qed.

(** Leftmost and rightmost addresses. *)
Lemma first_spec fuel h par t a :
  rep h par t → (count t < fuel)%nat → root t = Some a →
  first fuel h a = head (addrs t).
Proof.
  revert par t a. induction fuel as [|fuel IH]; intros par t a Hrep Hf Hroot; [lia|].
  destruct t as [|l a' k v hg r]; simpl in *; [done|]. injection Hroot as ->.
  destruct Hrep as (Ha & Hl & Hr). rewrite count_T in Hf.
  rewrite Ha. simpl. rewrite addrs_T, head_app.
  destruct l as [|ll la lk lv lhg lr] eqn:El; simpl; [done|].
  rewrite <- El in *. rewrite (IH (Some a) l la) by (done || lia || by subst).
  subst l. rewrite addrs_T, head_app. by destruct (head (addrs ll)).
Qed.

Lemma last_spec fuel h par t a :
  rep h par t → (count t < fuel)%nat → root t = Some a →
  last fuel h a = list_last (addrs t).
Proof.
  revert par t a. induction fuel as [|fuel IH]; intros par t a Hrep Hf Hroot; [lia|].
  destruct t as [|l a' k v hg r]; simpl in *; [done|]. injection Hroot as ->.
  destruct Hrep as (Ha & Hl & Hr). rewrite count_T in Hf.
  rewrite Ha. simpl. rewrite addrs_T, last_app, last_cons.
  destruct r as [|rl ra rk rv rhg rr] eqn:Er; simpl; [done|].
  rewrite <- Er in *. rewrite (IH (Some a) r ra) by (done || lia || by subst).
  subst r. rewrite addrs_T, last_app, last_cons.
  by destruct (list_last (addrs rr)).
Qed.

(** ** Locating a node: every address of a tree sits under a context *)

Lemma plug_app c1 c2 t : plug (c1 ++ c2) t = plug c2 (plug c1 t).
Proof. revert t. induction c1 as [|f c1 IH]; intros t; simpl; [done|apply IH]. Qed.

Lemma locate t a :
  a ∈ addrs t → ∃ c l k v hg r, t = plug c (T l a k v hg r).
Proof.
  induction t as [|l IHl b k v hg r IHr].
  - unfold addrs. simpl. intros Hin. by apply elem_of_nil in Hin.
  - rewrite addrs_T. intros Hin. apply elem_of_app in Hin as [Hin|Hin].
    + destruct (IHl Hin) as (c & l' & k' & v' & hg' & r' & ->).
      exists (c ++ [FL b k v hg r]), l', k', v', hg', r'. by rewrite plug_app.
    + apply elem_of_cons in Hin as [->|Hin].
      * by exists [], l, k, v, hg, r.
      * destruct (IHr Hin) as (c & l' & k' & v' & hg' & r' & ->).
        exists (c ++ [FR l b k v hg]), l', k', v', hg', r'. by rewrite plug_app.
Qed.

Lemma addrs_plug c t :
  addrs (plug c t)
  = ((λ x, x.1.1) <$> ctx_before c) ++ addrs t ++ ((λ x, x.1.1) <$> ctx_after c).
Proof. unfold addrs. by rewrite items_plug, !fmap_app. Qed.

Lemma addrs_fill f t :
  addrs (fill f t)
  = ((λ x, x.1.1) <$> frame_before f) ++ addrs t ++ ((λ x, x.1.1) <$> frame_after f).
Proof.
  destruct f; simpl; rewrite addrs_T; simpl.
  - done.
  - rewrite fmap_app. simpl. by rewrite app_nil_r, <- app_assoc.
Qed.

Lemma NoDup_plug_inner c t : NoDup (addrs (plug c t)) → NoDup (addrs t).
Proof.
  rewrite addrs_plug. intros H. apply NoDup_app in H as (_ & _ & H).
  by apply NoDup_app in H as (H & _ & _).
Qed.

Lemma root_addrs t a : root t = Some a → a ∈ addrs t.
Proof.
  destruct t; simpl; [done|]. intros [= ->]. rewrite addrs_T.
  apply elem_of_app. right. by left.
Qed.

Lemma count_plug_length c t : (length c + count t ≤ count (plug c t))%nat.
Proof.
  revert t. induction c as [|f c IH]; intros t; simpl; [lia|].
  specialize (IH (fill f t)). destruct f; simpl in *; rewrite count_T in IH; lia.
Qed.

(** ** In-order successor and predecessor *)

Lemma increment_loop_spec fuel h c s w :
  rep_ctx h c (Some w) → root s = Some w → NoDup (addrs (plug c s)) →
  (length c < fuel)%nat →
  increment_loop fuel h w (ctx_parent c)
  = Some (head ((λ x, x.1.1) <$> ctx_after c)).
Proof.
  revert c s w. induction fuel as [|fuel IH]; intros c s w Hc Hroot Hnd Hf; [lia|].
  destruct c as [|[a k v hg r|l a k v hg] c]; simpl in *; [done| |].
  - destruct Hc as (Ha & Hr & Hc). rewrite Ha. simpl.
    rewrite decide_False; [done|].
    intros Hrw. apply NoDup_plug_inner in Hnd. rewrite addrs_T in Hnd.
    apply NoDup_app in Hnd as (_ & Hnd & _).
    apply (Hnd w); [by apply root_addrs|]. right. by apply root_addrs.
  - destruct Hc as (Ha & Hl & Hc). rewrite Ha. simpl.
    rewrite decide_True by done.
    apply (IH c (T l a k v hg s) a); [done|done|done|lia].
Qed.

Lemma decrement_loop_spec fuel h c s w :
  rep_ctx h c (Some w) → root s = Some w → NoDup (addrs (plug c s)) →
  (length c < fuel)%nat →
  decrement_loop fuel h w (ctx_parent c)
  = Some (list_last ((λ x, x.1.1) <$> ctx_before c)).
Proof.
  revert c s w. induction fuel as [|fuel IH]; intros c s w Hc Hroot Hnd Hf; [lia|].
  destruct c as [|[a k v hg r|l a k v hg] c]; simpl in *; [done| |].
  - destruct Hc as (Ha & Hr & Hc). rewrite Ha. simpl.
    rewrite decide_True by done. rewrite app_nil_r.
    apply (IH c (T s a k v hg r) a); [done|done|done|lia].
  - destruct Hc as (Ha & Hl & Hc). rewrite Ha. simpl.
    rewrite decide_False.
    { rewrite app_assoc, fmap_app; simpl; by rewrite last_snoc. }
    intros Hrw. apply NoDup_plug_inner in Hnd. rewrite addrs_T in Hnd.
    apply NoDup_app in Hnd as (_ & Hnd & _).
    apply (Hnd w); [by apply root_addrs|]. right. by apply root_addrs.
Qed.

Lemma root_None t : root t = None → t = Leaf.
Proof. by destruct t. Qed.

Lemma head_addrs_root t a : root t = Some a → is_Some (head (addrs t)).
Proof.
  intros Hr. apply root_addrs in Hr. apply head_is_Some. intros E.
  rewrite E in Hr. by apply elem_of_nil in Hr.
Qed.

Lemma last_addrs_root t a : root t = Some a → is_Some (list_last (addrs t)).
Proof.
  intros Hr. apply root_addrs in Hr. apply last_is_Some. intros E.
  rewrite E in Hr. by apply elem_of_nil in Hr.
Qed.

Lemma increment_spec fuel h c l a k v hg r :
  rep h None (plug c (T l a k v hg r)) →
  NoDup (addrs (plug c (T l a k v hg r))) →
  (count (plug c (T l a k v hg r)) < fuel)%nat →
  increment fuel h a = Some (head ((λ x, x.1.1) <$> (items r ++ ctx_after c))).
Proof.
  intros Hrep Hnd Hf. pose proof (count_plug_length c (T l a k v hg r)) as Hlen.
  rewrite count_T in Hlen.
  apply rep_plug in Hrep as ((Ha & Hl & Hr) & Hc). simpl in Hc.
  unfold increment. rewrite Ha. simpl. rewrite fmap_app, head_app.
  fold (addrs r). destruct (root r) as [ra|] eqn:Hroot.
  - rewrite (first_spec fuel h (Some a) r ra) by (done || lia).
    destruct (head_addrs_root _ _ Hroot) as [b ->]. done.
  - apply root_None in Hroot as ->. simpl.
    destruct c as [|f c']; [done|].
    change (Some (frame_addr f)) with (ctx_parent (f :: c')).
    rewrite (increment_loop_spec fuel h (f :: c') (T l a k v hg Leaf) a);
      [by simpl|done|done|done|lia].
Qed.

Lemma decrement_spec fuel h c l a k v hg r :
  rep h None (plug c (T l a k v hg r)) →
  NoDup (addrs (plug c (T l a k v hg r))) →
  (count (plug c (T l a k v hg r)) < fuel)%nat →
  decrement fuel h a
  = Some (list_last ((λ x, x.1.1) <$> (ctx_before c ++ items l))).
Proof.
  intros Hrep Hnd Hf. pose proof (count_plug_length c (T l a k v hg r)) as Hlen.
  rewrite count_T in Hlen.
  apply rep_plug in Hrep as ((Ha & Hl & Hr) & Hc). simpl in Hc.
  unfold decrement. rewrite Ha. simpl. rewrite fmap_app, last_app.
  fold (addrs l). destruct (root l) as [la|] eqn:Hroot.
  - rewrite (last_spec fuel h (Some a) l la) by (done || lia).
    destruct (last_addrs_root _ _ Hroot) as [b ->]. done.
  - apply root_None in Hroot as ->. simpl.
    destruct c as [|f c']; simpl.
    + destruct fuel; [lia|done].
    + destruct f as [pa pk pv phg pr|pl pa pk pv phg]; simpl in Hc; simpl.
      * destruct Hc as (Hpa & Hpr & Hc). rewrite Hpa. simpl.
        rewrite decide_False.
        { change (Some pa) with (ctx_parent (FL pa pk pv phg pr :: c')).
          rewrite (decrement_loop_spec fuel h (FL pa pk pv phg pr :: c')
                     (T Leaf a k v hg r) a);
            [by simpl|by simpl|done|done|lia]. }
        intros Hrw. simpl in Hnd. apply NoDup_plug_inner in Hnd. rewrite addrs_T in Hnd.
        apply NoDup_app in Hnd as (_ & Hnd & _).
        apply (Hnd a); [by apply root_addrs|]. right. by apply root_addrs.
      * destruct Hc as (Hpa & Hpl & Hc). rewrite Hpa. simpl.
        rewrite decide_True by done.
        rewrite app_assoc, fmap_app; simpl; by rewrite last_snoc.
Qed.

(** ** Iteration *)

Lemma split_unique {A B} (f : A → B) (l1 l2 l1' l2' : list A) x x' :
  NoDup (f <$> (l1 ++ x :: l2)) → l1 ++ x :: l2 = l1' ++ x' :: l2' → f x = f x' →
  l1 = l1' ∧ x = x' ∧ l2 = l2'.
Proof.
  revert l1'. induction l1 as [|y l1 IH]; intros l1' Hnd Heq Hf.
  - destruct l1' as [|y' l1']; simpl in *.
    + by injection Heq as -> ->.
    + injection Heq as -> ->. apply NoDup_cons in Hnd as [Hnd _].
      exfalso. apply Hnd. rewrite Hf, fmap_app. apply elem_of_app. right. by left.
  - destruct l1' as [|y' l1']; simpl in *.
    + injection Heq as -> <-. apply NoDup_cons in Hnd as [Hnd _].
      exfalso. apply Hnd. rewrite <- Hf, fmap_app. apply elem_of_app. right. by left.
    + injection Heq as -> Heq. apply NoDup_cons in Hnd as [_ Hnd].
      destruct (IH l1' Hnd Heq Hf) as (-> & -> & ->). done.
Qed.

Lemma position t pre post a k v :
  NoDup (addrs t) → items t = pre ++ (a, k, v) :: post →
  ∃ c l hg r, t = plug c (T l a k v hg r)
    ∧ pre = ctx_before c ++ items l ∧ post = items r ++ ctx_after c.
Proof.
  intros Hnd Heq.
  assert (a ∈ addrs t) as Hin.
  { unfold addrs. rewrite Heq, fmap_app. apply elem_of_app. right. by left. }
  unfold addrs in Hnd. rewrite Heq in Hnd.
  destruct (locate _ _ Hin) as (c & l & k' & v' & hg & r & ->).
  rewrite items_plug in Heq. simpl in Heq. rewrite <- !app_assoc, app_assoc in Heq.
  simpl in Heq. symmetry in Heq.
  destruct (split_unique (λ x, x.1.1) _ _ _ _ _ _ Hnd Heq eq_refl)
    as (-> & [= <- <-] & ->).
  by exists c, l, hg, r.
Qed.

Lemma iterate_forward_spec h t n pre post :
  rep h None t → NoDup (addrs t) → items t = pre ++ post →
  (length post ≤ n)%nat →
  iterate_forward n h (head ((λ x, x.1.1) <$> post))
  = Some ((λ x, x.1.2) <$> post).
Proof.
  intros Hrep Hnd. revert n pre.
  induction post as [|[[a k] v] post IH]; intros n pre Heq Hn.
  - by destruct n.
  - destruct n as [|n]; simpl in Hn; [lia|]. simpl.
    destruct (position _ _ _ _ _ _ Hnd Heq) as (c & l & hg & r & -> & -> & ->).
    destruct (rep_item h None _ a k v Hrep) as (nd & Hnd' & Hk & _).
    { rewrite Heq. apply elem_of_app. right. by left. }
    rewrite Hnd'. simpl.
    rewrite (increment_spec (fuel_of h) h c l a k v hg r); [|done|done|].
    2:{ pose proof (rep_count_le _ _ _ Hrep Hnd). unfold fuel_of. lia. }
    simpl. rewrite (IH n ((ctx_before c ++ items l) ++ [(a, k, v)])).
    + simpl. by rewrite Hk.
    + by rewrite <- app_assoc.
    + lia.
Qed.

Lemma iterate_backward_spec h t n pre post :
  rep h None t → NoDup (addrs t) → items t = pre ++ post →
  (length pre ≤ n)%nat →
  iterate_backward n h (list_last ((λ x, x.1.1) <$> pre))
  = Some ((λ x, x.1.2) <$> reverse pre).
Proof.
  intros Hrep Hnd. revert n post.
  induction pre as [|[[a k] v] pre IH] using rev_ind; intros n post Heq Hn.
  - by destruct n.
  - rewrite length_app in Hn. simpl in Hn. destruct n as [|n]; [lia|].
    rewrite fmap_app, reverse_app. simpl. rewrite last_snoc. simpl.
    rewrite <- app_assoc in Heq. simpl in Heq.
    destruct (position _ _ _ _ _ _ Hnd Heq) as (c & l & hg & r & -> & -> & ->).
    destruct (rep_item h None _ a k v Hrep) as (nd & Hnd' & Hk & _).
    { rewrite Heq. apply elem_of_app. right. by left. }
    rewrite Hnd'. simpl.
    rewrite (decrement_spec (fuel_of h) h c l a k v hg r); [|done|done|].
    2:{ pose proof (rep_count_le _ _ _ Hrep Hnd). unfold fuel_of. lia. }
    simpl. rewrite (IH n ((a, k, v) :: items r ++ ctx_after c)).
    + simpl. by rewrite Hk.
    + done.
    + lia.
Qed.

Lemma keys_forward_spec h m t :
  Shape h m t → keys_forward h m = Some (keys t).
Proof.
  intros HS. pose proof (Shape_fuel _ _ _ HS) as Hf.
  destruct HS as [Hrep Hroot Hnd _]. unfold keys_forward, begin. rewrite Hroot.
  destruct (root t) as [a|] eqn:Hr.
  - rewrite (first_spec _ h None t a) by done.
    destruct (head_addrs_root _ _ Hr) as [b Hb]. rewrite Hb.
    change (iterate_forward (fuel_of h) h (Some b) = Some (keys t)).
    rewrite <- Hb. unfold addrs.
    apply (iterate_forward_spec h t _ []); [done|done|done|].
    fold (count t). unfold fuel_of in *. lia.
  - apply root_None in Hr as ->. done.
Qed.

Lemma keys_backward_spec h m t :
  Shape h m t → keys_backward h m = Some (reverse (keys t)).
Proof.
  intros HS. pose proof (Shape_fuel _ _ _ HS) as Hf.
  destruct HS as [Hrep Hroot Hnd _]. unfold keys_backward. rewrite Hroot.
  destruct (root t) as [a|] eqn:Hr.
  - rewrite (last_spec _ h None t a) by done.
    destruct (last_addrs_root _ _ Hr) as [b Hb]. rewrite Hb.
    change (iterate_backward (fuel_of h) h (Some b) = Some (reverse (keys t))).
    rewrite <- Hb. unfold addrs, keys. rewrite <- fmap_reverse.
    apply (iterate_backward_spec h t _ _ []); [done|done|by rewrite app_nil_r|].
    fold (count t). unfold fuel_of in *. lia.
  - apply root_None in Hr as ->. done.
Qed.

(** ** Insertion *)

Lemma keys_Leaf : keys Leaf = [].
Proof. done. Qed.

Lemma addrs_Leaf : addrs Leaf = [].
Proof. done. Qed.

Lemma items_ins anew d k v t :
  k ∉ keys t → items (ins anew d k v t) ≡ₚ (anew, k, v) :: items t.
Proof.
  revert d. induction t as [|l IHl a k' v' hg r IHr]; intros d Hk; simpl; [done|].
  rewrite keys_T in Hk. apply not_elem_of_app in Hk as [Hl Hr].
  apply not_elem_of_cons in Hr as [Hne Hr].
  destruct (decide (k < k')); [|destruct (decide (k > k')); [|lia]]; simpl.
  - by rewrite (IHl _ Hl).
  - rewrite (IHr _ Hr). rewrite <- !Permutation_middle. apply Permutation_swap.
Qed.

Lemma addrs_ins anew d k v t :
  k ∉ keys t → addrs (ins anew d k v t) ≡ₚ anew :: addrs t.
Proof. intros Hk. unfold addrs. by rewrite (items_ins _ _ _ _ _ Hk). Qed.

Lemma keys_ins anew d k v t :
  k ∉ keys t → keys (ins anew d k v t) ≡ₚ k :: keys t.
Proof. intros Hk. unfold keys. by rewrite (items_ins _ _ _ _ _ Hk). Qed.

Lemma bst_ins anew d k v t : bst t → k ∉ keys t → bst (ins anew d k v t).
Proof.
  revert d. induction t as [|l IHl a k' v' hg r IHr]; intros d Hb Hk; simpl.
  - apply bst_T. unfold bst. rewrite keys_Leaf. repeat constructor.
  - pose proof Hk as Hk'. rewrite keys_T in Hk'.
    apply not_elem_of_app in Hk' as [Hl Hr].
    apply not_elem_of_cons in Hr as [Hne Hr].
    apply bst_T in Hb as (Hbl & Hbr & Hlk & Hkr).
    destruct (decide (k < k')); [|destruct (decide (k > k')); [|lia]];
      apply bst_T; split_and!; auto.
    + rewrite (keys_ins _ _ _ _ _ Hl). by constructor.
    + rewrite (keys_ins _ _ _ _ _ Hr). constructor; [lia|done].
Qed.

Lemma depth_ok_ins anew d0 d k v t :
  depth_ok d0 t → (t = Leaf → d = d0) → depth_ok d0 (ins anew d k v t).
Proof.
  revert d0 d. induction t as [|l IHl a k' v' hg r IHr]; intros d0 d Hd Hl; simpl.
  - rewrite Hl by done. done.
  - destruct Hd as (-> & Hdl & Hdr).
    destruct (decide (k < k')); [|destruct (decide (k > k'))]; simpl; split_and!; auto.
Qed.

Lemma root_ins_T anew d k v l a k' v' hg r :
  root (ins anew d k v (T l a k' v' hg r)) = Some a.
Proof. simpl. by repeat case_decide. Qed.

Lemma InsertItem_spec fuel h m t par pp d k v nodes :
  rep h par t → NoDup (addrs t) → (count t < fuel)%nat → k ∉ keys t →
  (t = Leaf → pp = par ∧ child_height h par = Some d) →
  ∃ h',
    InsertItem fuel h m (root t) pp k v nodes
    = Some (root (ins (new_addr h) d k v t), h',
            mkMap (match mRoot m with None => Some (new_addr h) | Some r => Some r end)
                  (wrap32 (size_ m + 1)),
            ins_path k t ++ nodes)
    ∧ rep h' par (ins (new_addr h) d k v t)
    ∧ (∀ b, b ∉ addrs t → b ≠ new_addr h → h' !! b = h !! b).
Proof.
  revert fuel par pp d nodes.
  induction t as [|l IHl a k' v' hg r IHr]; intros fuel par pp d nodes Hrep Hnd Hf Hk Hleaf;
    (destruct fuel as [|fuel]; [lia|]).
  - destruct (Hleaf eq_refl) as [-> Hd]. simpl.
    unfold child_height in Hd. rewrite Hd. simpl.
    eexists. split; [|split].
    + f_equal. f_equal. f_equal. unfold set_mRoot. simpl. by destruct (mRoot m).
    + simpl. by rewrite lookup_insert_eq.
    + intros b _ Hb. by rewrite lookup_insert_ne.
  - destruct Hrep as (Ha & Hl & Hr). rewrite count_T in Hf.
    rewrite addrs_T in Hnd. apply NoDup_app in Hnd as (Hndl & Hdisj & Hnd).
    apply NoDup_cons in Hnd as (Har & Hndr).
    rewrite keys_T in Hk. apply not_elem_of_app in Hk as [Hkl Hkr].
    apply not_elem_of_cons in Hkr as [Hne Hkr].
    assert (a ≠ new_addr h) as Hafresh.
    { intros E. rewrite E, new_addr_fresh in Ha. done. }
    assert (child_height h (Some a) = Some (hg + 1)) as Hch.
    { simpl. by rewrite Ha. }
    simpl. rewrite Ha. simpl.
    destruct (decide (k < k')); [|destruct (decide (k > k')); [|lia]].
    + destruct (IHl fuel (Some a) (Some a) (hg + 1) (a :: nodes)) as (h1 & -> & Hrep1 & Hfr);
        [done|done|lia|done|done|].
      simpl. unfold wr.
      rewrite Hfr, Ha; [|intros Hin; apply (Hdisj a Hin); by left|done].
      simpl. eexists. split; [|split].
      * by rewrite <- app_assoc.
      * simpl. rewrite lookup_insert_eq. split_and!; [done| |].
        -- eapply rep_frame; [done|]. intros b Hb. apply lookup_insert_ne.
           intros <-. rewrite (addrs_ins _ _ _ _ _ Hkl) in Hb.
           apply elem_of_cons in Hb as [?|Hb]; [done|].
           apply (Hdisj a Hb). by left.
        -- eapply rep_frame; [done|]. intros b Hb.
           rewrite lookup_insert_ne by (by intros ->). apply Hfr.
           ++ intros Hin. apply (Hdisj b Hin). by right.
           ++ intros ->. by apply (rep_new_addr _ _ _ Hr).
      * intros b Hb Hbn. rewrite addrs_T in Hb.
        apply not_elem_of_app in Hb as [Hbl Hb].
        apply not_elem_of_cons in Hb as [Hba Hbr].
        rewrite lookup_insert_ne by done. by apply Hfr.
    + destruct (IHr fuel (Some a) (Some a) (hg + 1) (a :: nodes)) as (h1 & -> & Hrep1 & Hfr);
        [done|done|lia|done|done|].
      simpl. unfold wr.
      rewrite Hfr, Ha; [|done|done].
      simpl. eexists. split; [|split].
      * by rewrite <- app_assoc.
      * simpl. rewrite lookup_insert_eq. split_and!; [done| |].
        -- eapply rep_frame; [done|]. intros b Hb.
           rewrite lookup_insert_ne.
           2:{ intros ->. apply (Hdisj b Hb). by left. }
           apply Hfr.
           ++ intros Hin. apply (Hdisj b Hb). by right.
           ++ intros ->. by apply (rep_new_addr _ _ _ Hl).
        -- eapply rep_frame; [done|]. intros b Hb. apply lookup_insert_ne.
           intros <-. rewrite (addrs_ins _ _ _ _ _ Hkr) in Hb.
           apply elem_of_cons in Hb as [?|Hb]; done.
      * intros b Hb Hbn. rewrite addrs_T in Hb.
        apply not_elem_of_app in Hb as [Hbl Hb].
        apply not_elem_of_cons in Hb as [Hba Hbr].
        rewrite lookup_insert_ne by done. by apply Hfr.
Qed.

(** ** Height refresh after a rotation *)

Lemma items_redepth d t : items (redepth d t) = items t.
Proof.
  revert d. induction t as [|l IHl a k v hg r IHr]; intros d; simpl; [done|].
  by rewrite IHl, IHr.
Qed.

Lemma addrs_redepth d t : addrs (redepth d t) = addrs t.
Proof. unfold addrs. by rewrite items_redepth. Qed.

Lemma root_redepth d t : root (redepth d t) = root t.
Proof. by destruct t. Qed.

Lemma count_redepth d t : count (redepth d t) = count t.
Proof. unfold count. by rewrite items_redepth. Qed.

Lemma depth_ok_redepth d t : depth_ok d (redepth d t).
Proof.
  revert d. induction t as [|l IHl a k v hg r IHr]; intros d; simpl; auto.
Qed.

Lemma theight_redepth d t : theight (redepth d t) = theight t.
Proof.
  revert d. induction t as [|l IHl a k v hg r IHr]; intros d; simpl; [done|].
  by rewrite IHl, IHr.
Qed.

Lemma UpdateSubtreeHeights_spec fuel h par d t :
  rep h par t → NoDup (addrs t) → (count t < fuel)%nat →
  child_height h par = Some d →
  (∀ p, par = Some p → p ∉ addrs t) →
  ∃ h', UpdateSubtreeHeights fuel h (root t) = Some h'
    ∧ rep h' par (redepth d t)
    ∧ (∀ b, b ∉ addrs t → h' !! b = h !! b).
Proof.
  revert fuel h par d.
  induction t as [|l IHl a k v hg r IHr]; intros fuel h par d Hrep Hnd Hf Hd Hpar;
    (destruct fuel as [|fuel]; [lia|]); simpl.
  - by exists h.
  - destruct Hrep as (Ha & Hl & Hr). rewrite count_T in Hf.
    rewrite addrs_T in Hnd. apply NoDup_app in Hnd as (Hndl & Hdisj & Hnd).
    apply NoDup_cons in Hnd as (Har & Hndr).
    assert (a ∉ addrs l) as Hal.
    { intros Hin. apply (Hdisj a Hin). by left. }
    rewrite Ha. simpl.
    assert (match par with
            | Some p => h !! p ≫= λ np, Some (height np + 1)
            | None => Some 0
            end = Some d) as -> by done.
    simpl. unfold set_height. simpl.
    set (h1 := <[a := mkNode k v d 0 par (root l) (root r)]> h).
    assert (h1 !! a = Some (mkNode k v d 0 par (root l) (root r))) as Ha1
      by apply lookup_insert_eq.
    destruct (IHl fuel h1 (Some a) (d + 1)) as (h2 & -> & Hrep2 & Hfr2).
    { eapply rep_frame; [done|]. intros b Hb. apply lookup_insert_ne. by intros <-. }
    { done. } { lia. } { simpl. by rewrite Ha1. } { by intros p [= <-]. }
    simpl.
    destruct (IHr fuel h2 (Some a) (d + 1)) as (h3 & -> & Hrep3 & Hfr3).
    { eapply rep_frame; [done|]. intros b Hb. rewrite Hfr2.
      - apply lookup_insert_ne. by intros <-.
      - intros Hin. apply (Hdisj b Hin). by right. }
    { done. } { lia. } { simpl. by rewrite Hfr2, Ha1. } { by intros p [= <-]. }
    exists h3. split; [done|]. split.
    + simpl. split_and!; [by rewrite !root_redepth, Hfr3, Hfr2 by done| |done].
      eapply rep_frame; [done|]. intros b Hb. apply Hfr3.
      rewrite addrs_redepth in Hb. intros Hin. apply (Hdisj b Hb). by right.
    + intros b Hb. rewrite addrs_T in Hb.
      apply not_elem_of_app in Hb as [Hbl Hb].
      apply not_elem_of_cons in Hb as [Hba Hbr].
      rewrite Hfr3, Hfr2 by done. by apply lookup_insert_ne.
Qed.

(** ** Re-linking a subtree under its parent *)

Lemma perm_frame_l {A} (B R C : list A) a :
  B ++ a :: R ++ C ≡ₚ a :: R ++ B ++ C.
Proof.
  rewrite <- Permutation_middle. constructor.
  rewrite !app_assoc. apply Permutation_app_tail, Permutation_app_comm.
Qed.

Lemma perm_frame_r {A} (B L C : list A) a :
  B ++ (L ++ [a]) ++ C ≡ₚ a :: L ++ B ++ C.
Proof.
  rewrite <- (app_assoc L). simpl. rewrite app_assoc, <- Permutation_middle.
  constructor. rewrite !app_assoc.
  apply Permutation_app_tail, Permutation_app_comm.
Qed.

Lemma ctx_addrs_cons f c :
  ctx_addrs (f :: c) ≡ₚ
    frame_addr f :: (match f with FL _ _ _ _ r => addrs r | FR l _ _ _ _ => addrs l end)
      ++ ctx_addrs c.
Proof.
  unfold ctx_addrs, addrs. destruct f as [a k v hg r|l a k v hg]; simpl.
  - rewrite app_nil_r, !fmap_app. simpl. rewrite fmap_app. apply perm_frame_l.
  - rewrite !fmap_app. simpl. rewrite <- (app_assoc (_ <$> ctx_before c)).
    apply (perm_frame_r _ _ _ a).
Qed.

Lemma addrs_plug_perm c t : addrs (plug c t) ≡ₚ addrs t ++ ctx_addrs c.
Proof.
  rewrite addrs_plug. unfold ctx_addrs. rewrite fmap_app.
  rewrite app_assoc, (Permutation_app_comm _ (addrs t)), <- app_assoc. done.
Qed.

Lemma rep_ctx_frame h h' c hole :
  rep_ctx h c hole → (∀ a, a ∈ ctx_addrs c → h' !! a = h !! a) → rep_ctx h' c hole.
Proof.
  revert hole. induction c as [|f c IH]; intros hole; simpl; [done|].
  intros Hc Hag.
  assert (∀ a, a ∈ ctx_addrs c → h' !! a = h !! a) as Hag'.
  { intros a Ha. apply Hag. rewrite ctx_addrs_cons. right.
    apply elem_of_app. by right. }
  destruct f as [a k v hg r|l a k v hg]; destruct Hc as (Ha & Hs & Hc); split_and!.
  - rewrite Hag; [done|]. rewrite ctx_addrs_cons. by left.
  - eapply rep_frame; [done|]. intros b Hb. apply Hag. rewrite ctx_addrs_cons.
    right. apply elem_of_app. by left.
  - by apply IH.
  - rewrite Hag; [done|]. rewrite ctx_addrs_cons. by left.
  - eapply rep_frame; [done|]. intros b Hb. apply Hag. rewrite ctx_addrs_cons.
    right. apply elem_of_app. by left.
  - by apply IH.
Qed.

Lemma rep_ctx_relink h c hole hole' :
  rep_ctx h c hole → NoDup (ctx_addrs c) → rep_ctx (relink h c hole') c hole'.
Proof.
  destruct c as [|f c]; [done|]. intros Hc Hnd.
  rewrite ctx_addrs_cons in Hnd. apply NoDup_cons in Hnd as [Hnin Hnd].
  apply not_elem_of_app in Hnin as [Hs Hnin].
  destruct f as [a k v hg r|l a k v hg]; destruct Hc as (Ha & Hr & Hc); simpl;
    (split_and!; [apply lookup_insert_eq| |]).
  - eapply rep_frame; [done|]. intros b Hb. apply lookup_insert_ne. by intros <-.
  - eapply rep_ctx_frame; [done|]. intros b Hb. apply lookup_insert_ne. by intros <-.
  - eapply rep_frame; [done|]. intros b Hb. apply lookup_insert_ne. by intros <-.
  - eapply rep_ctx_frame; [done|]. intros b Hb. apply lookup_insert_ne. by intros <-.
Qed.

Lemma relink_lookup_ne h c hole b :
  b ∉ ctx_addrs c → relink h c hole !! b = h !! b.
Proof.
  destruct c as [|f c]; [done|]. rewrite ctx_addrs_cons. intros Hb.
  apply not_elem_of_cons in Hb as [Hb _].
  destruct f; simpl in *; by apply lookup_insert_ne.
Qed.

(** The statement [if (node == parent->left) parent->left = x; else
    parent->right = x;] is [relink]. *)
Lemma relink_code h f c y s hole' :
  rep_ctx h (f :: c) (Some y) → root s = Some y →
  NoDup (addrs (plug (f :: c) s)) →
  ∃ nnp, h !! frame_addr f = Some nnp
    ∧ (if decide (Some y = left nnp)
       then wr h (frame_addr f) (set_left hole')
       else wr h (frame_addr f) (set_right hole'))
      = Some (relink h (f :: c) hole').
Proof.
  intros Hc Hroot Hnd.
  destruct f as [a k v hg r|l a k v hg]; destruct Hc as (Ha & Hr & Hc); simpl;
    eexists; (split; [done|]); simpl.
  - rewrite decide_True by done. unfold wr. by rewrite Ha.
  - rewrite decide_False.
    { unfold wr. by rewrite Ha. }
    intros Hl. simpl in Hnd. apply NoDup_plug_inner in Hnd. rewrite addrs_T in Hnd.
    apply NoDup_app in Hnd as (_ & Hnd & _).
    apply (Hnd y); [by apply root_addrs|]. right. by apply root_addrs.
Qed.

(** *** Distinct addresses from [NoDup] *)

Lemma nodup_ne_l {A} (l1 l2 : list A) a b :
  NoDup (l1 ++ l2) → a ∈ l1 → b ∈ l2 → a ≠ b.
Proof. intros H Ha Hb ->. apply NoDup_app in H as (_ & H & _). by apply (H b). Qed.

Lemma nodup_ne_r {A} (l1 l2 : list A) a b :
  NoDup (l1 ++ l2) → b ∈ l1 → a ∈ l2 → a ≠ b.
Proof. intros H Ha Hb ->. apply NoDup_app in H as (_ & H & _). by apply (H b). Qed.

Lemma nodup_app_1 {A} (l1 l2 : list A) : NoDup (l1 ++ l2) → NoDup l1.
Proof. intros H. by apply NoDup_app in H as (? & _ & _). Qed.

Lemma nodup_app_2 {A} (l1 l2 : list A) : NoDup (l1 ++ l2) → NoDup l2.
Proof. intros H. by apply NoDup_app in H as (_ & _ & ?). Qed.

Lemma nodup_cons_ne_l {A} (l : list A) x b : NoDup (x :: l) → b ∈ l → x ≠ b.
Proof. intros H Hb ->. by apply NoDup_cons in H as (? & _). Qed.

Lemma nodup_cons_ne_r {A} (l : list A) x b : NoDup (x :: l) → b ∈ l → b ≠ x.
Proof. intros H Hb ->. by apply NoDup_cons in H as (? & _). Qed.

Lemma nodup_cons_2 {A} (l : list A) x : NoDup (x :: l) → NoDup l.
Proof. intros H. by apply NoDup_cons in H as (_ & ?). Qed.

(** Membership in a list built from appends and conses. *)
Ltac in_list :=
  first
    [ assumption
    | apply list_elem_of_here
    | apply root_addrs; assumption
    | apply list_elem_of_further; in_list
    | apply elem_of_app; first [ left; in_list | right; in_list ] ].

(** [a ≠ b] for two addresses at different places of a duplicate-free
    list. *)
Ltac nd_ne H :=
  lazymatch type of H with
  | NoDup (?l1 ++ ?l2) =>
      first
        [ apply (nodup_ne_l l1 l2 _ _ H); in_list
        | apply (nodup_ne_r l1 l2 _ _ H); in_list
        | let H1 := constr:(nodup_app_1 l1 l2 H) in nd_ne H1
        | let H2 := constr:(nodup_app_2 l1 l2 H) in nd_ne H2 ]
  | NoDup (?x :: ?l) =>
      first
        [ apply (nodup_cons_ne_l l x _ H); in_list
        | apply (nodup_cons_ne_r l x _ H); in_list
        | let H2 := constr:(nodup_cons_2 l x H) in nd_ne H2 ]
  end.

(** [a ∉ l] likewise, for [a] known to sit elsewhere. *)
Ltac nd_notin H :=
  let Hin := fresh "Hin" in
  intros Hin;
  match type of Hin with
  | ?a ∈ _ => cut (a ≠ a); [congruence|]; nd_ne H
  end.

Lemma rep_reparent h H par par' t :
  rep h par t → NoDup (addrs t) →
  (∀ c, root t = Some c → H !! c = set_parent par' <$> h !! c) →
  (∀ b, b ∈ addrs t → root t ≠ Some b → H !! b = h !! b) →
  rep H par' t.
Proof.
  destruct t as [|l c k v hg r]; [done|]. intros (Hc & Hl & Hr) Hnd Hroot Hfr.
  cbn [rep root] in *. rewrite addrs_T in Hnd. split_and!.
  - rewrite (Hroot c eq_refl), Hc. done.
  - eapply rep_frame; [done|]. intros b Hb. apply Hfr.
    + rewrite addrs_T. in_list.
    + intros [= ->]. revert Hb. nd_notin Hnd.
  - eapply rep_frame; [done|]. intros b Hb. apply Hfr.
    + rewrite addrs_T. in_list.
    + intros [= ->]. revert Hb. nd_notin Hnd.
Qed.

(** The links a right rotation at [y] leaves below the slot [par]. *)
Lemma rot_right_mid h H par0 par ll x kx vx hx lr y ky vy hy r :
  rep h par0 (T (T ll x kx vx hx lr) y ky vy hy r) →
  NoDup (addrs (T (T ll x kx vx hx lr) y ky vy hy r)) →
  H !! x = Some (mkNode kx vx hx 0 par (root ll) (Some y)) →
  H !! y = Some (mkNode ky vy hy 0 (Some x) (root lr) (root r)) →
  (∀ c, root lr = Some c → H !! c = set_parent (Some y) <$> h !! c) →
  (∀ b, b ∈ addrs (T (T ll x kx vx hx lr) y ky vy hy r) →
        b ≠ x → b ≠ y → root lr ≠ Some b → H !! b = h !! b) →
  rep H par (T ll x kx vx hx (T lr y ky vy hy r)).
Proof.
  intros (Hy & (Hx & Hll & Hlr) & Hr) Hnd HX HY Hc Hfr.
  rewrite !addrs_T in Hnd, Hfr. cbn [rep]. split_and!; try done.
  - eapply rep_frame; [done|]. intros b Hb.
    apply Hfr; [in_list|nd_ne Hnd|nd_ne Hnd|].
    intros Hrt. revert Hb. nd_notin Hnd.
  - eapply rep_reparent; [done| |done|].
    + apply nodup_app_1, nodup_app_2, nodup_cons_2 in Hnd. done.
    + intros b Hb Hrt. apply Hfr; [in_list|nd_ne Hnd|nd_ne Hnd|done].
  - eapply rep_frame; [done|]. intros b Hb.
    apply Hfr; [in_list|nd_ne Hnd|nd_ne Hnd|].
    intros Hrt. revert Hb. nd_notin Hnd.
Qed.

(** The links a left rotation at [y] leaves below the slot [par]. *)
Lemma rot_left_mid h H par0 par l y ky vy hy rl x kx vx hx rr :
  rep h par0 (T l y ky vy hy (T rl x kx vx hx rr)) →
  NoDup (addrs (T l y ky vy hy (T rl x kx vx hx rr))) →
  H !! x = Some (mkNode kx vx hx 0 par (Some y) (root rr)) →
  H !! y = Some (mkNode ky vy hy 0 (Some x) (root l) (root rl)) →
  (∀ c, root rl = Some c → H !! c = set_parent (Some y) <$> h !! c) →
  (∀ b, b ∈ addrs (T l y ky vy hy (T rl x kx vx hx rr)) →
        b ≠ x → b ≠ y → root rl ≠ Some b → H !! b = h !! b) →
  rep H par (T (T l y ky vy hy rl) x kx vx hx rr).
Proof.
  intros (Hy & Hl & (Hx & Hrl & Hrr)) Hnd HX HY Hc Hfr.
  rewrite !addrs_T in Hnd, Hfr. cbn [rep]. split_and!; try done.
  - eapply rep_frame; [done|]. intros b Hb.
    apply Hfr; [in_list|nd_ne Hnd|nd_ne Hnd|].
    intros Hrt. revert Hb. nd_notin Hnd.
  - eapply rep_reparent; [done| |done|].
    + apply nodup_app_2, nodup_cons_2, nodup_app_1 in Hnd. done.
    + intros b Hb Hrt. apply Hfr; [in_list|nd_ne Hnd|nd_ne Hnd|done].
  - eapply rep_frame; [done|]. intros b Hb.
    apply Hfr; [in_list|nd_ne Hnd|nd_ne Hnd|].
    intros Hrt. revert Hb. nd_notin Hnd.
Qed.

Lemma rep_ctx_child_height h c hole :
  rep_ctx h c hole → child_height h (ctx_parent c) = Some (ctx_depth c).
Proof.
  destruct c as [|[a k v hg r|l a k v hg] c]; simpl; [done| |];
    intros (Ha & _ & _); by rewrite Ha.
Qed.

Lemma ctx_parent_addrs c p : ctx_parent c = Some p → p ∈ ctx_addrs c.
Proof.
  destruct c as [|f c]; [done|]. simpl. intros [= <-].
  rewrite ctx_addrs_cons. by left.
Qed.

(** After the links of a rotated subtree [s'] are in place, the height
    refresh completes the rotation. *)
Lemma rot_finish fuel H c s' :
  rep H (ctx_parent c) s' → rep_ctx H c (root s') →
  NoDup (addrs s' ++ ctx_addrs c) → (count s' < fuel)%nat →
  ∃ h', UpdateSubtreeHeights fuel H (root s') = Some h'
    ∧ rep h' None (plug c (redepth (ctx_depth c) s'))
    ∧ (∀ b, b ∉ addrs s' → h' !! b = H !! b).
Proof.
  intros Hs Hc Hnd Hf.
  destruct (UpdateSubtreeHeights_spec fuel H (ctx_parent c) (ctx_depth c) s')
    as (h' & Hup & Hrep' & Hfr'); [done|by apply (nodup_app_1 _ _ Hnd)|done| | |].
  - by eapply rep_ctx_child_height.
  - intros p Hp. apply ctx_parent_addrs in Hp. nd_notin Hnd.
  - exists h'. split; [done|]. split; [|done].
    apply rep_plug. split; [done|]. rewrite root_redepth.
    eapply rep_ctx_frame; [done|]. intros b Hb. apply Hfr'.
    intros Hin. revert Hb. nd_notin Hnd.
Qed.

Lemma rep_root_lookup h par t c :
  rep h par t → root t = Some c → ∃ n, h !! c = Some n.
Proof. destruct t; [done|]. intros (Hc & _) [= <-]. by eexists. Qed.

Lemma ctx_root_cons_ne f c s y :
  NoDup (addrs s ++ ctx_addrs (f :: c)) → root s = Some y →
  Some y ≠ ctx_root (f :: c) (Some y).
Proof.
  intros Hnd Hr. unfold ctx_root.
  destruct (reverse (f :: c)) as [|g rc] eqn:Erev.
  { apply (f_equal length) in Erev. rewrite length_reverse in Erev. done. }
  intros [= E]. assert (g ∈ f :: c) as Hg.
  { apply elem_of_reverse. rewrite Erev. by left. }
  assert (frame_addr g ∈ ctx_addrs (f :: c)) as Hin.
  { clear -Hg. induction Hg as [g c'|g f' c' Hg IH].
    - rewrite ctx_addrs_cons. by left.
    - rewrite ctx_addrs_cons. right. apply elem_of_app. by right. }
  rewrite <- E in Hin. revert Hin. nd_notin Hnd.
Qed.

Lemma ctx_root_cons f c hole hole' :
  ctx_root (f :: c) hole = ctx_root (f :: c) hole'.
Proof.
  unfold ctx_root. destruct (reverse (f :: c)) eqn:Erev; [|done].
  apply (f_equal length) in Erev. rewrite length_reverse in Erev. done.
Qed.

Lemma set_mRoot_id m p : mRoot m = p → set_mRoot p m = m.
Proof. destruct m. simpl. by intros ->. Qed.

(** *** The pointer surgery of the four rotation functions *)

Ltac steps_done :=
  eexists; split; [done|]; split_and!;
  [ by simplify_map_eq ..
  | first [ done | intros ? [= <-]; by simplify_map_eq ]
  | intros; rewrite !lookup_insert_ne by congruence; done ].

Lemma RotateRootRight_steps fuel h m x y nx ny :
  mRoot m = Some y → h !! y = Some ny → left ny = Some x → h !! x = Some nx →
  x ≠ y →
  (∀ cc, right nx = Some cc → (cc ≠ x) ∧ (cc ≠ y) ∧ is_Some (h !! cc)) →
  ∃ H,
    RotateRootRight fuel h m
    = (h' ← UpdateSubtreeHeights fuel H (Some x); Some (h', set_mRoot (Some x) m))
    ∧ H !! x = Some (set_right (Some y) (set_parent None nx))
    ∧ H !! y = Some (set_left (right nx) (set_parent (Some x) ny))
    ∧ (∀ cc, right nx = Some cc → H !! cc = set_parent (Some y) <$> h !! cc)
    ∧ (∀ b, b ≠ x → b ≠ y → right nx ≠ Some b → H !! b = h !! b).
Proof.
  intros Hroot Hy Hl Hx Hxy Hcc. unfold RotateRootRight, wr.
  rewrite Hroot. simpl. rewrite Hy. simpl. rewrite Hl. simpl.
  destruct (right nx) as [cc|] eqn:Hr.
  - destruct (Hcc cc eq_refl) as (Hcx & Hcy & [ncc Hncc]).
    simplify_map_eq/=. steps_done.
  - simplify_map_eq/=. steps_done.
Qed.

Lemma RotateRootLeft_steps fuel h m x y nx ny :
  mRoot m = Some y → h !! y = Some ny → right ny = Some x → h !! x = Some nx →
  x ≠ y →
  (∀ cc, left nx = Some cc → (cc ≠ x) ∧ (cc ≠ y) ∧ is_Some (h !! cc)) →
  ∃ H,
    RotateRootLeft fuel h m
    = (h' ← UpdateSubtreeHeights fuel H (Some x); Some (h', set_mRoot (Some x) m))
    ∧ H !! x = Some (set_left (Some y) (set_parent None nx))
    ∧ H !! y = Some (set_right (left nx) (set_parent (Some x) ny))
    ∧ (∀ cc, left nx = Some cc → H !! cc = set_parent (Some y) <$> h !! cc)
    ∧ (∀ b, b ≠ x → b ≠ y → left nx ≠ Some b → H !! b = h !! b).
Proof.
  intros Hroot Hy Hl Hx Hxy Hcc. unfold RotateRootLeft, wr.
  rewrite Hroot. simpl. rewrite Hy. simpl. rewrite Hl. simpl.
  destruct (left nx) as [cc|] eqn:Hr.
  - destruct (Hcc cc eq_refl) as (Hcx & Hcy & [ncc Hncc]).
    simplify_map_eq/=. steps_done.
  - simplify_map_eq/=. steps_done.
Qed.

Lemma RotateRight_steps fuel h m p x y np nx ny :
  Some y ≠ mRoot m → h !! y = Some ny → parent ny = Some p → h !! p = Some np →
  left ny = Some x → h !! x = Some nx →
  x ≠ y → p ≠ x → p ≠ y →
  (∀ cc, right nx = Some cc → (cc ≠ x) ∧ (cc ≠ y) ∧ (cc ≠ p) ∧ is_Some (h !! cc)) →
  ∃ H,
    RotateRight fuel h m (Some y)
    = (h' ← UpdateSubtreeHeights fuel H (Some x); Some (Some x, h', m))
    ∧ H !! p = Some (if decide (Some y = left np)
                     then set_left (Some x) np else set_right (Some x) np)
    ∧ H !! x = Some (set_right (Some y) (set_parent (Some p) nx))
    ∧ H !! y = Some (set_left (right nx) (set_parent (Some x) ny))
    ∧ (∀ cc, right nx = Some cc → H !! cc = set_parent (Some y) <$> h !! cc)
    ∧ (∀ b, b ≠ p → b ≠ x → b ≠ y → right nx ≠ Some b → H !! b = h !! b).
Proof.
  intros Hroot Hy Hp Hnp Hl Hx Hxy Hpx Hpy Hcc. unfold RotateRight, wr.
  rewrite decide_False by done. simpl. rewrite Hy. simpl. rewrite Hp. simpl.
  rewrite Hnp. simpl. rewrite Hl.
  destruct (right nx) as [cc|] eqn:Hr.
  - destruct (Hcc cc eq_refl) as (Hcx & Hcy & Hcp & [ncc Hncc]).
    destruct (decide (Some y = left np)); simplify_map_eq/=; steps_done.
  - destruct (decide (Some y = left np)); simplify_map_eq/=; steps_done.
Qed.

Lemma RotateLeft_steps fuel h m p x y np nx ny :
  Some y ≠ mRoot m → h !! y = Some ny → parent ny = Some p → h !! p = Some np →
  right ny = Some x → h !! x = Some nx →
  x ≠ y → p ≠ x → p ≠ y →
  (∀ cc, left nx = Some cc → (cc ≠ x) ∧ (cc ≠ y) ∧ (cc ≠ p) ∧ is_Some (h !! cc)) →
  ∃ H,
    RotateLeft fuel h m (Some y)
    = (h' ← UpdateSubtreeHeights fuel H (Some x); Some (Some x, h', m))
    ∧ H !! p = Some (if decide (Some y = left np)
                     then set_left (Some x) np else set_right (Some x) np)
    ∧ H !! x = Some (set_left (Some y) (set_parent (Some p) nx))
    ∧ H !! y = Some (set_right (left nx) (set_parent (Some x) ny))
    ∧ (∀ cc, left nx = Some cc → H !! cc = set_parent (Some y) <$> h !! cc)
    ∧ (∀ b, b ≠ p → b ≠ x → b ≠ y → left nx ≠ Some b → H !! b = h !! b).
Proof.
  intros Hroot Hy Hp Hnp Hl Hx Hxy Hpx Hpy Hcc. unfold RotateLeft, wr.
  rewrite decide_False by done. simpl. rewrite Hy. simpl. rewrite Hp. simpl.
  rewrite Hnp. simpl. rewrite Hl.
  destruct (left nx) as [cc|] eqn:Hr.
  - destruct (Hcc cc eq_refl) as (Hcx & Hcy & Hcp & [ncc Hncc]).
    destruct (decide (Some y = left np)); simplify_map_eq/=; steps_done.
  - destruct (decide (Some y = left np)); simplify_map_eq/=; steps_done.
Qed.

Lemma rep_root_node h par l a k v hg r :
  rep h par (T l a k v hg r) →
  h !! a = Some (mkNode k v hg 0 par (root l) (root r)).
Proof. by intros (? & _). Qed.

Lemma rot_right_items ll x kx vx hx lr y ky vy hy r :
  items (rot_right (T (T ll x kx vx hx lr) y ky vy hy r))
  = items (T (T ll x kx vx hx lr) y ky vy hy r).
Proof. simpl. by rewrite <- !app_assoc. Qed.

Lemma rot_left_items l y ky vy hy rl x kx vx hx rr :
  items (rot_left (T l y ky vy hy (T rl x kx vx hx rr)))
  = items (T l y ky vy hy (T rl x kx vx hx rr)).
Proof. simpl. by rewrite <- !app_assoc. Qed.

(** The parent frame after its link to the hole is redirected. *)
Lemma rep_ctx_redirect h H f c y s hole' :
  rep_ctx h (f :: c) (Some y) → root s = Some y →
  NoDup (addrs s ++ ctx_addrs (f :: c)) →
  ∀ np, h !! frame_addr f = Some np →
  H !! frame_addr f = Some (if decide (Some y = left np)
                           then set_left hole' np else set_right hole' np) →
  (∀ b, b ∈ ctx_addrs (f :: c) → b ≠ frame_addr f → H !! b = h !! b) →
  rep_ctx H (f :: c) hole'.
Proof.
  intros Hc Hroot Hnd np Hnp HH Hfr.
  eapply (rep_ctx_frame (relink h (f :: c) hole')).
  { eapply rep_ctx_relink; [done|]. by apply (nodup_app_2 _ _ Hnd). }
  intros b Hb. destruct (decide (b = frame_addr f)) as [->|Hne].
  - rewrite HH. destruct f as [a k v hg r|l a k v hg]; destruct Hc as (Ha & Hr & Hc);
      cbn [frame_addr] in *; rewrite Ha in Hnp; injection Hnp as <-; cbn [left relink].
    + rewrite decide_True by done. by rewrite lookup_insert_eq.
    + rewrite decide_False; [by rewrite lookup_insert_eq|].
      intros Hl. symmetry in Hl. apply root_addrs in Hl.
      rewrite ctx_addrs_cons in Hnd. cbn [frame_addr] in Hnd.
      apply root_addrs in Hroot. revert Hl. nd_notin Hnd.
  - rewrite Hfr by done. symmetry.
    destruct f; cbn [relink frame_addr] in *; by apply lookup_insert_ne.
Qed.

Lemma rep_ctx_parent_lookup h f c hole :
  rep_ctx h (f :: c) hole → is_Some (h !! frame_addr f).
Proof. destruct f; intros (Ha & _); by eexists. Qed.

Lemma RotateRight_spec fuel h m c ll x kx vx hx lr y ky vy hy r :
  let s := T (T ll x kx vx hx lr) y ky vy hy r in
  rep h None (plug c s) → mRoot m = root (plug c s) →
  NoDup (addrs (plug c s)) → (count (plug c s) < fuel)%nat →
  ∃ h' pn,
    RotateRight fuel h m (Some y)
    = Some (pn, h', set_mRoot (root (plug c (rot_right s))) m)
    ∧ rep h' None (plug c (redepth (ctx_depth c) (rot_right s)))
    ∧ (∀ b, b ∉ addrs (plug c s) → h' !! b = h !! b).
Proof.
  intros s Hrep Hroot Hnd Hf.
  apply rep_plug in Hrep as (Hs & Hc).
  pose proof Hs as (Hy & (Hx & Hll & Hlr) & Hr). cbn [root] in Hc, Hy.
  pose proof (count_plug_length c s) as Hlen.
  assert (count (rot_right s) = count s) as Hcnt.
  { unfold count. unfold s. by rewrite rot_right_items. }
  assert (addrs (rot_right s) = addrs s) as Haddrs.
  { unfold addrs. unfold s. by rewrite rot_right_items. }
  rewrite (addrs_plug_perm c s) in Hnd.
  assert (∀ b, b ∉ addrs (plug c s) → (b ∉ addrs s) ∧ (b ∉ ctx_addrs c)) as Hout.
  { intros b. rewrite (addrs_plug_perm c s). apply not_elem_of_app. }
  pose proof Hnd as Hnd1. unfold s in Hnd1. rewrite !addrs_T in Hnd1.
  assert (x ≠ y) as Hxy by nd_ne Hnd1.
  assert (∀ cc, root lr = Some cc →
            (cc ≠ x) ∧ (cc ≠ y) ∧ (cc ∉ ctx_addrs c) ∧ is_Some (h !! cc)) as Hcc.
  { intros cc Hrt. split_and!; [nd_ne Hnd1|nd_ne Hnd1| |].
    - nd_notin Hnd1.
    - apply (rep_root_lookup _ _ _ _ Hlr Hrt). }
  rewrite root_plug in Hroot. unfold s in Hroot. cbn [root] in Hroot.
  assert (∀ H par,
    H !! x = Some (mkNode kx vx hx 0 par (root ll) (Some y)) →
    H !! y = Some (mkNode ky vy hy 0 (Some x) (root lr) (root r)) →
    (∀ cc, root lr = Some cc → H !! cc = set_parent (Some y) <$> h !! cc) →
    (∀ b, b ≠ x → b ≠ y → root lr ≠ Some b → b ∉ ctx_addrs c → H !! b = h !! b) →
    rep H par (rot_right s)
    ∧ ∀ b, b ∉ addrs s → b ∉ ctx_addrs c → H !! b = h !! b) as Hmid.
  { intros H par HX HY HC HF. split.
    - eapply (rot_right_mid h); [exact Hs|by apply (nodup_app_1 _ _ Hnd)|done..|].
      intros b Hb ? ? ?. apply HF; [done..|]. nd_notin Hnd.
    - intros b Hb Hbc. unfold s in Hb. rewrite !addrs_T in Hb.
      apply HF; [| | |done].
      + intros ->. apply Hb. in_list.
      + intros ->. apply Hb. in_list.
      + intros Hrt. apply Hb. in_list. }
  destruct c as [|f c].
  - unfold RotateRight.
    rewrite ctx_root_nil in Hroot. rewrite Hroot, decide_True by done.
    destruct (RotateRootRight_steps fuel h m x y _ _ Hroot Hy eq_refl Hx Hxy)
      as (H & -> & HX & HY & HC & HF).
    { intros cc Hrt. destruct (Hcc cc Hrt) as (? & ? & ? & ?). done. }
    destruct (Hmid H None HX HY HC) as [Hrep1 Hfr1].
    { intros. by apply HF. }
    destruct (rot_finish fuel H [] (rot_right s)) as (h' & Hup & Hrep' & Hfr');
      [done|done|by rewrite Haddrs|lia|].
    cbn [root rot_right s] in Hup. rewrite Hup.
    exists h', (Some y). split; [done|]. split; [done|].
    intros b Hb. destruct (Hout b Hb). rewrite Hfr' by (by rewrite Haddrs).
    by apply Hfr1.
  - pose proof (ctx_root_cons_ne f c s y Hnd eq_refl) as Hne. rewrite <- Hroot in Hne.
    destruct (rep_ctx_parent_lookup _ _ _ _ Hc) as [np Hnp].
    assert (frame_addr f ∈ ctx_addrs (f :: c)) as Hpin.
    { rewrite ctx_addrs_cons. by left. }
    destruct (RotateRight_steps fuel h m (frame_addr f) x y _ _ _
                Hne Hy eq_refl Hnp eq_refl Hx Hxy)
      as (H & -> & HP & HX & HY & HC & HF).
    { nd_ne Hnd1. } { nd_ne Hnd1. }
    { intros cc Hrt. destruct (Hcc cc Hrt) as (? & ? & ? & ?). split_and!; try done.
      by intros ->. }
    destruct (Hmid H (Some (frame_addr f)) HX HY HC) as [Hrep1 Hfr1].
    { intros b ? ? ? Hb. apply HF; try done. by intros ->. }
    destruct (rot_finish fuel H (f :: c) (rot_right s)) as (h' & Hup & Hrep' & Hfr');
      [done| |by rewrite Haddrs|lia|].
    { eapply (rep_ctx_redirect h H f c y s (Some x)); [done|done|done|done|done|].
      intros b Hb Hbp. apply HF; [done|nd_ne Hnd1|nd_ne Hnd1|].
      intros Hrt. revert Hb. by destruct (Hcc b Hrt) as (? & ? & ? & ?). }
    cbn [root rot_right s] in Hup. rewrite Hup. cbn [mbind option_bind].
    exists h', (Some x). split.
    { rewrite !root_plug, (ctx_root_cons f c (root _) (Some y)), <- Hroot.
      by rewrite set_mRoot_id. }
    split; [done|].
    intros b Hb. destruct (Hout b Hb). rewrite Hfr' by (by rewrite Haddrs).
    by apply Hfr1.
Qed.

Lemma RotateLeft_spec fuel h m c l y ky vy hy rl x kx vx hx rr :
  let s := T l y ky vy hy (T rl x kx vx hx rr) in
  rep h None (plug c s) → mRoot m = root (plug c s) →
  NoDup (addrs (plug c s)) → (count (plug c s) < fuel)%nat →
  ∃ h' pn,
    RotateLeft fuel h m (Some y)
    = Some (pn, h', set_mRoot (root (plug c (rot_left s))) m)
    ∧ rep h' None (plug c (redepth (ctx_depth c) (rot_left s)))
    ∧ (∀ b, b ∉ addrs (plug c s) → h' !! b = h !! b).
Proof.
  intros s Hrep Hroot Hnd Hf.
  apply rep_plug in Hrep as (Hs & Hc).
  pose proof Hs as (Hy & Hl & (Hx & Hrl & Hrr)). cbn [root] in Hc, Hy.
  pose proof (count_plug_length c s) as Hlen.
  assert (count (rot_left s) = count s) as Hcnt.
  { unfold count. unfold s. by rewrite rot_left_items. }
  assert (addrs (rot_left s) = addrs s) as Haddrs.
  { unfold addrs. unfold s. by rewrite rot_left_items. }
  rewrite (addrs_plug_perm c s) in Hnd.
  assert (∀ b, b ∉ addrs (plug c s) → (b ∉ addrs s) ∧ (b ∉ ctx_addrs c)) as Hout.
  { intros b. rewrite (addrs_plug_perm c s). apply not_elem_of_app. }
  pose proof Hnd as Hnd1. unfold s in Hnd1. rewrite !addrs_T in Hnd1.
  assert (x ≠ y) as Hxy by nd_ne Hnd1.
  assert (∀ cc, root rl = Some cc →
            (cc ≠ x) ∧ (cc ≠ y) ∧ (cc ∉ ctx_addrs c) ∧ is_Some (h !! cc)) as Hcc.
  { intros cc Hrt. split_and!; [nd_ne Hnd1|nd_ne Hnd1| |].
    - nd_notin Hnd1.
    - apply (rep_root_lookup _ _ _ _ Hrl Hrt). }
  rewrite root_plug in Hroot. unfold s in Hroot. cbn [root] in Hroot.
  assert (∀ H par,
    H !! x = Some (mkNode kx vx hx 0 par (Some y) (root rr)) →
    H !! y = Some (mkNode ky vy hy 0 (Some x) (root l) (root rl)) →
    (∀ cc, root rl = Some cc → H !! cc = set_parent (Some y) <$> h !! cc) →
    (∀ b, b ≠ x → b ≠ y → root rl ≠ Some b → b ∉ ctx_addrs c → H !! b = h !! b) →
    rep H par (rot_left s)
    ∧ ∀ b, b ∉ addrs s → b ∉ ctx_addrs c → H !! b = h !! b) as Hmid.
  { intros H par HX HY HC HF. split.
    - eapply (rot_left_mid h); [exact Hs|by apply (nodup_app_1 _ _ Hnd)|done..|].
      intros b Hb ? ? ?. apply HF; [done..|]. nd_notin Hnd.
    - intros b Hb Hbc. unfold s in Hb. rewrite !addrs_T in Hb.
      apply HF; [| | |done].
      + intros ->. apply Hb. in_list.
      + intros ->. apply Hb. in_list.
      + intros Hrt. apply Hb. in_list. }
  destruct c as [|f c].
  - unfold RotateLeft.
    rewrite ctx_root_nil in Hroot. rewrite Hroot, decide_True by done.
    destruct (RotateRootLeft_steps fuel h m x y _ _ Hroot Hy eq_refl Hx Hxy)
      as (H & -> & HX & HY & HC & HF).
    { intros cc Hrt. destruct (Hcc cc Hrt) as (? & ? & ? & ?). done. }
    destruct (Hmid H None HX HY HC) as [Hrep1 Hfr1].
    { intros. by apply HF. }
    destruct (rot_finish fuel H [] (rot_left s)) as (h' & Hup & Hrep' & Hfr');
      [done|done|by rewrite Haddrs|lia|].
    cbn [root rot_left s] in Hup. rewrite Hup.
    exists h', (Some y). split; [done|]. split; [done|].
    intros b Hb. destruct (Hout b Hb). rewrite Hfr' by (by rewrite Haddrs).
    by apply Hfr1.
  - pose proof (ctx_root_cons_ne f c s y Hnd eq_refl) as Hne. rewrite <- Hroot in Hne.
    destruct (rep_ctx_parent_lookup _ _ _ _ Hc) as [np Hnp].
    assert (frame_addr f ∈ ctx_addrs (f :: c)) as Hpin.
    { rewrite ctx_addrs_cons. by left. }
    destruct (RotateLeft_steps fuel h m (frame_addr f) x y _ _ _
                Hne Hy eq_refl Hnp eq_refl Hx Hxy)
      as (H & -> & HP & HX & HY & HC & HF).
    { nd_ne Hnd1. } { nd_ne Hnd1. }
    { intros cc Hrt. destruct (Hcc cc Hrt) as (? & ? & ? & ?). split_and!; try done.
      by intros ->. }
    destruct (Hmid H (Some (frame_addr f)) HX HY HC) as [Hrep1 Hfr1].
    { intros b ? ? ? Hb. apply HF; try done. by intros ->. }
    destruct (rot_finish fuel H (f :: c) (rot_left s)) as (h' & Hup & Hrep' & Hfr');
      [done| |by rewrite Haddrs|lia|].
    { eapply (rep_ctx_redirect h H f c y s (Some x)); [done|done|done|done|done|].
      intros b Hb Hbp. apply HF; [done|nd_ne Hnd1|nd_ne Hnd1|].
      intros Hrt. revert Hb. by destruct (Hcc b Hrt) as (? & ? & ? & ?). }
    cbn [root rot_left s] in Hup. rewrite Hup. cbn [mbind option_bind].
    exists h', (Some x). split.
    { rewrite !root_plug, (ctx_root_cons f c (root _) (Some y)), <- Hroot.
      by rewrite set_mRoot_id. }
    split; [done|].
    intros b Hb. destruct (Hout b Hb). rewrite Hfr' by (by rewrite Haddrs).
    by apply Hfr1.
Qed.

(** ** One step of rebalancing *)

Lemma theight_ge t : -1 ≤ theight t.
Proof. induction t; simpl; lia. Qed.

Lemma theight_Leaf_inv t : theight t < 0 → t = Leaf.
Proof. destruct t as [|l ? ? ? ? r]; [done|]. simpl.
  pose proof (theight_ge l). pose proof (theight_ge r). lia. Qed.

Lemma items_rot_right t : items (rot_right t) = items t.
Proof.
  destruct t as [|[|ll x kx vx hx lr] y ky vy hy r]; try done.
  apply rot_right_items.
Qed.

Lemma items_rot_left t : items (rot_left t) = items t.
Proof.
  destruct t as [|l y ky vy hy [|rl x kx vx hx rr]]; try done.
  apply rot_left_items.
Qed.

Lemma items_balance_node d s : items (balance_node d s) = items s.
Proof.
  destruct s as [|l y ky vy hy r]; [done|]. unfold balance_node.
  repeat case_decide; try done.
  - destruct l as [|ll x kx vx hx lr]; [done|]. case_decide.
    + by rewrite items_redepth, items_rot_right.
    + rewrite items_redepth, items_rot_right. cbn [items].
      by rewrite items_redepth, items_rot_left.
  - destruct r as [|rl x kx vx hx rr]; [done|]. case_decide.
    + by rewrite items_redepth, items_rot_left.
    + rewrite items_redepth, items_rot_left. cbn [items].
      by rewrite items_redepth, items_rot_right.
Qed.

Lemma items_plug_eq c s s' : items s' = items s → items (plug c s') = items (plug c s).
Proof. intros E. by rewrite !items_plug, E. Qed.

Lemma Shape_items h m t h' m' t' :
  Shape h m t → items t' = items t → rep h' None t' → mRoot m' = root t' →
  Shape h' m' t'.
Proof.
  intros [_ _ Hnd Hb] E Hrep Hroot. split; [done|done| |].
  - unfold addrs. by rewrite E.
  - unfold bst, keys. by rewrite E.
Qed.

(** The rotation lemmas on a whole map. *)
Lemma RotateRight_Shape fuel h m c ll x kx vx hx lr y ky vy hy r :
  let s := T (T ll x kx vx hx lr) y ky vy hy r in
  Shape h m (plug c s) → (count (plug c s) < fuel)%nat →
  ∃ h' pn m',
    RotateRight fuel h m (Some y) = Some (pn, h', m')
    ∧ Shape h' m' (plug c (redepth (ctx_depth c) (rot_right s)))
    ∧ size_ m' = size_ m
    ∧ (∀ b, b ∉ addrs (plug c s) → h' !! b = h !! b).
Proof.
  intros s HS Hf. pose proof HS as [Hrep Hroot Hnd Hb].
  destruct (RotateRight_spec fuel h m c ll x kx vx hx lr y ky vy hy r Hrep Hroot Hnd Hf)
    as (h' & pn & Hrun & Hrep' & Hfr).
  eexists h', pn, _. split; [exact Hrun|]. split_and!; [|done|done].
  eapply Shape_items; [exact HS| |done|].
  - apply items_plug_eq. by rewrite items_redepth, items_rot_right.
  - cbn [mRoot set_mRoot]. by rewrite !root_plug, root_redepth.
Qed.

Lemma RotateLeft_Shape fuel h m c l y ky vy hy rl x kx vx hx rr :
  let s := T l y ky vy hy (T rl x kx vx hx rr) in
  Shape h m (plug c s) → (count (plug c s) < fuel)%nat →
  ∃ h' pn m',
    RotateLeft fuel h m (Some y) = Some (pn, h', m')
    ∧ Shape h' m' (plug c (redepth (ctx_depth c) (rot_left s)))
    ∧ size_ m' = size_ m
    ∧ (∀ b, b ∉ addrs (plug c s) → h' !! b = h !! b).
Proof.
  intros s HS Hf. pose proof HS as [Hrep Hroot Hnd Hb].
  destruct (RotateLeft_spec fuel h m c l y ky vy hy rl x kx vx hx rr Hrep Hroot Hnd Hf)
    as (h' & pn & Hrun & Hrep' & Hfr).
  eexists h', pn, _. split; [exact Hrun|]. split_and!; [|done|done].
  eapply Shape_items; [exact HS| |done|].
  - apply items_plug_eq. by rewrite items_redepth, items_rot_left.
  - cbn [mRoot set_mRoot]. by rewrite !root_plug, root_redepth.
Qed.

Lemma count_plug_le c t : (count t ≤ count (plug c t))%nat.
Proof. pose proof (count_plug_length c t). lia. Qed.

Lemma BalanceNode_spec fuel h m c l y ky vy hy r :
  let s := T l y ky vy hy r in
  Shape h m (plug c s) → (count (plug c s) < fuel)%nat →
  ∃ h' m' log,
    BalanceNode fuel h m y
    = Some (h', m', log, bool_decide (¬ Z.abs (theight l - theight r) ≤ 1))
    ∧ Shape h' m' (plug c (balance_node (ctx_depth c) s))
    ∧ size_ m' = size_ m
    ∧ (∀ b, b ∉ addrs (plug c s) → h' !! b = h !! b).
Proof.
  intros s HS Hf. subst s. pose proof HS as [Hrep Hroot Hnd Hb].
  apply rep_plug in Hrep as ((Hy & Hl & Hr) & Hc).
  pose proof (count_plug_le c (T l y ky vy hy r)) as Hle. rewrite count_T in Hle.
  unfold BalanceNode, GetSubtreeBalance. rewrite Hy. cbn [mbind option_bind left right].
  rewrite (GetSubtreeHeight_spec fuel h (Some y) l) by (done || lia).
  rewrite (GetSubtreeHeight_spec fuel h (Some y) r) by (done || lia).
  cbn [mbind option_bind]. unfold balance_node.
  destruct (decide (Z.abs (theight l - theight r) ≤ 1)) as [Hbal|Hbal].
  { rewrite bool_decide_false by tauto. by eexists h, m, _. }
  rewrite bool_decide_true by done.
  destruct (decide (theight l - theight r > 1)) as [Hgt|Hgt].
  - destruct (decide (theight l - theight r < -1)) as [?|_]; [lia|].
    destruct l as [|ll x kx vx hx lr].
    { pose proof (theight_ge r). simpl in Hgt. lia. }
    pose proof Hl as (Hx & Hll & Hlr). rewrite count_T in Hle.
    cbn [root mbind option_bind]. rewrite Hx. cbn [mbind option_bind left right].
    rewrite (GetSubtreeHeight_spec fuel h (Some x) ll) by (done || lia).
    rewrite (GetSubtreeHeight_spec fuel h (Some x) lr) by (done || lia).
    cbn [mbind option_bind].
    destruct (decide (theight ll >= theight lr)) as [Hge|Hlt].
    + destruct (RotateRight_Shape fuel h m c ll x kx vx hx lr y ky vy hy r HS Hf)
        as (h' & pn & m' & -> & HS' & Hsz & Hfr).
      cbn [mbind option_bind]. by eexists h', m', _.
    + destruct lr as [|lrl z kz vz hz lrr].
      { pose proof (theight_ge ll). simpl in Hlt. lia. }
      destruct (RotateLeft_Shape fuel h m (FL y ky vy hy r :: c)
                  ll x kx vx hx lrl z kz vz hz lrr HS Hf)
        as (h1 & pn1 & m1 & -> & HS1 & Hsz1 & Hfr1).
      assert (items (plug c (T (redepth (hy + 1)
                (rot_left (T ll x kx vx hx (T lrl z kz vz hz lrr)))) y ky vy hy r))
              = items (plug c (T (T ll x kx vx hx (T lrl z kz vz hz lrr)) y ky vy hy r)))
        as Hit.
      { apply items_plug_eq. cbn [items]. by rewrite items_redepth, items_rot_left. }
      cbn [mbind option_bind plug fill ctx_depth frame_hg rot_left redepth] in *.
      match type of HS1 with
      | Shape _ _ (plug c (T (T ?LL z kz vz ?hz' ?LR) y ky vy hy r)) =>
          destruct (RotateRight_Shape fuel h1 m1 c LL z kz vz hz' LR y ky vy hy r HS1)
            as (h2 & pn2 & m2 & -> & HS2 & Hsz2 & Hfr2)
      end.
      { unfold count in *. by rewrite Hit. }
      cbn [mbind option_bind]. eexists h2, m2, _. split; [done|].
      split_and!; [done|congruence|].
      intros b Hnb. rewrite Hfr2, Hfr1; [done|done|].
      unfold addrs in *. by rewrite Hit.
  - assert (theight l - theight r < -1) as Hlt' by lia.
    destruct (decide (theight l - theight r < -1)) as [_|?]; [|lia].
    cbn [mbind option_bind].
    destruct r as [|rl x kx vx hx rr].
    { pose proof (theight_ge l). simpl in Hlt'. lia. }
    pose proof Hr as (Hx & Hrl & Hrr). rewrite count_T in Hle.
    cbn [root mbind option_bind]. rewrite Hx. cbn [mbind option_bind left right].
    rewrite (GetSubtreeHeight_spec fuel h (Some x) rr) by (done || lia).
    rewrite (GetSubtreeHeight_spec fuel h (Some x) rl) by (done || lia).
    cbn [mbind option_bind].
    destruct (decide (theight rr >= theight rl)) as [Hge|Hlt].
    + destruct (RotateLeft_Shape fuel h m c l y ky vy hy rl x kx vx hx rr HS Hf)
        as (h' & pn & m' & -> & HS' & Hsz & Hfr).
      cbn [mbind option_bind]. by eexists h', m', _.
    + destruct rl as [|rll z kz vz hz rlr].
      { pose proof (theight_ge rr). simpl in Hlt. lia. }
      destruct (RotateRight_Shape fuel h m (FR l y ky vy hy :: c)
                  rll z kz vz hz rlr x kx vx hx rr HS Hf)
        as (h1 & pn1 & m1 & -> & HS1 & Hsz1 & Hfr1).
      assert (items (plug c (T l y ky vy hy (redepth (hy + 1)
                (rot_right (T (T rll z kz vz hz rlr) x kx vx hx rr)))))
              = items (plug c (T l y ky vy hy (T (T rll z kz vz hz rlr) x kx vx hx rr))))
        as Hit.
      { apply items_plug_eq. cbn [items]. by rewrite items_redepth, items_rot_right. }
      cbn [mbind option_bind plug fill ctx_depth frame_hg rot_right redepth] in *.
      match type of HS1 with
      | Shape _ _ (plug c (T l y ky vy hy (T ?RL z kz vz ?hz' ?RR))) =>
          destruct (RotateLeft_Shape fuel h1 m1 c l y ky vy hy RL z kz vz hz' RR HS1)
            as (h2 & pn2 & m2 & -> & HS2 & Hsz2 & Hfr2)
      end.
      { unfold count in *. by rewrite Hit. }
      cbn [mbind option_bind]. eexists h2, m2, _. split; [done|].
      split_and!; [done|congruence|].
      intros b Hnb. rewrite Hfr2, Hfr1; [done|done|].
      unfold addrs in *. by rewrite Hit.
Qed.

(** ** Stored heights as depths across a rebalancing step *)

Lemma depth_ok_plug_inv c s : depth_ok 0 (plug c s) → depth_ok (ctx_depth c) s.
Proof.
  revert s. induction c as [|f c IH]; intros s; simpl; [done|].
  intros Hd. apply IH in Hd. destruct f; simpl in *; destruct Hd as (-> & ? & ?); done.
Qed.

Lemma depth_ok_plug_replace c s s' :
  depth_ok 0 (plug c s) → depth_ok (ctx_depth c) s' → depth_ok 0 (plug c s').
Proof.
  revert s s'. induction c as [|f c IH]; intros s s'; simpl; [done|].
  intros Hd Hs'. eapply IH; [exact Hd|].
  apply depth_ok_plug_inv in Hd.
  destruct f; simpl in *; destruct Hd as (-> & ? & ?); done.
Qed.

Lemma depth_ok_balance_node d s : depth_ok d s → depth_ok d (balance_node d s).
Proof.
  destruct s as [|l y ky vy hy r]; [done|]. intros Hd. unfold balance_node.
  repeat case_decide; try done.
  - destruct l; [done|]. case_decide; apply depth_ok_redepth.
  - destruct r; [done|]. case_decide; apply depth_ok_redepth.
Qed.

(** ** The rebalancing loop *)

Lemma BalanceTree_spec fuel nodes inserting h m t :
  Shape h m t → (count t < fuel)%nat → (∀ y, y ∈ nodes → y ∈ addrs t) →
  ∃ h' m' t' log,
    BalanceTree fuel nodes inserting h m = Some (h', m', log)
    ∧ Shape h' m' t'
    ∧ items t' = items t
    ∧ size_ m' = size_ m
    ∧ (depth_ok 0 t → depth_ok 0 t')
    ∧ (∀ b, b ∉ addrs t → h' !! b = h !! b).
Proof.
  revert h m t. induction nodes as [|y nodes IH]; intros h m t HS Hf Hin.
  { simpl. by eexists h, m, t, _. }
  destruct (locate t y) as (c & l & k & v & hg & r & ->); [apply Hin; by left|].
  destruct (BalanceNode_spec fuel h m c l y k v hg r HS Hf)
    as (h1 & m1 & log1 & Hrun & HS1 & Hsz1 & Hfr1).
  assert (items (plug c (balance_node (ctx_depth c) (T l y k v hg r)))
          = items (plug c (T l y k v hg r))) as Hit.
  { apply items_plug_eq, items_balance_node. }
  assert (depth_ok 0 (plug c (T l y k v hg r)) →
          depth_ok 0 (plug c (balance_node (ctx_depth c) (T l y k v hg r)))) as Hd1.
  { intros Hd. eapply depth_ok_plug_replace; [exact Hd|].
    by apply depth_ok_balance_node, depth_ok_plug_inv. }
  cbn [BalanceTree]. rewrite Hrun. cbn [mbind option_bind].
  destruct (bool_decide _ && inserting).
  { eexists h1, m1, _, _. split; [done|]. split_and!; done. }
  destruct (IH h1 m1 _ HS1) as (h2 & m2 & t2 & log2 & -> & HS2 & Hit2 & Hsz2 & Hd2 & Hfr2).
  { unfold count in *. by rewrite Hit. }
  { intros z Hz. unfold addrs. rewrite Hit. apply Hin. by right. }
  cbn [mbind option_bind]. eexists h2, m2, t2, _. split; [done|].
  split_and!; [done|congruence|congruence|auto|].
  intros b Hb. rewrite Hfr2, Hfr1; [done|done|].
  unfold addrs in *. by rewrite Hit.
Qed.

(** ** The find-or-insert accessor *)

Lemma ins_path_addrs k t y : y ∈ ins_path k t → y ∈ addrs t.
Proof.
  induction t as [|l IHl a k' v' hg r IHr]; simpl; [done|]. rewrite addrs_T.
  destruct (decide (k < k')); [|destruct (decide (k > k'))].
  - intros Hy. apply elem_of_app in Hy as [Hy|Hy]; [apply elem_of_app; auto|].
    apply list_elem_of_singleton in Hy as ->. in_list.
  - intros Hy. apply elem_of_app in Hy as [Hy|Hy].
    + apply elem_of_app. right. right. auto.
    + apply list_elem_of_singleton in Hy as ->. in_list.
  - intros Hy. by apply elem_of_nil in Hy.
Qed.

Lemma Shape_find h m t k :
  Shape h m t → FindNode (fuel_of h) h (mRoot m) k = Some (find_t t k).
Proof.
  intros HS. pose proof (Shape_fuel _ _ _ HS). destruct HS as [Hrep Hroot _ _].
  rewrite Hroot. by eapply FindNode_spec.
Qed.

Lemma operator_index_found h m t k :
  Shape h m t → k ∈ keys t →
  ∃ a v, operator_index_log h m k = Some (a, h, m, []) ∧ (a, k, v) ∈ items t.
Proof.
  intros HS Hk. unfold operator_index_log. rewrite (Shape_find h m t k HS).
  cbn [mbind option_bind].
  destruct (find_t t k) as [a|] eqn:Hf.
  - destruct (find_t_Some _ _ _ Hf) as [v Hv]. by exists a, v.
  - apply find_t_None in Hf; [done|]. by destruct HS.
Qed.

Lemma InsertItem_Shape h m t k v :
  Shape h m t → k ∉ keys t →
  ∃ r h1,
    InsertItem (fuel_of h) h m (mRoot m) (mRoot m) k v []
    = Some (r, h1, mkMap (root (ins (new_addr h) 0 k v t)) (wrap32 (size_ m + 1)),
            ins_path k t)
    ∧ Shape h1 (mkMap (root (ins (new_addr h) 0 k v t)) (wrap32 (size_ m + 1)))
        (ins (new_addr h) 0 k v t)
    ∧ (∀ b, b ∉ addrs t → b ≠ new_addr h → h1 !! b = h !! b).
Proof.
  intros HS Hk. pose proof (Shape_fuel _ _ _ HS) as Hf.
  destruct HS as [Hrep Hroot Hnd Hb].
  destruct (InsertItem_spec (fuel_of h) h m t None (mRoot m) 0 k v [] Hrep Hnd Hf Hk)
    as (h1 & Hrun & Hrep1 & Hfr).
  { intros ->. by rewrite Hroot. }
  replace (InsertItem (fuel_of h) h m (mRoot m) (mRoot m) k v [])
    with (InsertItem (fuel_of h) h m (root t) (mRoot m) k v [])
    by (by rewrite <- Hroot).
  rewrite Hrun, app_nil_r.
  assert (match mRoot m with Some r => Some r | None => Some (new_addr h) end
          = root (ins (new_addr h) 0 k v t)) as ->.
  { rewrite Hroot. destruct t; [done|]. by rewrite root_ins_T. }
  eexists _, h1. split; [done|]. split; [|done]. split; [done|done| |].
  - rewrite (addrs_ins _ _ _ _ _ Hk). apply NoDup_cons. split; [|done].
    by apply (rep_new_addr _ _ _ Hrep).
  - by apply bst_ins.
Qed.

Lemma operator_index_absent h m t k :
  Shape h m t → k ∉ keys t →
  ∃ h' m' t' log,
    operator_index_log h m k = Some (new_addr h, h', m', log)
    ∧ Shape h' m' t'
    ∧ items t' ≡ₚ (new_addr h, k, 0) :: items t
    ∧ size_ m' = wrap32 (size_ m + 1)
    ∧ (depth_ok 0 t → depth_ok 0 t')
    ∧ (∀ b, b ∉ addrs t → b ≠ new_addr h → h' !! b = h !! b).
Proof.
  intros HS Hk. unfold operator_index_log. rewrite (Shape_find h m t k HS).
  assert (find_t t k = None) as -> by (apply find_t_None; [by destruct HS|done]).
  cbn [mbind option_bind].
  destruct (InsertItem_Shape h m t k 0 HS Hk) as (r & h1 & -> & HS1 & Hfr1).
  cbn [mbind option_bind].
  destruct (BalanceTree_spec (fuel_of h1) (ins_path k t) true h1 _ _ HS1)
    as (h2 & m2 & t2 & log & -> & HS2 & Hit2 & Hsz2 & Hd2 & Hfr2).
  { by eapply Shape_fuel. }
  { intros y Hy. apply ins_path_addrs in Hy. rewrite (addrs_ins _ _ _ _ _ Hk). by right. }
  cbn [mbind option_bind]. rewrite (Shape_find h2 m2 t2 k HS2).
  assert ((new_addr h, k, 0) ∈ items t2) as Hin.
  { rewrite Hit2, (items_ins _ _ _ _ _ Hk). by left. }
  rewrite (find_t_elem t2 k (new_addr h) 0); [|by destruct HS2|done].
  cbn [mbind option_bind].
  destruct (rep_item h2 None t2 _ _ _ (shape_rep _ _ _ HS2) Hin) as (n & -> & _).
  cbn [mbind option_bind]. eexists h2, m2, t2, log. split; [done|].
  split_and!; [done| |done| |].
  - by rewrite Hit2, (items_ins _ _ _ _ _ Hk).
  - intros Hd. apply Hd2. by apply depth_ok_ins.
  - intros b Hb Hbn. rewrite Hfr2, Hfr1; [done|done|done|].
    rewrite (addrs_ins _ _ _ _ _ Hk). by apply not_elem_of_cons.
Qed.

(** *** The pointer surgery of [DeleteItem] at the node found *)

Lemma DeleteItem_leaf_root_steps fuel h m a n :
  h !! a = Some n → left n = None → right n = None → mRoot m = Some a →
  DeleteItem (S fuel) h m (Some a) (key n)
  = Some (delete a h, mkMap None (wrap32 (size_ m - 1))).
Proof.
  intros Ha Hl Hr Hroot. cbn [DeleteItem]. rewrite Ha. cbn [mbind option_bind].
  rewrite !decide_False by lia. rewrite Hl, Hr.
  unfold DeleteLeafNode. rewrite Hroot, decide_True by done.
  cbn [mbind option_bind]. unfold FreeNode. rewrite Ha. done.
Qed.

Lemma DeleteItem_leaf_steps fuel h m a n p np :
  h !! a = Some n → left n = None → right n = None → Some a ≠ mRoot m →
  parent n = Some p → h !! p = Some np → a ≠ p →
  DeleteItem (S fuel) h m (Some a) (key n)
  = Some (delete a (<[p := if decide (Some a = left np)
                          then set_left None np else set_right None np]> h),
          mkMap (mRoot m) (wrap32 (size_ m - 1))).
Proof.
  intros Ha Hl Hr Hroot Hp Hnp Hap. cbn [DeleteItem]. rewrite Ha.
  cbn [mbind option_bind].
  rewrite !decide_False by lia. rewrite Hl, Hr.
  unfold DeleteLeafNode. rewrite decide_False by done.
  rewrite Ha. cbn [mbind option_bind]. rewrite Hp. cbn [mbind option_bind].
  rewrite Hnp. cbn [mbind option_bind]. unfold wr, FreeNode.
  destruct (decide (Some a = left np)); rewrite Hnp; cbn [mbind option_bind];
    rewrite lookup_insert_ne by done; rewrite Ha; done.
Qed.

Lemma DeleteItem_one_root_steps fuel h m a n cc ncc :
  h !! a = Some n →
  (left n = Some cc ∧ right n = None) ∨ (left n = None ∧ right n = Some cc) →
  mRoot m = Some a → h !! cc = Some ncc → cc ≠ a →
  DeleteItem (S fuel) h m (Some a) (key n)
  = Some (delete a (<[cc := set_parent None ncc]> h),
          mkMap (Some cc) (wrap32 (size_ m - 1))).
Proof.
  intros Ha Hlr Hroot Hcc Hca. cbn [DeleteItem]. rewrite Ha.
  cbn [mbind option_bind]. rewrite !decide_False by lia.
  destruct Hlr as [[Hl Hr]|[Hl Hr]]; rewrite Hl, Hr;
    rewrite decide_False by (rewrite Hroot; tauto);
    cbn [mbind option_bind mRoot set_mRoot]; unfold wr, FreeNode;
    rewrite Hcc; cbn [mbind option_bind];
    rewrite lookup_insert_ne by done; rewrite Ha; done.
Qed.

Lemma DeleteItem_one_steps fuel h m a n p np cc ncc :
  h !! a = Some n →
  (left n = Some cc ∧ right n = None) ∨ (left n = None ∧ right n = Some cc) →
  Some a ≠ mRoot m → parent n = Some p → h !! p = Some np →
  h !! cc = Some ncc → a ≠ p → cc ≠ p → cc ≠ a →
  DeleteItem (S fuel) h m (Some a) (key n)
  = Some (delete a (<[cc := set_parent (Some p) ncc]>
                      (<[p := if decide (Some a = left np)
                              then set_left (Some cc) np
                              else set_right (Some cc) np]> h)),
          mkMap (mRoot m) (wrap32 (size_ m - 1))).
Proof.
  intros Ha Hlr Hroot Hp Hnp Hcc Hap Hcp Hca. cbn [DeleteItem]. rewrite Ha.
  cbn [mbind option_bind]. rewrite !decide_False by lia.
  destruct Hlr as [[Hl Hr]|[Hl Hr]]; rewrite Hl, Hr;
    rewrite decide_True by done;
    rewrite Hp; cbn [mbind option_bind]; rewrite Hnp; cbn [mbind option_bind];
    unfold wr, FreeNode;
    destruct (decide (Some a = left np)); rewrite Hnp; cbn [mbind option_bind];
    rewrite (lookup_insert_ne _ p a) by done; rewrite Ha; cbn [mbind option_bind];
    rewrite (lookup_insert_ne _ p cc) by done; rewrite Hcc; cbn [mbind option_bind];
    rewrite Hp; rewrite (lookup_insert_ne _ cc a) by done;
    rewrite (lookup_insert_ne _ p a) by done; rewrite Ha; done.
Qed.

(** *** Splicing out a node with at most one child *)

Lemma DeleteItem_splice fuel h m c l a k v hg r :
  l = Leaf ∨ r = Leaf →
  rep h None (plug c (T l a k v hg r)) →
  mRoot m = root (plug c (T l a k v hg r)) →
  NoDup (addrs (plug c (T l a k v hg r))) →
  ∃ h',
    DeleteItem (S fuel) h m (Some a) k
    = Some (h', mkMap (root (plug c (only_child l r))) (wrap32 (size_ m - 1)))
    ∧ rep h' None (plug c (only_child l r))
    ∧ h' !! a = None
    ∧ (∀ b, b ∉ addrs (plug c (T l a k v hg r)) → h' !! b = h !! b).
Proof.
  intros Hlr Hrep Hroot Hnd.
  apply rep_plug in Hrep as (Hs & Hc). pose proof Hs as (Ha & Hl & Hr).
  cbn [root] in Hc.
  rewrite (addrs_plug_perm c) in Hnd.
  assert (∀ b, b ∉ addrs (plug c (T l a k v hg r)) →
            (b ∉ addrs (T l a k v hg r)) ∧ (b ∉ ctx_addrs c)) as Hout.
  { intros b. rewrite (addrs_plug_perm c). apply not_elem_of_app. }
  pose proof Hnd as Hnd1. rewrite addrs_T in Hnd1.
  rewrite root_plug in Hroot. cbn [root] in Hroot.
  assert (rep h (Some a) (only_child l r)) as Hch.
  { destruct Hlr as [-> | ->]; [done|]. by destruct l. }
  assert (∀ b, b ∈ addrs (only_child l r) →
            (b ≠ a) ∧ (b ∉ ctx_addrs c) ∧ (b ∈ addrs l ++ a :: addrs r)) as Hchin.
  { intros b. destruct Hlr as [-> | ->]; cbn [only_child].
    - intros ?. split_and!; [nd_ne Hnd1|nd_notin Hnd1|in_list].
    - destruct l; cbn [only_child]; [intros Hb; by apply elem_of_nil in Hb|].
      intros ?. split_and!; [nd_ne Hnd1|nd_notin Hnd1|in_list]. }
  assert (left (mkNode k v hg 0 (ctx_parent c) (root l) (root r)) = root (only_child l r)
          ∧ right (mkNode k v hg 0 (ctx_parent c) (root l) (root r)) = None
          ∨ left (mkNode k v hg 0 (ctx_parent c) (root l) (root r)) = None
          ∧ right (mkNode k v hg 0 (ctx_parent c) (root l) (root r))
            = root (only_child l r)) as Hnlr.
  { destruct Hlr as [-> | ->]; cbn; [by right|]. left. by destruct l. }
  assert (∀ H,
    (∀ cc, root (only_child l r) = Some cc →
       H !! cc = set_parent (ctx_parent c) <$> h !! cc) →
    (∀ b, b ≠ a → root (only_child l r) ≠ Some b → b ∉ ctx_addrs c → H !! b = h !! b) →
    rep H (ctx_parent c) (only_child l r)
    ∧ ∀ b, b ∉ addrs (T l a k v hg r) → b ∉ ctx_addrs c → H !! b = h !! b) as Hmid.
  { intros H HC HF. split.
    - eapply (rep_reparent h); [exact Hch| |done|].
      + apply nodup_app_1 in Hnd1.
        destruct Hlr as [-> | ->]; cbn [only_child].
        * by apply nodup_app_2, nodup_cons_2 in Hnd1.
        * destruct l; [constructor|]. by apply nodup_app_1 in Hnd1.
      + intros b Hb Hrt. apply Hchin in Hb as (? & ? & ?). by apply HF.
    - intros b Hb Hbc. rewrite addrs_T in Hb. apply HF; [| |done].
      + intros ->. apply Hb. in_list.
      + intros Hrt. apply root_addrs, Hchin in Hrt as (? & ? & ?). done. }
  change k with (key (mkNode k v hg 0 (ctx_parent c) (root l) (root r))).
  destruct (root (only_child l r)) as [cc|] eqn:Hrc.
  - destruct (Hchin cc (root_addrs _ _ Hrc)) as (Hca & Hccc & Hccin).
    destruct (rep_root_lookup _ _ _ _ Hch Hrc) as [ncc Hncc].
    destruct c as [|f c].
    + rewrite ctx_root_nil in Hroot.
      rewrite (DeleteItem_one_root_steps fuel h m a _ cc ncc Ha); [|tauto|done..].
      destruct (Hmid (delete a (<[cc := set_parent None ncc]> h))) as [Hrep1 Hfr1].
      { intros ? [= <-]. rewrite lookup_delete_ne by done.
        by rewrite lookup_insert_eq, Hncc. }
      { intros b ? Hb _. rewrite lookup_delete_ne by done.
        rewrite lookup_insert_ne; [done|]. by intros <-. }
      eexists. split; [by rewrite root_plug, ctx_root_nil, Hrc|].
      split_and!; [done|apply lookup_delete_eq|].
      intros b Hb. destruct (Hout b Hb). by apply Hfr1.
    + pose proof (ctx_root_cons_ne f c (T l a k v hg r) a Hnd eq_refl) as Hne.
      rewrite <- Hroot in Hne.
      destruct (rep_ctx_parent_lookup _ _ _ _ Hc) as [np Hnp].
      assert (frame_addr f ∈ ctx_addrs (f :: c)) as Hpin.
      { rewrite ctx_addrs_cons. by left. }
      assert (a ≠ frame_addr f) as Hap by nd_ne Hnd1.
      assert (cc ≠ frame_addr f) as Hcp by (by intros ->).
      rewrite (DeleteItem_one_steps fuel h m a _ (frame_addr f) np cc ncc Ha);
        [|tauto|done..].
      match goal with
      | |- context [Some (?HH, _)] => destruct (Hmid HH) as [Hrep1 Hfr1]
      end.
      { intros ? [= <-]. rewrite lookup_delete_ne by done.
        by rewrite lookup_insert_eq, Hncc. }
      { intros b ? Hb Hbc. rewrite lookup_delete_ne by done.
        rewrite !lookup_insert_ne; [done| |]; intros <-; [done|by apply Hb]. }
      eexists. split.
      { rewrite !root_plug, (ctx_root_cons f c (root _) (Some a)), <- Hroot. done. }
      split_and!; [|apply lookup_delete_eq|].
      * apply rep_plug. split; [done|]. rewrite Hrc.
        eapply (rep_ctx_redirect h _ f c a (T l a k v hg r) (Some cc));
          [done|done|done|done| |].
        -- rewrite lookup_delete_ne by done. rewrite lookup_insert_ne by done.
           by rewrite lookup_insert_eq.
        -- intros b Hb Hbp. rewrite lookup_delete_ne by nd_ne Hnd1.
           rewrite !lookup_insert_ne; [done|done|nd_ne Hnd1].
      * intros b Hb. destruct (Hout b Hb). by apply Hfr1.
  - assert (l = Leaf ∧ r = Leaf) as [-> ->].
    { destruct Hlr as [-> | ->]; cbn [only_child] in Hrc.
      - by apply root_None in Hrc as ->.
      - by destruct l. }
    cbn [only_child] in *.
    destruct c as [|f c].
    + rewrite ctx_root_nil in Hroot.
      rewrite (DeleteItem_leaf_root_steps fuel h m a _ Ha); [|done..].
      eexists. split; [done|]. split_and!; [done|apply lookup_delete_eq|].
      intros b Hb. destruct (Hout b Hb) as [Hb' _]. rewrite addrs_T in Hb'.
      apply lookup_delete_ne. intros <-. apply Hb'. in_list.
    + pose proof (ctx_root_cons_ne f c (T Leaf a k v hg Leaf) a Hnd eq_refl) as Hne.
      rewrite <- Hroot in Hne.
      destruct (rep_ctx_parent_lookup _ _ _ _ Hc) as [np Hnp].
      assert (frame_addr f ∈ ctx_addrs (f :: c)) as Hpin.
      { rewrite ctx_addrs_cons. by left. }
      assert (a ≠ frame_addr f) as Hap by nd_ne Hnd1.
      rewrite (DeleteItem_leaf_steps fuel h m a _ (frame_addr f) np Ha); [|done..].
      eexists. split.
      { rewrite !root_plug, (ctx_root_cons f c (root _) (Some a)), <- Hroot. done. }
      split_and!; [|apply lookup_delete_eq|].
      * apply rep_plug. split; [done|].
        eapply (rep_ctx_redirect h _ f c a (T Leaf a k v hg Leaf) None);
          [done|done|done|done| |].
        -- rewrite lookup_delete_ne by done. by rewrite lookup_insert_eq.
        -- intros b Hb Hbp. rewrite lookup_delete_ne by nd_ne Hnd1.
           rewrite !lookup_insert_ne; [done|done].
      * intros b Hb. destruct (Hout b Hb) as [Hb' Hbc]. rewrite addrs_T in Hb'.
        rewrite lookup_delete_ne by (intros <-; apply Hb'; in_list).
        apply lookup_insert_ne. by intros <-.
Qed.

(** *** Removing the in-order predecessor *)

Lemma only_child_Leaf_r l : only_child l Leaf = l.
Proof. by destruct l. Qed.

Lemma items_remove_max t x :
  list_last (items t) = Some x → items t = items (remove_max t) ++ [x].
Proof.
  induction t as [|l IHl a k v hg r IHr]; [done|]. cbn [items remove_max].
  rewrite last_app, last_cons. destruct r as [|rl ra rk rv rhg rr].
  - cbn. by intros [= <-].
  - destruct (list_last (items (T rl ra rk rv rhg rr))) as [y|] eqn:Hy.
    + intros [= ->]. cbn [items] in *. rewrite (IHr eq_refl) at 1.
      by rewrite <- app_assoc.
    + apply last_None in Hy. cbn in Hy. by destruct (items rl).
Qed.

Lemma last_items_T l a k v hg r : is_Some (list_last (items (T l a k v hg r))).
Proof. apply last_is_Some. cbn. by destruct (items l). Qed.

Lemma StronglySorted_sublist {A} (R : relation A) (l1 l2 : list A) :
  l1 `sublist_of` l2 → StronglySorted R l2 → StronglySorted R l1.
Proof.
  induction 1 as [|x l1 l2 Hsub IH|x l1 l2 Hsub IH]; intros Hs; [done| |].
  - apply StronglySorted_inv in Hs as [Hs Hall]. constructor; [auto|].
    rewrite Forall_forall in *. intros y Hy. apply Hall. by eapply elem_of_sublist.
  - apply StronglySorted_inv in Hs as [Hs _]. auto.
Qed.

(** The effect of [delete_here] on the in-order listings. *)
Lemma delete_here_addrs l a k v hg r :
  addrs (delete_here (T l a k v hg r)) `sublist_of` addrs (T l a k v hg r).
Proof.
  cbn [delete_here]. destruct l as [|ll la lk lv lhg lr].
  { cbn [only_child]. rewrite addrs_T. by apply sublist_inserts_l, sublist_cons. }
  destruct r as [|rl ra rk rv rhg rr].
  { cbn [only_child]. rewrite (addrs_T _ a). by apply sublist_inserts_r. }
  destruct (last_items_T ll la lk lv lhg lr) as [[[ap kp] vp] Hlast]. rewrite Hlast.
  rewrite !(addrs_T _ a). apply sublist_app; [|done].
  unfold addrs. rewrite (items_remove_max _ _ Hlast), fmap_app.
  by apply sublist_inserts_r.
Qed.

Lemma delete_here_keys l a k v hg r :
  keys (delete_here (T l a k v hg r)) `sublist_of` keys (T l a k v hg r).
Proof.
  cbn [delete_here]. destruct l as [|ll la lk lv lhg lr].
  { cbn [only_child]. rewrite keys_T. by apply sublist_inserts_l, sublist_cons. }
  destruct r as [|rl ra rk rv rhg rr].
  { cbn [only_child]. rewrite (keys_T _ a). by apply sublist_inserts_r. }
  destruct (last_items_T ll la lk lv lhg lr) as [[[ap kp] vp] Hlast]. rewrite Hlast.
  rewrite !(keys_T _ a). unfold keys at 3. rewrite (items_remove_max _ _ Hlast), fmap_app.
  cbn [fmap list_fmap]. rewrite <- app_assoc. cbn [app].
  apply sublist_app; [done|]. by apply sublist_skip, sublist_cons.
Qed.

Lemma delete_here_keys_perm l a k v hg r :
  keys (T l a k v hg r) ≡ₚ k :: keys (delete_here (T l a k v hg r)).
Proof.
  cbn [delete_here]. destruct l as [|ll la lk lv lhg lr].
  { cbn [only_child]. by rewrite keys_T. }
  destruct r as [|rl ra rk rv rhg rr].
  { cbn [only_child]. rewrite (keys_T _ a). cbn. by rewrite <- Permutation_middle, app_nil_r. }
  destruct (last_items_T ll la lk lv lhg lr) as [[[ap kp] vp] Hlast]. rewrite Hlast.
  rewrite !(keys_T _ a). unfold keys at 1. rewrite (items_remove_max _ _ Hlast), fmap_app.
  cbn [fmap list_fmap]. rewrite <- app_assoc. cbn [app].
  rewrite <- !Permutation_middle. apply Permutation_swap.
Qed.

Lemma delete_here_count l a k v hg r :
  count (T l a k v hg r) = S (count (delete_here (T l a k v hg r))).
Proof.
  unfold count. rewrite <- !(length_fmap (λ x, x.1.2)). fold (keys (T l a k v hg r)).
  fold (keys (delete_here (T l a k v hg r))).
  by rewrite (delete_here_keys_perm l a k v hg r).
Qed.

Lemma addrs_remove_max t : addrs (remove_max t) `sublist_of` addrs t.
Proof.
  destruct t as [|l a k v hg r]; [done|].
  destruct (last_items_T l a k v hg r) as [x Hx].
  unfold addrs. rewrite (items_remove_max _ _ Hx), fmap_app.
  by apply sublist_inserts_r.
Qed.

Lemma DeleteItem_max fuel h m c s ap kp vp :
  rep h None (plug c s) → mRoot m = root (plug c s) →
  NoDup (addrs (plug c s)) → bst s →
  list_last (items s) = Some (ap, kp, vp) → (count s < fuel)%nat →
  ∃ h',
    DeleteItem fuel h m (root s) kp
    = Some (h', mkMap (root (plug c (remove_max s))) (wrap32 (size_ m - 1)))
    ∧ rep h' None (plug c (remove_max s))
    ∧ h' !! ap = None
    ∧ (∀ b, b ∉ addrs (plug c s) → h' !! b = h !! b).
Proof.
  revert fuel c. induction s as [|l _ a k v hg r IHr]; intros fuel c Hrep Hroot Hnd Hb Hlast Hf;
    [done|].
  destruct fuel as [|fuel]; [lia|]. rewrite count_T in Hf.
  destruct r as [|rl ra rk rv rhg rr].
  - cbn [items] in Hlast. rewrite last_snoc in Hlast. injection Hlast as <- <- <-.
    destruct (DeleteItem_splice fuel h m c l a k v hg Leaf) as (h' & Hrun & Hrep' & Hfree & Hfr);
      [by right|done..|].
    rewrite only_child_Leaf_r in *. cbn [remove_max root]. by exists h'.
  - change (items (T l a k v hg (T rl ra rk rv rhg rr)))
      with (items l ++ (a, k, v) :: items (T rl ra rk rv rhg rr)) in Hlast.
    rewrite last_app, last_cons in Hlast.
    destruct (last_items_T rl ra rk rv rhg rr) as [x Hx]. rewrite Hx in Hlast.
    injection Hlast as ->.
    apply bst_T in Hb as (Hbl & Hbr & Hlk & Hkr).
    assert (k < kp) as Hkp.
    { rewrite Forall_forall in Hkr. apply Hkr. apply keys_items.
      exists ap, vp. apply last_Some in Hx as [pre ->]. apply elem_of_app. right. by left. }
    pose proof Hrep as Hrep0.
    apply rep_plug in Hrep as ((Ha & _) & _).
    cbn [DeleteItem root]. rewrite Ha. cbn [mbind option_bind key right].
    rewrite decide_False by lia. rewrite decide_True by lia.
    destruct (IHr fuel (FR l a k v hg :: c)) as (h' & Hrun & Hrep' & Hfree & Hfr);
      [done|done|done|done|done|lia|].
    exists h'. done.
Qed.

Lemma DeleteItem_here fuel h m c l a k v hg r :
  rep h None (plug c (T l a k v hg r)) →
  mRoot m = root (plug c (T l a k v hg r)) →
  NoDup (addrs (plug c (T l a k v hg r))) → bst (T l a k v hg r) →
  (count (plug c (T l a k v hg r)) < fuel)%nat →
  ∃ h' af,
    DeleteItem fuel h m (Some a) k
    = Some (h', mkMap (root (plug c (delete_here (T l a k v hg r))))
                      (wrap32 (size_ m - 1)))
    ∧ rep h' None (plug c (delete_here (T l a k v hg r)))
    ∧ h' !! af = None
    ∧ af ∈ addrs (T l a k v hg r)
    ∧ freed_addr (T l a k v hg r) = Some af
    ∧ (∀ b, b ∉ addrs (plug c (T l a k v hg r)) → h' !! b = h !! b).
Proof.
  intros Hrep Hroot Hnd Hb Hf.
  pose proof (count_plug_le c (T l a k v hg r)) as Hle. rewrite count_T in Hle.
  destruct fuel as [|fuel]; [lia|].
  destruct l as [|ll la lk lv lhg lr].
  { destruct (DeleteItem_splice fuel h m c Leaf a k v hg r) as (h' & Hrun & Hrep' & Hfree & Hfr);
      [by left|done..|].
    exists h', a. split_and!; try done. rewrite addrs_T. in_list. }
  destruct r as [|rl ra rk rv rhg rr].
  { destruct (DeleteItem_splice fuel h m c (T ll la lk lv lhg lr) a k v hg Leaf)
      as (h' & Hrun & Hrep' & Hfree & Hfr); [by right|done..|].
    exists h', a. split_and!; try done. rewrite addrs_T. in_list. }
  set (l := T ll la lk lv lhg lr) in *. set (r := T rl ra rk rv rhg rr) in *.
  destruct (last_items_T ll la lk lv lhg lr) as [[[ap kp] vp] Hlast]. fold l in Hlast.
  assert (delete_here (T l a k v hg r) = T (remove_max l) a kp vp hg r) as ->.
  { unfold l, r. cbn [delete_here]. fold l. by rewrite Hlast. }
  pose proof (decrement_spec (S fuel) h c l a k v hg r Hrep Hnd Hf) as Hdec.
  rewrite fmap_app, last_app in Hdec.
  assert (list_last ((λ x, x.1.1) <$> items l) = Some ap) as Hlast'.
  { apply last_Some in Hlast as [pre ->]. rewrite fmap_app. cbn. by rewrite last_snoc. }
  rewrite Hlast' in Hdec.
  assert ((ap, kp, vp) ∈ items l) as Hpin.
  { apply last_Some in Hlast as [pre ->]. apply elem_of_app. right. by left. }
  pose proof Hrep as Hrep0.
  apply rep_plug in Hrep as ((Ha & Hl & Hr) & Hc).
  destruct (rep_item h (Some a) l ap kp vp Hl Hpin) as (np & Hnp & Hkp & Hvp).
  rewrite (addrs_plug_perm c) in Hnd. pose proof Hnd as Hnd1. rewrite addrs_T in Hnd1.
  assert (ap ∈ addrs l) as Hapin.
  { unfold addrs. apply list_elem_of_fmap. by exists (ap, kp, vp). }
  assert (a ≠ ap) as Hapa by nd_ne Hnd1.
  cbn [DeleteItem]. rewrite Ha. cbn [mbind option_bind key left right].
  rewrite !decide_False by lia. unfold l at 1, r at 1. cbn [root].
  rewrite Hdec. cbn [mbind option_bind]. rewrite Hnp. cbn [mbind option_bind].
  unfold wr. rewrite Ha. cbn [mbind option_bind].
  rewrite (lookup_insert_ne _ a ap) by done. rewrite Hnp. cbn [mbind option_bind].
  rewrite lookup_insert_eq. cbn [mbind option_bind].
  rewrite lookup_insert_eq. cbn [mbind option_bind].
  rewrite insert_insert_eq. rewrite Hkp, Hvp.
  cbn [set_key set_value key value height balance parent left right].
  set (h2 := <[a := mkNode kp vp hg 0 (ctx_parent c) (root l) (root r)]> h).
  assert (rep h2 None (plug (FL a kp vp hg r :: c) l)) as Hrep2.
  { cbn [plug fill]. apply rep_plug. split; [cbn [rep]; split_and!|].
    - apply lookup_insert_eq.
    - eapply rep_frame; [exact Hl|]. intros b Hbin. apply lookup_insert_ne.
      intros <-. revert Hbin. nd_notin Hnd1.
    - eapply rep_frame; [exact Hr|]. intros b Hbin. apply lookup_insert_ne.
      intros <-. revert Hbin. nd_notin Hnd1.
    - eapply rep_ctx_frame; [exact Hc|]. intros b Hbin. apply lookup_insert_ne.
      intros <-. revert Hbin. nd_notin Hnd1. }
  apply bst_T in Hb as (Hbl & Hbr & Hlk & Hkr).
  destruct (DeleteItem_max fuel h2 m (FL a kp vp hg r :: c) l ap kp vp)
    as (h' & Hrun & Hrep' & Hfree & Hfr); [done| | |done|done|lia|].
  { cbn [plug fill]. rewrite Hroot, !root_plug. done. }
  { cbn [plug fill]. rewrite (addrs_plug_perm c), addrs_T. done. }
  exists h', ap. split; [exact Hrun|]. split_and!; [done|done| |done|].
  - rewrite addrs_T. in_list.
  - intros b Hbout. rewrite Hfr.
    + apply lookup_insert_ne. intros <-. apply Hbout.
      rewrite (addrs_plug_perm c), addrs_T. in_list.
    + cbn [plug fill]. intros Hbin. apply Hbout.
      rewrite (addrs_plug_perm c) in *. by rewrite addrs_T in *.
Qed.

(** *** The ancestor stack of [erase] *)

Lemma GetVisitedNodes_loop_spec fuel h c hole stack :
  rep_ctx h c hole → (length c < fuel)%nat →
  GetVisitedNodes_loop fuel h (ctx_parent c) stack
  = Some (reverse (frame_addr <$> c) ++ stack).
Proof.
  revert fuel hole stack. induction c as [|f c IH]; intros fuel hole stack Hc Hf;
    (destruct fuel as [|fuel]; [simpl in Hf; lia|]); [done|].
  cbn [GetVisitedNodes_loop ctx_parent].
  assert (∃ n, h !! frame_addr f = Some n ∧ parent n = ctx_parent c
               ∧ rep_ctx h c (Some (frame_addr f))) as (n & Hn & Hp & Hc').
  { destruct f; destruct Hc as (Ha & _ & Hc); eexists; split_and!; done. }
  rewrite Hn. cbn [mbind option_bind]. rewrite Hp.
  rewrite (IH fuel _ _ Hc') by (simpl in Hf; lia).
  cbn [fmap list_fmap]. by rewrite reverse_cons, <- app_assoc.
Qed.

Lemma GetVisitedNodes_spec fuel h c l a k v hg r :
  rep h None (plug c (T l a k v hg r)) → (length c < fuel)%nat →
  GetVisitedNodes fuel h a [] = Some (reverse (frame_addr <$> c)).
Proof.
  intros Hrep Hf. apply rep_plug in Hrep as ((Ha & _) & Hc).
  unfold GetVisitedNodes. rewrite Ha. cbn [mbind option_bind parent].
  destruct c as [|f c]; [done|]. cbn [ctx_parent].
  change (Some (frame_addr f)) with (ctx_parent (f :: c)).
  rewrite (GetVisitedNodes_loop_spec fuel h (f :: c) _ [] Hc Hf).
  by rewrite app_nil_r.
Qed.

Lemma keys_plug c t :
  keys (plug c t)
  = ((λ x, x.1.2) <$> ctx_before c) ++ keys t ++ ((λ x, x.1.2) <$> ctx_after c).
Proof. unfold keys. by rewrite items_plug, !fmap_app. Qed.

Lemma frame_addr_ctx_addrs c y : y ∈ frame_addr <$> c → y ∈ ctx_addrs c.
Proof.
  induction c as [|f c IH]; cbn [fmap list_fmap]; [done|].
  rewrite ctx_addrs_cons. intros Hy. apply elem_of_cons in Hy as [->|Hy]; [by left|].
  right. apply elem_of_app. right. auto.
Qed.

(** ** [erase] on a located node *)

Lemma erase_located h m c l a k v hg r :
  Shape h m (plug c (T l a k v hg r)) →
  ∃ h' m' t' af log,
    erase_log h m (Some a) = Some (h', m', reverse (frame_addr <$> c), log)
    ∧ Shape h' m' t'
    ∧ items t' = items (plug c (delete_here (T l a k v hg r)))
    ∧ size_ m' = wrap32 (size_ m - 1)
    ∧ freed_addr (T l a k v hg r) = Some af
    ∧ h' !! af = None
    ∧ (∀ b, b ∉ addrs (plug c (T l a k v hg r)) → h' !! b = h !! b).
Proof.
  intros HS. pose proof (Shape_fuel _ _ _ HS) as Hf.
  pose proof HS as [Hrep Hroot Hnd Hb].
  pose proof (count_plug_length c (T l a k v hg r)) as Hlen.
  pose proof Hrep as Hrep0. apply rep_plug in Hrep0 as ((Ha & _) & _).
  unfold erase_log, end_it. rewrite decide_False by done. cbn [mbind option_bind].
  rewrite (GetVisitedNodes_spec _ h c l a k v hg r Hrep) by lia.
  cbn [mbind option_bind]. rewrite Ha. cbn [mbind option_bind key].
  assert (bst (T l a k v hg r)) as Hbs.
  { unfold bst in *. rewrite keys_plug in Hb.
    by apply StronglySorted_app_1_r, StronglySorted_app_1_l in Hb. }
  destruct (DeleteItem_here (fuel_of h) h m c l a k v hg r Hrep Hroot Hnd Hbs Hf)
    as (h1 & af & -> & Hrep1 & Hfree & Hafin & Haf & Hfr1).
  cbn [mbind option_bind].
  set (m1 := mkMap (root (plug c (delete_here (T l a k v hg r)))) (wrap32 (size_ m - 1))).
  assert (Shape h1 m1 (plug c (delete_here (T l a k v hg r)))) as HS1.
  { split; [done|done| |].
    - eapply sublist_NoDup; [exact Hnd|]. rewrite !addrs_plug.
      apply sublist_app; [done|]. apply sublist_app; [|done]. apply delete_here_addrs.
    - unfold bst in *. eapply StronglySorted_sublist; [|exact Hb]. rewrite !keys_plug.
      apply sublist_app; [done|]. apply sublist_app; [|done]. apply delete_here_keys. }
  destruct (BalanceTree_spec (fuel_of h) (reverse (frame_addr <$> c)) false h1 m1 _ HS1)
    as (h2 & m2 & t2 & log & -> & HS2 & Hit2 & Hsz2 & _ & Hfr2).
  { pose proof (delete_here_count l a k v hg r) as Hc.
    unfold count in *. rewrite items_plug in *. rewrite !length_app in *. lia. }
  { intros y Hy. apply elem_of_reverse, frame_addr_ctx_addrs in Hy.
    rewrite (addrs_plug_perm c). apply elem_of_app. by right. }
  cbn [mbind option_bind]. eexists h2, m2, t2, af, log. split; [done|].
  split_and!; [done|done|done|done| |].
  - rewrite Hfr2; [done|]. intros Hin.
    destruct (rep_lookup _ _ _ _ Hrep1 Hin) as [? Hsome]. by rewrite Hfree in Hsome.
  - intros b Hbout. rewrite Hfr2, Hfr1; [done|done|].
    intros Hin. apply Hbout. eapply elem_of_sublist; [exact Hin|].
    rewrite !addrs_plug.
    apply sublist_app; [done|]. apply sublist_app; [|done]. apply delete_here_addrs.
Qed.

(** ** The log of a rebalancing walk *)

Lemma examined_app l1 l2 : examined (l1 ++ l2) = examined l1 ++ examined l2.
Proof. unfold examined. by rewrite omap_app. Qed.

Lemma examined_rotations rots :
  forallb is_rotation rots = true → examined rots = [].
Proof.
  induction rots as [|[y|a|a] rots IH]; cbn; [done|done|auto|auto].
Qed.

Lemma examined_Examine l : examined (Examine <$> l) = l.
Proof. induction l as [|y l IH]; cbn; [done|]. by f_equal. Qed.

Lemma rotation_at_rotations y rots :
  rotation_at y rots → forallb is_rotation rots = true ∧ rots ≠ [].
Proof. intros [->|[[l ->]|[->|[r ->]]]]; done. Qed.

Lemma BalanceNode_log fuel h m y h' m' log ran :
  BalanceNode fuel h m y = Some (h', m', log, ran) →
  ∃ rots, log = Examine y :: rots
    ∧ (ran = false → rots = [] ∧ h' = h ∧ m' = m)
    ∧ (ran = true → rotation_at y rots).
Proof.
  unfold BalanceNode, GetSubtreeBalance. intros Hrun.
  destruct (h !! y) as [ny|]; [|done]. cbn [mbind option_bind] in Hrun.
  destruct (GetSubtreeHeight fuel h (left ny)) as [hl|]; [|done].
  cbn [mbind option_bind] in Hrun.
  destruct (GetSubtreeHeight fuel h (right ny)) as [hr|]; [|done].
  cbn [mbind option_bind] in Hrun.
  destruct (decide (Z.abs (hl - hr) ≤ 1)) as [Hbal|Hbal].
  { injection Hrun as <- <- <- <-. exists []. by split_and!. }
  destruct (decide (hl - hr > 1)) as [Hgt|Hgt].
  - destruct (decide (hl - hr < -1)); [lia|].
    destruct (left ny) as [l|]; [|done]. cbn [mbind option_bind] in Hrun.
    destruct (h !! l) as [nl|]; [|done]. cbn [mbind option_bind] in Hrun.
    destruct (GetSubtreeHeight fuel h (left nl)) as [hll|]; [|done].
    cbn [mbind option_bind] in Hrun.
    destruct (GetSubtreeHeight fuel h (right nl)) as [hlr|]; [|done].
    cbn [mbind option_bind] in Hrun.
    destruct (decide (hll >= hlr)).
    + destruct (RotateRight fuel h m (Some y)) as [[[? ?] ?]|]; [|done].
      cbn in Hrun. injection Hrun as <- <- <- <-.
      eexists. split; [done|]. split; [done|]. intros _. by left.
    + destruct (RotateLeft fuel h m (Some l)) as [[[? h1] m1]|]; [|done].
      cbn [mbind option_bind] in Hrun.
      destruct (RotateRight fuel h1 m1 (Some y)) as [[[? ?] ?]|]; [|done].
      cbn in Hrun. injection Hrun as <- <- <- <-.
      eexists. split; [done|]. split; [done|]. intros _. right. left. by eexists.
  - destruct (decide (hl - hr < -1)); [|lia]. cbn [mbind option_bind] in Hrun.
    destruct (right ny) as [r|]; [|done]. cbn [mbind option_bind] in Hrun.
    destruct (h !! r) as [nr|]; [|done]. cbn [mbind option_bind] in Hrun.
    destruct (GetSubtreeHeight fuel h (right nr)) as [hrr|]; [|done].
    cbn [mbind option_bind] in Hrun.
    destruct (GetSubtreeHeight fuel h (left nr)) as [hrl|]; [|done].
    cbn [mbind option_bind] in Hrun.
    destruct (decide (hrr >= hrl)).
    + destruct (RotateLeft fuel h m (Some y)) as [[[? ?] ?]|]; [|done].
      cbn in Hrun. injection Hrun as <- <- <- <-.
      eexists. split; [done|]. split; [done|]. intros _. right. right. by left.
    + destruct (RotateRight fuel h m (Some r)) as [[[? h1] m1]|]; [|done].
      cbn [mbind option_bind] in Hrun.
      destruct (RotateLeft fuel h1 m1 (Some y)) as [[[? ?] ?]|]; [|done].
      cbn in Hrun. injection Hrun as <- <- <- <-.
      eexists. split; [done|]. split; [done|]. intros _. right. right. right. by eexists.
Qed.

(** After a deletion every node of the stack is examined. *)
Lemma BalanceTree_log_erase fuel nodes h m h' m' log :
  BalanceTree fuel nodes false h m = Some (h', m', log) → examined log = nodes.
Proof.
  revert h m h' m' log. induction nodes as [|y nodes IH]; intros h m h' m' log.
  { by intros [= <- <- <-]. }
  cbn [BalanceTree].
  destruct (BalanceNode fuel h m y) as [[[[h1 m1] log1] ran]|] eqn:Hnode; [|done].
  cbn [mbind option_bind]. rewrite andb_false_r.
  destruct (BalanceTree fuel nodes false h1 m1) as [[[h2 m2] log2]|] eqn:Hrest; [|done].
  cbn. intros [= <- <- <-].
  destruct (BalanceNode_log _ _ _ _ _ _ _ _ Hnode) as (rots & -> & Hno & Hyes).
  rewrite examined_app, (IH _ _ _ _ _ Hrest).
  assert (examined (Examine y :: rots) = [y]) as ->; [|done].
  change (examined (Examine y :: rots)) with (y :: examined rots). f_equal.
  destruct ran.
  - apply examined_rotations. by apply (rotation_at_rotations y), Hyes.
  - by destruct (Hno eq_refl) as (-> & _).
Qed.

(** After an insertion the walk examines a prefix of the stack and ends
    with the rotations at the last node it examined, if any. *)
Lemma BalanceTree_log_insert fuel nodes h m h' m' log :
  BalanceTree fuel nodes true h m = Some (h', m', log) →
  ∃ pre post rots,
    nodes = pre ++ post ∧ log = (Examine <$> pre) ++ rots
    ∧ (rots = [] → post = [])
    ∧ (rots ≠ [] → ∃ y, list_last pre = Some y ∧ rotation_at y rots).
Proof.
  revert h m h' m' log. induction nodes as [|y nodes IH]; intros h m h' m' log.
  { intros [= <- <- <-]. by exists [], [], []. }
  cbn [BalanceTree].
  destruct (BalanceNode fuel h m y) as [[[[h1 m1] log1] ran]|] eqn:Hnode; [|done].
  cbn [mbind option_bind].
  destruct (BalanceNode_log _ _ _ _ _ _ _ _ Hnode) as (rots & -> & Hno & Hyes).
  destruct ran; cbn [andb].
  - intros [= <- <- <-]. exists [y], nodes, rots. split_and!; [done|done| |].
    + intros ->. by destruct (rotation_at_rotations y [] (Hyes eq_refl)).
    + intros _. exists y. split; [done|auto].
  - destruct (Hno eq_refl) as (-> & -> & ->).
    destruct (BalanceTree fuel nodes true h m) as [[[h2 m2] log2]|] eqn:Hrest; [|done].
    cbn. intros [= <- <- <-].
    destruct (IH _ _ _ _ _ Hrest) as (pre & post & rots & -> & -> & Hnil & Hrot).
    exists (y :: pre), post, rots. split_and!; [done|done|done|].
    intros Hne. destruct (Hrot Hne) as (z & Hz & Hr). exists z. split; [|done].
    rewrite last_cons, Hz. done.
Qed.

(** *** Ancestor chains *)

Lemma chain_up_snoc h a chain p top :
  chain_up h a chain (Some p) → (∃ n, h !! p = Some n ∧ parent n = top) →
  chain_up h a (chain ++ [p]) top.
Proof.
  revert a. induction chain as [|q chain IH]; intros a; cbn [chain_up app].
  - intros Ha Hp. split; [done|done].
  - intros [Ha Hc] Hp. split; [done|]. by apply IH.
Qed.

Lemma chain_up_ins h par anew d k v t :
  rep h par (ins anew d k v t) → k ∉ keys t →
  chain_up h anew (ins_path k t) par.
Proof.
  revert par d. induction t as [|l IHl a k' v' hg r IHr]; intros par d; cbn [ins ins_path].
  - intros (Ha & _) _. cbn. by eexists.
  - intros Hrep Hk. rewrite keys_T in Hk. apply not_elem_of_app in Hk as [Hkl Hkr].
    apply not_elem_of_cons in Hkr as [Hne Hkr].
    destruct (decide (k < k')); [|destruct (decide (k > k')); [|lia]];
      destruct Hrep as (Ha & Hl & Hr); (apply chain_up_snoc; [|by eexists]); eauto.
Qed.

Lemma chain_up_ctx h c s a :
  rep h None (plug c s) → root s = Some a →
  chain_up h a (frame_addr <$> c) None.
Proof.
  revert s a. induction c as [|f c IH]; intros s a Hrep Hroot.
  - cbn. destruct s; [done|]. injection Hroot as ->. destruct Hrep as (Ha & _).
    by eexists.
  - cbn [fmap list_fmap chain_up plug] in *. split.
    + apply rep_plug in Hrep as (Hs & _).
      destruct s as [|sl sa sk sv shg sr]; [done|]. injection Hroot as ->.
      destruct f as [pa pk pv phg pr|pl pa pk pv phg]; cbn [fill rep frame_addr] in *.
      * destruct Hs as (_ & (Ha & _) & _). by eexists.
      * destruct Hs as (_ & _ & (Ha & _)). by eexists.
    + eapply IH; [exact Hrep|]. apply root_fill.
Qed.

(** ** Sequences of public operations *)

Lemma Shape_empty : Shape ∅ empty_map Leaf.
Proof. split; [done|done|constructor|constructor]. Qed.

Lemma operator_index_spec h m t k :
  Shape h m t →
  ∃ a h' m' t',
    operator_index h m k = Some (a, h', m')
    ∧ Shape h' m' t'
    ∧ (∃ v, (a, k, v) ∈ items t')
    ∧ (k ∈ keys t → h' = h ∧ m' = m ∧ t' = t)
    ∧ (k ∉ keys t → a = new_addr h ∧ items t' ≡ₚ (a, k, 0) :: items t
                     ∧ size_ m' = wrap32 (size_ m + 1))
    ∧ (depth_ok 0 t → depth_ok 0 t').
Proof.
  intros HS. unfold operator_index. destruct (decide (k ∈ keys t)) as [Hk|Hk].
  - destruct (operator_index_found h m t k HS Hk) as (a & v & -> & Hin).
    cbn. exists a, h, m, t. split_and!; eauto. done.
  - destruct (operator_index_absent h m t k HS Hk)
      as (h' & m' & t' & log & -> & HS' & Hit & Hsz & Hd & Hfr).
    cbn. exists (new_addr h), h', m', t'. split_and!; try done.
    exists 0. rewrite Hit. by left.
Qed.

Lemma Sized_index m t m' t' a k v :
  Sized m t → size_ m + 1 < 2 ^ 32 →
  items t' ≡ₚ (a, k, v) :: items t → size_ m' = wrap32 (size_ m + 1) →
  Sized m' t' ∧ size_ m' = size_ m + 1.
Proof.
  intros [Heq Hlt] Hb Hit Hsz. unfold wrap32 in Hsz.
  rewrite Z.mod_small in Hsz by lia. split; [|done]. split; [|lia].
  unfold count in *. rewrite Hit. cbn [length]. lia.
Qed.

Lemma erase_spec h m t a :
  Shape h m t → a ∈ addrs t →
  ∃ h' m' t' nodes log,
    erase_log h m (Some a) = Some (h', m', nodes, log)
    ∧ Shape h' m' t'
    ∧ count t = S (count t')
    ∧ size_ m' = wrap32 (size_ m - 1)
    ∧ keys t' `sublist_of` keys t
    ∧ chain_up h a (reverse nodes) None
    ∧ examined log = nodes.
Proof.
  intros HS Hin. destruct (locate t a Hin) as (c & l & k & v & hg & r & ->).
  destruct (erase_located h m c l a k v hg r HS)
    as (h' & m' & t' & af & log & Hrun & HS' & Hit & Hsz & Haf & Hfree & Hfr).
  exists h', m', t', (reverse (frame_addr <$> c)), log. split; [done|].
  split_and!; [done| |done| | |].
  - unfold count. rewrite Hit, !items_plug, !length_app.
    pose proof (delete_here_count l a k v hg r) as Hc. unfold count in Hc. lia.
  - unfold keys at 1. rewrite Hit. fold (keys (plug c (delete_here (T l a k v hg r)))).
    rewrite !keys_plug. apply sublist_app; [done|]. apply sublist_app; [|done].
    apply delete_here_keys.
  - rewrite reverse_involutive. eapply chain_up_ctx; [apply HS|done].
  - unfold erase_log in Hrun. rewrite decide_False in Hrun by done.
    cbn [mbind option_bind] in Hrun.
    destruct (GetVisitedNodes _ _ _ _) as [nodes|]; [|done]. cbn [mbind option_bind] in Hrun.
    destruct (h !! a) as [n|]; [|done]. cbn [mbind option_bind] in Hrun.
    destruct (DeleteItem _ _ _ _ _) as [[h1 m1]|]; [|done]. cbn [mbind option_bind] in Hrun.
    destruct (BalanceTree _ _ _ _ _) as [[[h2 m2] log2]|] eqn:Hbt; [|done].
    cbn in Hrun. injection Hrun as <- <- <- <-.
    by eapply BalanceTree_log_erase.
Qed.

Lemma Sized_erase m t m' t' :
  Sized m t → count t = S (count t') → size_ m' = wrap32 (size_ m - 1) →
  Sized m' t' ∧ size_ m' = size_ m - 1.
Proof.
  intros [Heq Hlt] Hc Hsz. unfold wrap32 in Hsz.
  rewrite Z.mod_small in Hsz by lia. split; [|done]. split; lia.
Qed.

(** Every sequence of operations runs to completion and leaves a
    well-linked search tree. *)
Lemma run_op_Shape o h m t :
  Shape h m t → ∃ h' m' t', run_op o h m = Some (h', m') ∧ Shape h' m' t'.
Proof.
  intros HS. destruct o as [k|k]; cbn [run_op].
  - destruct (operator_index_spec h m t k HS) as (a & h' & m' & t' & -> & HS' & _).
    cbn. by exists h', m', t'.
  - unfold find. rewrite (Shape_find h m t k HS). cbn [mbind option_bind].
    destruct (find_t t k) as [a|] eqn:Hf.
    + destruct (find_t_Some _ _ _ Hf) as [v Hv].
      destruct (erase_spec h m t a HS) as (h' & m' & t' & nodes & log & Hrun & HS' & _).
      { unfold addrs. apply list_elem_of_fmap. by exists (a, k, v). }
      unfold erase. rewrite Hrun. cbn. by exists h', m', t'.
    + unfold erase, erase_log. cbn. by exists h, m, t.
Qed.

Lemma run_Shape ops h m t :
  Shape h m t → ∃ h' m' t', run ops h m = Some (h', m') ∧ Shape h' m' t'.
Proof.
  revert h m t. induction ops as [|o ops IH]; intros h m t HS; cbn [run].
  - by exists h, m, t.
  - destruct (run_op_Shape o h m t HS) as (h1 & m1 & t1 & -> & HS1).
    cbn. by apply (IH h1 m1 t1).
Qed.

Lemma insert_all_Shape ks h m t :
  Shape h m t →
  ∃ h' m' t',
    insert_all ks h m = Some (h', m')
    ∧ Shape h' m' t'
    ∧ (∀ x, x ∈ keys t' ↔ x ∈ ks ∨ x ∈ keys t)
    ∧ (depth_ok 0 t → depth_ok 0 t').
Proof.
  revert h m t. induction ks as [|k ks IH]; intros h m t HS; cbn [insert_all].
  - exists h, m, t. split_and!; try done. intros x. split; [auto|].
    intros [Hx|Hx]; [by apply elem_of_nil in Hx|done].
  - destruct (operator_index_spec h m t k HS)
      as (a & h1 & m1 & t1 & -> & HS1 & Hin & Hold & Hnew & Hd).
    cbn. destruct (IH h1 m1 t1 HS1) as (h2 & m2 & t2 & -> & HS2 & Hk2 & Hd2).
    exists h2, m2, t2. split_and!; [done|done| |auto].
    intros x. rewrite Hk2, elem_of_cons.
    destruct (decide (k ∈ keys t)) as [Hk|Hk].
    + destruct (Hold Hk) as (_ & _ & ->). split; [tauto|].
      intros [[->|?]|?]; auto.
    + destruct (Hnew Hk) as (_ & Hit & _).
      assert (keys t1 ≡ₚ k :: keys t) as Hp by (unfold keys; by rewrite Hit).
      rewrite Hp, elem_of_cons. tauto.
Qed.

(** ** Balance across insertion *)

Lemma avl_redepth d t : avl (redepth d t) ↔ avl t.
Proof.
  revert d. induction t as [|l IHl a k v hg r IHr]; intros d; cbn [redepth avl]; [done|].
  by rewrite !theight_redepth, IHl, IHr.
Qed.

Lemma balanced_spec l a k v hg r :
  balanced (T l a k v hg r) = true ↔ Z.abs (theight l - theight r) ≤ 1.
Proof. cbn. by rewrite bool_decide_eq_true. Qed.

(** A rotation at a node whose children are balanced trees, two levels
    apart, the taller one tilted or grown on the outside: the result is
    balanced and one level lower. *)
Lemma balance_node_avl d l a k v hg r :
  avl l → avl r → Z.abs (theight l - theight r) = 2 →
  (theight l > theight r → tilted l) → (theight r > theight l → tilted r) →
  avl (balance_node d (T l a k v hg r))
  ∧ theight (balance_node d (T l a k v hg r)) = Z.max (theight l) (theight r).
Proof.
  intros Hl Hr Hbal Htl Htr. unfold balance_node.
  rewrite decide_False by lia.
  destruct (decide (theight l - theight r > 1)) as [Hgt|Hgt].
  - destruct l as [|ll x kx vx hx lr].
    { pose proof (theight_ge r). cbn [theight] in *. lia. }
    specialize (Htl ltac:(lia)). cbn [tilted] in Htl.
    destruct Hl as (Hbl & Hll & Hlr). cbn [theight] in *.
    pose proof (theight_ge ll). pose proof (theight_ge lr). pose proof (theight_ge r).
    destruct (decide (theight ll >= theight lr)).
    + rewrite avl_redepth, theight_redepth. cbn [rot_right avl theight].
      split; [split_and!; try done; lia|lia].
    + destruct lr as [|lrl z kz vz hz lrr]; [cbn in *; lia|].
      destruct Hlr as (Hbz & Hlrl & Hlrr). cbn [theight] in *.
      rewrite avl_redepth, theight_redepth.
      cbn [rot_left redepth rot_right avl theight].
      rewrite !avl_redepth, !theight_redepth. cbn [avl theight].
      pose proof (theight_ge lrl). pose proof (theight_ge lrr).
      split; [split_and!; try done; lia|lia].
  - destruct r as [|rl x kx vx hx rr].
    { pose proof (theight_ge l). cbn [theight] in *. lia. }
    specialize (Htr ltac:(cbn [theight] in *; lia)). cbn [tilted] in Htr.
    destruct Hr as (Hbr & Hrl & Hrr). cbn [theight] in *.
    pose proof (theight_ge rl). pose proof (theight_ge rr). pose proof (theight_ge l).
    destruct (decide (theight rr >= theight rl)).
    + rewrite avl_redepth, theight_redepth. cbn [rot_left avl theight].
      split; [split_and!; try done; lia|lia].
    + destruct rl as [|rll z kz vz hz rlr]; [cbn in *; lia|].
      destruct Hrl as (Hbz & Hrll & Hrlr). cbn [theight] in *.
      rewrite avl_redepth, theight_redepth.
      cbn [rot_right redepth rot_left avl theight].
      rewrite !avl_redepth, !theight_redepth. cbn [avl theight].
      pose proof (theight_ge rll). pose proof (theight_ge rlr).
      split; [split_and!; try done; lia|lia].
Qed.

Lemma walk_step_avl d l a k v hg r l0 r0 stop :
  avl l → avl r → Z.abs (theight l0 - theight r0) ≤ 1 →
  (l = l0 ∨ r = r0) →
  (stop = true → theight l = theight l0 ∧ theight r = theight r0) →
  (stop = false →
     (theight l = theight l0 ∧ theight r = theight r0)
     ∨ (theight l = theight l0 + 1 ∧ tilted l ∧ r = r0)
     ∨ (theight r = theight r0 + 1 ∧ tilted r ∧ l = l0)) →
  let p := walk_step d (T l a k v hg r) stop in
  let h0 := 1 + Z.max (theight l0) (theight r0) in
  avl p.1
  ∧ (p.2 = true → theight p.1 = h0)
  ∧ (p.2 = false → theight p.1 = h0 ∨ (theight p.1 = h0 + 1 ∧ tilted p.1)).
Proof.
  intros Hl Hr Hbal0 Hside Hstop Hgo p h0. subst p h0. unfold walk_step.
  destruct stop.
  { destruct (Hstop eq_refl) as [El Er]. cbn [fst snd avl theight].
    split_and!; [lia|done|done|lia|done]. }
  destruct (balanced (T l a k v hg r)) eqn:Hb.
  - apply balanced_spec in Hb. cbn [fst snd avl theight tilted].
    split_and!; [done|done|done|done|]. intros _.
    destruct (Hgo eq_refl) as [[El Er]|[(El & Ht & ->)|(Er & Ht & ->)]].
    + left. lia.
    + destruct (decide (theight l0 >= theight r0)); [right|left]; [|lia].
      split; [lia|]. left. lia.
    + destruct (decide (theight r0 >= theight l0)); [right|left]; [|lia].
      split; [lia|]. left. lia.
  - apply not_true_iff_false in Hb. rewrite balanced_spec in Hb.
    cbn [fst snd].
    destruct (Hgo eq_refl) as [[El Er]|[(El & Ht & ->)|(Er & Ht & ->)]]; [lia| |].
    + destruct (balance_node_avl d l a k v hg r0) as [Ha Hh]; [done|done|lia|done|lia|].
      split_and!; [done| |done]. intros _. rewrite Hh. lia.
    + destruct (balance_node_avl d l0 a k v hg r) as [Ha Hh]; [done|done|lia|lia|done|].
      split_and!; [done| |done]. intros _. rewrite Hh. lia.
Qed.

(** Insertion with its walk keeps a balanced tree balanced, and a walk
    that rotated leaves the height as it was. *)
Lemma ins_walk_avl anew d k v t :
  avl t → k ∉ keys t →
  avl (ins_walk anew d k v t).1
  ∧ ((ins_walk anew d k v t).2 = true →
       theight (ins_walk anew d k v t).1 = theight t)
  ∧ ((ins_walk anew d k v t).2 = false →
       theight (ins_walk anew d k v t).1 = theight t
       ∨ (theight (ins_walk anew d k v t).1 = theight t + 1
          ∧ tilted (ins_walk anew d k v t).1)).
Proof.
  revert d. induction t as [|l IHl a k' v' hg r IHr]; intros d Ha Hk.
  { cbn. split_and!; [lia|done|done|done|]. intros _. right. split; [done|]. by right. }
  rewrite keys_T in Hk. apply not_elem_of_app in Hk as [Hkl Hkr].
  apply not_elem_of_cons in Hkr as [Hne Hkr].
  destruct Ha as (Hbal & Hal & Har). cbn [ins_walk].
  destruct (decide (k < k')); [|destruct (decide (k > k')); [|lia]].
  - destruct (IHl (hg + 1) Hal Hkl) as (Ha' & Hs & Hg).
    apply (walk_step_avl d _ a k' v' hg r l r); [done|done|done|by right| |].
    + intros E. split; [by apply Hs|done].
    + intros E. destruct (Hg E) as [?|[? ?]]; [left|right; left]; done.
  - destruct (IHr (hg + 1) Har Hkr) as (Ha' & Hs & Hg).
    apply (walk_step_avl d l a k' v' hg _ l r); [done|done|done|by left| |].
    + intros E. split; [done|by apply Hs].
    + intros E. destruct (Hg E) as [?|[? ?]]; [left|right; right]; done.
Qed.

(** The walk of [BalanceTree] over the stack that [InsertItem] left is
    [ins_walk]: below [rest], either it rotated once and stopped, or it
    changed nothing and goes on with [rest]. *)
Lemma BalanceTree_ins_walk anew k v t : ∀ c rest fuel h m,
  k ∉ keys t →
  Shape h m (plug c (ins anew (ctx_depth c) k v t)) →
  (count (plug c (ins anew (ctx_depth c) k v t)) < fuel)%nat →
  if (ins_walk anew (ctx_depth c) k v t).2
  then ∃ h' m' log,
         BalanceTree fuel (ins_path k t ++ rest) true h m = Some (h', m', log)
         ∧ Shape h' m' (plug c (ins_walk anew (ctx_depth c) k v t).1)
  else (ins_walk anew (ctx_depth c) k v t).1 = ins anew (ctx_depth c) k v t
       ∧ BalanceTree fuel (ins_path k t ++ rest) true h m
         = ('(h', m', log) ← BalanceTree fuel rest true h m;
            Some (h', m', (Examine <$> ins_path k t) ++ log)).
Proof.
  induction t as [|l IHl a k' v' hg r IHr]; intros c rest fuel h m Hk HS Hf.
  { cbn [ins_walk ins ins_path snd fst app fmap list_fmap]. split; [done|].
    by destruct (BalanceTree fuel rest true h m) as [[[? ?] ?]|]. }
  rewrite keys_T in Hk. apply not_elem_of_app in Hk as [Hkl Hkr].
  apply not_elem_of_cons in Hkr as [Hne Hkr].
  cbn [ins ins_walk ins_path] in *.
  destruct (decide (k < k')); [|destruct (decide (k > k')); [|lia]].
  - specialize (IHl (FL a k' v' hg r :: c) (a :: rest) fuel h m Hkl HS Hf).
    cbn [ctx_depth frame_hg plug fill] in IHl.
    rewrite <- app_assoc. cbn [app].
    destruct (ins_walk anew (hg + 1) k v l) as [l' stop]. cbn [fst snd] in *.
    unfold walk_step. destruct stop; [exact IHl|].
    destruct IHl as [-> Hrun]. rewrite Hrun.
    destruct (BalanceNode_spec fuel h m c _ a k' v' hg r HS Hf)
      as (h1 & m1 & log1 & Hbn & HS1 & _).
    destruct (BalanceNode_log _ _ _ _ _ _ _ _ Hbn) as (rots & -> & Hno & _).
    cbn [BalanceTree]. rewrite Hbn. cbn [mbind option_bind].
    destruct (balanced _) eqn:Hb; cbn [fst snd].
    + apply balanced_spec in Hb. rewrite bool_decide_false in Hbn, Hno |- * by tauto.
      destruct (Hno eq_refl) as (-> & -> & ->). split; [done|]. cbn [andb].
      destruct (BalanceTree fuel rest true h m) as [[[? ?] ?]|]; [|done].
      cbn. by rewrite fmap_app, <- app_assoc.
    + apply not_true_iff_false in Hb. rewrite balanced_spec in Hb.
      rewrite bool_decide_true by done. cbn. by eexists _, _, _.
  - specialize (IHr (FR l a k' v' hg :: c) (a :: rest) fuel h m Hkr HS Hf).
    cbn [ctx_depth frame_hg plug fill] in IHr.
    rewrite <- app_assoc. cbn [app].
    destruct (ins_walk anew (hg + 1) k v r) as [r' stop]. cbn [fst snd] in *.
    unfold walk_step. destruct stop; [exact IHr|].
    destruct IHr as [-> Hrun]. rewrite Hrun.
    destruct (BalanceNode_spec fuel h m c l a k' v' hg _ HS Hf)
      as (h1 & m1 & log1 & Hbn & HS1 & _).
    destruct (BalanceNode_log _ _ _ _ _ _ _ _ Hbn) as (rots & -> & Hno & _).
    cbn [BalanceTree]. rewrite Hbn. cbn [mbind option_bind].
    destruct (balanced _) eqn:Hb; cbn [fst snd].
    + apply balanced_spec in Hb. rewrite bool_decide_false in Hbn, Hno |- * by tauto.
      destruct (Hno eq_refl) as (-> & -> & ->). split; [done|]. cbn [andb].
      destruct (BalanceTree fuel rest true h m) as [[[? ?] ?]|]; [|done].
      cbn. by rewrite fmap_app, <- app_assoc.
    + apply not_true_iff_false in Hb. rewrite balanced_spec in Hb.
      rewrite bool_decide_true by done. cbn. by eexists _, _, _.
Qed.

(** [operator[]] keeps a balanced tree balanced. *)
Lemma operator_index_avl h m t k :
  Shape h m t → avl t →
  ∃ a h' m' t',
    operator_index h m k = Some (a, h', m') ∧ Shape h' m' t' ∧ avl t'.
Proof.
  intros HS Ha. unfold operator_index.
  destruct (decide (k ∈ keys t)) as [Hk|Hk].
  { destruct (operator_index_found h m t k HS Hk) as (a & v & -> & _).
    by exists a, h, m, t. }
  destruct (operator_index_absent h m t k HS Hk)
    as (h' & m' & t' & log & Hrun & HS' & _).
  rewrite Hrun. cbn [mbind option_bind]. exists (new_addr h), h', m'.
  exists (ins_walk (new_addr h) 0 k 0 t).1. split; [done|].
  split; [|by apply ins_walk_avl].
  unfold operator_index_log in Hrun. rewrite (Shape_find h m t k HS) in Hrun.
  assert (find_t t k = None) as Hnone by (apply find_t_None; [by destruct HS|done]).
  rewrite Hnone in Hrun. cbn [mbind option_bind] in Hrun.
  destruct (InsertItem_Shape h m t k 0 HS Hk) as (r & h1 & Hins & HS1 & _).
  rewrite Hins in Hrun. cbn [mbind option_bind] in Hrun.
  pose proof (BalanceTree_ins_walk (new_addr h) k 0 t [] [] (fuel_of h1) h1 _ Hk HS1
                (Shape_fuel _ _ _ HS1)) as Hwalk.
  cbn [ctx_depth plug] in Hwalk. rewrite app_nil_r in Hwalk.
  destruct (ins_walk (new_addr h) 0 k 0 t) as [t1 stop]. cbn [fst snd] in *.
  destruct stop.
  - destruct Hwalk as (h2 & m2 & log2 & Hbt & HS2). rewrite Hbt in Hrun.
    cbn [mbind option_bind] in Hrun.
    destruct (FindNode (fuel_of h2) h2 (mRoot m2) k) as [[a|]|]; [|done|done].
    cbn [mbind option_bind] in Hrun. destruct (h2 !! a); [|done].
    cbn [mbind option_bind] in Hrun. by injection Hrun as _ <- <- _.
  - destruct Hwalk as [-> Hbt]. rewrite Hbt in Hrun.
    cbn [BalanceTree mbind option_bind] in Hrun.
    destruct (FindNode (fuel_of h1) h1 _ k) as [[a|]|]; [|done|done].
    cbn [mbind option_bind] in Hrun. destruct (h1 !! a); [|done].
    cbn [mbind option_bind] in Hrun. by injection Hrun as _ <- <- _.
Qed.

Lemma insert_all_avl ks h m t :
  Shape h m t → avl t →
  ∃ h' m' t', insert_all ks h m = Some (h', m') ∧ Shape h' m' t' ∧ avl t'.
Proof.
  revert h m t. induction ks as [|k ks IH]; intros h m t HS Ha; cbn [insert_all].
  - by exists h, m, t.
  - destruct (operator_index_avl h m t k HS Ha) as (a & h1 & m1 & t1 & -> & HS1 & Ha1).
    cbn. by apply (IH h1 m1 t1).
Qed.

(** Insertions alone keep the tree a balanced search tree: whatever keys
    [operator[]] is given, from the empty map on. *)
Lemma insertions_keep_avl ks :
  ∃ h m t, insert_all ks ∅ empty_map = Some (h, m)
    ∧ Shape h m t ∧ bst t ∧ avl t.
Proof.
  destruct (insert_all_avl ks ∅ empty_map Leaf Shape_empty I) as (h & m & t & Hrun & HS & Ha).
  exists h, m, t. split_and!; [done|done|by destruct HS|done].
Qed.

(** * The properties of the container *)

Lemma StronglySorted_reverse {A} (R : relation A) (l : list A) :
  StronglySorted R l → StronglySorted (flip R) (reverse l).
Proof.
  induction 1 as [|x l Hs IH Hall]; [constructor|].
  rewrite reverse_cons. apply StronglySorted_app. split_and!.
  - intros y z Hy Hz. apply list_elem_of_singleton in Hz as ->.
    rewrite elem_of_reverse in Hy. rewrite Forall_forall in Hall. exact (Hall y Hy).
  - done.
  - repeat constructor.
Qed.

Lemma bst_NoDup t : bst t → NoDup (keys t).
Proof.
  unfold bst. induction 1 as [|x l Hs IH Hall]; constructor; [|done].
  intros Hin. rewrite Forall_forall in Hall. specialize (Hall x Hin). lia.
Qed.

(** The stored height of a node of a depth-labelled tree is its parent's
    stored height plus one, and 0 at the root. *)
Lemma depth_ok_store h m t a :
  Shape h m t → depth_ok 0 t → a ∈ addrs t →
  ∃ n, h !! a = Some n ∧ child_height h (parent n) = Some (height n).
Proof.
  intros [Hrep _ _ _] Hd Hin.
  destruct (locate t a Hin) as (c & l & k & v & hg & r & ->).
  apply rep_plug in Hrep as ((Ha & _) & Hc).
  apply depth_ok_plug_inv in Hd as (-> & _).
  eexists. split; [exact Ha|]. cbn [parent height].
  by eapply rep_ctx_child_height.
Qed.

Lemma Shape_subtree_height h m c s :
  Shape h m (plug c s) →
  GetSubtreeHeight (fuel_of h) h (root s) = Some (theight s).
Proof.
  intros HS. pose proof (Shape_fuel _ _ _ HS) as Hf. destruct HS as [Hrep _ _ _].
  apply rep_plug in Hrep as (Hs & _). pose proof (count_plug_le c s).
  eapply GetSubtreeHeight_spec; [done|lia].
Qed.

(** ** Example maps *)

Ltac shape_by_computation :=
  split;
  [ cbn [rep root]; split_and!; try done; vm_compute; reflexivity
  | reflexivity
  | refine (bool_decide_unpack _ _); vm_compute; exact I
  | refine (bool_decide_unpack _ _); vm_compute; exact I ].

Lemma Shape_10_20_30 : Shape store_10_20_30 map_10_20_30 tree_10_20_30.
Proof. shape_by_computation. Qed.

Lemma Shape_10_20 : Shape store_10_20 map_10_20 tree_10_20.
Proof. shape_by_computation. Qed.

Lemma Shape_20_10_30_40 : Shape store_20_10_30_40 map_20_10_30_40 tree_20_10_30_40.
Proof. shape_by_computation. Qed.

Lemma Shape_spine : Shape store_spine map_spine tree_spine.
Proof. shape_by_computation. Qed.

(** ** Balance after erase *)

(** C1 (the code departs from the claim): after [m[20]; m[10]; m[30];
    m[40]] the tree is balanced, and [erase(find(20))] on the root, which
    has two children, leaves the search tree 10 -> 30 -> 40 whose root has
    an absent left child and a right subtree of height 1: the balance
    [GetSubtreeBalance] computes there is -2, so the AVL condition fails.
    The stack [erase] hands to [BalanceTree] is empty. *)
Theorem erase_breaks_avl_balance :
  run [Index 20; Index 10; Index 30; Index 40] ∅ empty_map
  = Some (store_20_10_30_40, map_20_10_30_40)
  ∧ Shape store_20_10_30_40 map_20_10_30_40 tree_20_10_30_40
  ∧ avl tree_20_10_30_40
  ∧ find store_20_10_30_40 map_20_10_30_40 20 = Some (Some 1%positive)
  ∧ erase_log store_20_10_30_40 map_20_10_30_40 (Some 1%positive)
    = Some (store_spine, map_spine, [], [])
  ∧ run [Index 20; Index 10; Index 30; Index 40; Erase 20] ∅ empty_map
    = Some (store_spine, map_spine)
  ∧ Shape store_spine map_spine tree_spine
  ∧ ¬ avl tree_spine
  ∧ GetSubtreeBalance (fuel_of store_spine) store_spine (mRoot map_spine) = Some (-2).
Proof.
  split_and!.
  - by vm_compute.
  - exact Shape_20_10_30_40.
  - cbn. lia.
  - by vm_compute.
  - by vm_compute.
  - by vm_compute.
  - exact Shape_spine.
  - cbn. lia.
  - by vm_compute.
Qed.

(** ** The order of the walk after erase *)

(** The stack [GetVisitedNodes] builds has the root on top: for a node
    under the context [c] it is the list of ancestors, outermost first. *)
Lemma erase_stack_root_first h m c l a k v hg r :
  Shape h m (plug c (T l a k v hg r)) →
  GetVisitedNodes (fuel_of h) h a [] = Some (reverse (frame_addr <$> c)).
Proof.
  intros HS. pose proof (Shape_fuel _ _ _ HS).
  pose proof (count_plug_length c (T l a k v hg r)).
  eapply GetVisitedNodes_spec; [apply HS|lia].
Qed.

(** C2 (the code departs from the claim): the ancestors are collected, and
    none is skipped after a rotation, but they are popped root first.
    Erasing the leaf 40 (node 4) of the map of 20, 10, 30, 40 examines the
    root (node 1) and then the parent (node 3).  On the twelve-key map,
    erasing the leaf 10 (node 4) examines the root 50 (node 1) while its
    subtrees still differ by one, then rotates at the parent 20 (node 2);
    the subtree of 20 loses a level and the root is left with balance -2,
    which nearest-first order would have found. *)
Theorem erase_examines_root_first :
  chain_up store_20_10_30_40 4%positive [3%positive; 1%positive] None
  ∧ erase_log store_20_10_30_40 map_20_10_30_40 (Some 4%positive)
    = Some (store_20_10_30, map_20_10_30, [1%positive; 3%positive],
            [Examine 1%positive; Examine 3%positive])
  ∧ ('(h, m) ← insert_all twelve_keys ∅ empty_map;
     it ← find h m 10;
     before ← GetSubtreeBalance (fuel_of h) h (mRoot m);
     '(h', m', nodes, log) ← erase_log h m it;
     after ← GetSubtreeBalance (fuel_of h') h' (mRoot m');
     Some (it, mRoot m, parent <$> h !! 4%positive, parent <$> h !! 2%positive,
           before, nodes, log, mRoot m', after))
    = Some (Some 4%positive, Some 1%positive, Some (Some 2%positive),
            Some (Some 1%positive), -1, [1%positive; 2%positive],
            [Examine 1%positive; Examine 2%positive; RotL (Some 2%positive)],
            Some 1%positive, -2).
Proof.
  split_and!.
  - cbn. split_and!; eexists; (split; [by vm_compute|done]).
  - by vm_compute.
  - by vm_compute.
Qed.

(** ** The stored height field *)

(** C3 fails after [m[10]; m[20]]: the root 10 has subtree height 1 and
    stored height 0, the leaf 20 has subtree height 0 and stored height
    1. *)
Lemma stored_height_not_subtree_height : ¬ stored_height_is_subtree_height.
Proof.
  intros Hclaim.
  destruct (Hclaim [Index 10; Index 20] store_10_20 map_10_20 tree_10_20)
    as (Hroot & _); [by vm_compute|exact Shape_10_20|].
  cbn in Hroot. lia.
Qed.

(** C3 (amended): after any sequence of find-or-insert calls on an empty
    map the stored height of every node is its depth, 0 at the root and
    the parent's stored height plus one below, and the true height of
    every subtree (absent -1, leaf 0, one more than the larger child) is
    what [GetSubtreeHeight] recomputes on demand. *)
Theorem stored_height_is_depth (ks : list Z) :
  ∃ h m t,
    insert_all ks ∅ empty_map = Some (h, m)
    ∧ Shape h m t
    ∧ depth_ok 0 t
    ∧ (∀ a, a ∈ addrs t →
         ∃ n, h !! a = Some n ∧ child_height h (parent n) = Some (height n))
    ∧ (∀ c s, t = plug c s →
         GetSubtreeHeight (fuel_of h) h (root s) = Some (theight s)).
Proof.
  destruct (insert_all_Shape ks ∅ empty_map Leaf Shape_empty)
    as (h & m & t & Hrun & HS & _ & Hd).
  exists h, m, t. split_and!; [done|done|by apply Hd| |].
  - intros a Ha. eapply depth_ok_store; [done|by apply Hd|done].
  - intros c s ->. by eapply Shape_subtree_height.
Qed.

(** ** Move *)

(** C4 fails when the destination of a move assignment is not empty: the
    source receives the destination's former tree. *)
Lemma move_assign_source_not_reset : ¬ move_assign_resets_source.
Proof.
  intros Hclaim.
  specialize (Hclaim store_two_maps (mkMap (Some 1%positive) 1) (mkMap (Some 2%positive) 1)).
  vm_compute in Hclaim. discriminate Hclaim.
Qed.

(** C4 (amended): move construction hands the source's root and size to
    the new map and leaves the source empty; move assignment swaps root
    and size of the two maps, so the source is left with the destination's
    former root and size (empty exactly when the destination was); in
    both the store is unchanged, no node is copied or freed. *)
Theorem move_transfers_root_and_size (h : store) (this rhs : AVLmap) :
  move_construct h rhs = (h, mkMap (mRoot rhs) (size_ rhs), empty_map)
  ∧ move_assign h this rhs
    = (h, mkMap (mRoot rhs) (size_ rhs), mkMap (mRoot this) (size_ this))
  ∧ (this = empty_map →
     move_assign h this rhs = (h, mkMap (mRoot rhs) (size_ rhs), empty_map)).
Proof.
  split_and!; [done|done|]. by intros ->.
Qed.

(** ** The scenario 10, 20, 30 *)

(** C9: inserting 10, 20, 30 into an empty map.  The third insertion
    examines node 2 (key 20), which is balanced, then node 1 (key 10),
    where it performs a single left rotation and stops; the result has 20
    at the root with children 10 and 30 and balance 0 at all three
    nodes. *)
Theorem scenario_10_20_30 :
  insert_all [10; 20] ∅ empty_map = Some (store_10_20, map_10_20)
  ∧ key <$> store_10_20 !! 1%positive = Some 10
  ∧ operator_index_log store_10_20 map_10_20 30
    = Some (3%positive, store_10_20_30, map_10_20_30,
            [Examine 2%positive; Examine 1%positive; RotL (Some 1%positive)])
  ∧ insert_all [10; 20; 30] ∅ empty_map = Some (store_10_20_30, map_10_20_30)
  ∧ Shape store_10_20_30 map_10_20_30 tree_10_20_30
  ∧ avl tree_10_20_30
  ∧ GetSubtreeBalance (fuel_of store_10_20_30) store_10_20_30 (Some 2%positive) = Some 0
  ∧ GetSubtreeBalance (fuel_of store_10_20_30) store_10_20_30 (Some 1%positive) = Some 0
  ∧ GetSubtreeBalance (fuel_of store_10_20_30) store_10_20_30 (Some 3%positive) = Some 0.
Proof.
  split_and!;
    [by vm_compute|by vm_compute|by vm_compute|by vm_compute
    |exact Shape_10_20_30|cbn; lia|by vm_compute|by vm_compute|by vm_compute].
Qed.

(** ** The rebalancing walk *)

(** C5: on inserting an absent key the stack [InsertItem] builds is the
    chain of ancestors of the new node, its parent on top and the root at
    the bottom; [BalanceTree] examines them in that order and its log ends
    with the rotation calls of the first unbalanced ancestor: nothing is
    examined after them.  On erasing a node the stack holds all its
    ancestors and the log shows every one of them examined. *)
Theorem rebalance_walk (h : store) (m : AVLmap) (t : tree) :
  Shape h m t →
  (∀ k, k ∉ keys t →
     ∃ r h1 m1 nodes h2 m2 log pre post rots,
       InsertItem (fuel_of h) h m (mRoot m) (mRoot m) k 0 [] = Some (r, h1, m1, nodes)
       ∧ chain_up h1 (new_addr h) nodes None
       ∧ BalanceTree (fuel_of h1) nodes true h1 m1 = Some (h2, m2, log)
       ∧ operator_index_log h m k = Some (new_addr h, h2, m2, log)
       ∧ nodes = pre ++ post
       ∧ log = (Examine <$> pre) ++ rots
       ∧ (rots = [] → post = [])
       ∧ (rots ≠ [] → ∃ y, list_last pre = Some y ∧ rotation_at y rots))
  ∧ (∀ a, a ∈ addrs t →
     ∃ h' m' nodes log,
       erase_log h m (Some a) = Some (h', m', nodes, log)
       ∧ chain_up h a (reverse nodes) None
       ∧ examined log = nodes).
Proof.
  intros HS. split.
  - intros k Hk.
    destruct (InsertItem_Shape h m t k 0 HS Hk) as (r & h1 & Hins & HS1 & Hfr1).
    destruct (BalanceTree_spec (fuel_of h1) (ins_path k t) true h1 _ _ HS1)
      as (h2 & m2 & t2 & log & Hbal & HS2 & Hit2 & Hsz2 & Hd2 & Hfr2).
    { by eapply Shape_fuel. }
    { intros y Hy. apply ins_path_addrs in Hy. rewrite (addrs_ins _ _ _ _ _ Hk). by right. }
    destruct (BalanceTree_log_insert _ _ _ _ _ _ _ Hbal)
      as (pre & post & rots & Hnodes & Hlog & Hnil & Hrot).
    destruct (operator_index_absent h m t k HS Hk)
      as (h' & m' & t' & log' & Hrun & _).
    pose proof Hrun as Hrun'. unfold operator_index_log in Hrun'.
    rewrite (Shape_find h m t k HS) in Hrun'.
    assert (find_t t k = None) as Hnone by (apply find_t_None; [by destruct HS|done]).
    rewrite Hnone in Hrun'. cbn [mbind option_bind] in Hrun'.
    rewrite Hins in Hrun'. cbn [mbind option_bind] in Hrun'.
    rewrite Hbal in Hrun'. cbn [mbind option_bind] in Hrun'.
    destruct (FindNode _ _ _ _) as [[a|]|]; try done. cbn [mbind option_bind] in Hrun'.
    destruct (h2 !! a); [|done]. cbn in Hrun'. injection Hrun' as -> <- <- <-.
    eexists r, h1, _, (ins_path k t), h2, m2, log, pre, post, rots.
    split_and!; try done.
    eapply chain_up_ins; [apply HS1|done].
  - intros a Ha.
    destruct (erase_spec h m t a HS Ha)
      as (h' & m' & t' & nodes & log & Hrun & _ & _ & _ & _ & Hchain & Hex).
    by exists h', m', nodes, log.
Qed.

Lemma rebalance_walk_witness :
  (∃ h2 m2 log pre rots,
     operator_index_log store_20_10_30_40 map_20_10_30_40 50
     = Some (new_addr store_20_10_30_40, h2, m2, log)
     ∧ log = (Examine <$> pre) ++ rots)
  ∧ (∃ nodes log,
       (∃ h' m', erase_log store_20_10_30_40 map_20_10_30_40 (Some 4%positive)
                 = Some (h', m', nodes, log))
       ∧ examined log = nodes).
Proof.
  destruct (rebalance_walk store_20_10_30_40 map_20_10_30_40 tree_20_10_30_40
              Shape_20_10_30_40) as [Hins Hdel].
  split.
  - destruct (Hins 50)
      as (r & h1 & m1 & nodes & h2 & m2 & log & pre & post & rots
          & _ & _ & _ & Hrun & _ & Hlog & _).
    { refine (bool_decide_unpack _ _). vm_compute. exact I. }
    by exists h2, m2, log, pre, rots.
  - destruct (Hdel 4%positive) as (h' & m' & nodes & log & Hrun & _ & Hex).
    { refine (bool_decide_unpack _ _). vm_compute. exact I. }
    exists nodes, log. split; [by exists h', m'|done].
Defined.

(** ** Find-or-insert on one key *)

(** C6: on a map of fewer than 2^32 - 1 entries, [m[k]] for an absent [k]
    allocates one new node holding [k] and the default value and raises
    [size] by one; for a present [k] it changes nothing.  Either way the
    tree then holds [k] exactly once, and every later [m[k]] returns the
    same node and leaves store and map as they are. *)
Theorem find_or_insert_single_node (h : store) (m : AVLmap) (t : tree) (k : Z) :
  Shape h m t → Sized m t → size_ m + 1 < 2 ^ 32 →
  ∃ a h1 m1 t1,
    operator_index h m k = Some (a, h1, m1)
    ∧ Shape h1 m1 t1 ∧ Sized m1 t1
    ∧ (∃ n, h1 !! a = Some n ∧ key n = k)
    ∧ (∃ pre post, keys t1 = pre ++ k :: post ∧ (k ∉ pre) ∧ (k ∉ post))
    ∧ (k ∈ keys t → h1 = h ∧ m1 = m ∧ t1 = t)
    ∧ (k ∉ keys t →
         h !! a = None
         ∧ (∃ n, h1 !! a = Some n ∧ value n = 0)
         ∧ size_ m1 = size_ m + 1
         ∧ keys t1 ≡ₚ k :: keys t)
    ∧ (∀ j, repeat_index j h1 m1 k = Some (a, h1, m1)).
Proof.
  intros HS HZ Hbound.
  destruct (operator_index_spec h m t k HS)
    as (a & h1 & m1 & t1 & Hrun & HS1 & [v Hin] & Hold & Hnew & _).
  exists a, h1, m1, t1.
  assert (k ∈ keys t1) as Hk1 by (apply keys_items; eauto).
  assert (operator_index h1 m1 k = Some (a, h1, m1)) as Hagain.
  { destruct (operator_index_found h1 m1 t1 k HS1 Hk1) as (a' & v' & Hrun' & Hin').
    unfold operator_index. rewrite Hrun'. cbn.
    assert (a' = a) as ->; [|done].
    pose proof (find_t_elem t1 k a v (shape_bst _ _ _ HS1) Hin) as E1.
    pose proof (find_t_elem t1 k a' v' (shape_bst _ _ _ HS1) Hin') as E2.
    congruence. }
  split_and!; [done|done| | | |done| |].
  - destruct (decide (k ∈ keys t)) as [Hk|Hk].
    + by destruct (Hold Hk) as (_ & -> & ->).
    + destruct (Hnew Hk) as (_ & Hit & Hsz).
      by destruct (Sized_index m t m1 t1 a k 0 HZ Hbound Hit Hsz).
  - destruct (rep_item h1 None t1 a k v (shape_rep _ _ _ HS1) Hin) as (n & Hn & Hkn & _).
    by exists n.
  - apply list_elem_of_split in Hk1 as (pre & post & E). exists pre, post.
    split; [done|]. pose proof (bst_NoDup t1 (shape_bst _ _ _ HS1)) as Hnd.
    rewrite E in Hnd. apply NoDup_app in Hnd as (_ & Hdisj & Hnd).
    apply NoDup_cons in Hnd as (Hpost & _). split; [|done].
    intros Hpre. apply (Hdisj k Hpre). by left.
  - intros Hk. destruct (Hnew Hk) as (-> & Hit & Hsz).
    destruct (Sized_index m t m1 t1 _ k 0 HZ Hbound Hit Hsz) as [_ Hsz'].
    split_and!; [apply new_addr_fresh| |done|].
    + assert ((new_addr h, k, 0) ∈ items t1) as Hin0 by (rewrite Hit; by left).
      destruct (rep_item h1 None t1 _ k 0 (shape_rep _ _ _ HS1) Hin0) as (n & Hn & _ & Hv).
      by exists n.
    + unfold keys. by rewrite Hit.
  - intros j. induction j as [|j IH]; cbn [repeat_index]; [done|].
    rewrite Hagain. cbn. exact IH.
Qed.

Lemma find_or_insert_single_node_witness :
  ∃ a h1 m1,
    operator_index store_10_20 map_10_20 30 = Some (a, h1, m1)
    ∧ repeat_index 2 h1 m1 30 = Some (a, h1, m1).
Proof.
  destruct (find_or_insert_single_node store_10_20 map_10_20 tree_10_20 30)
    as (a & h1 & m1 & t1 & Hrun & _ & _ & _ & _ & _ & _ & Hrep).
  - exact Shape_10_20.
  - split; [reflexivity|]. vm_compute. reflexivity.
  - vm_compute. reflexivity.
  - exists a, h1, m1. split; [exact Hrun|apply Hrep].
Defined.

(** ** The size after erase *)

(** C7: [erase(end())] returns at once with store and map unchanged; for
    an iterator on a node of the map, [erase] runs to completion, the
    tree loses one node and [size] drops by exactly one. *)
Theorem erase_size (h : store) (m : AVLmap) (t : tree) (it : ptr) :
  Shape h m t → Sized m t →
  (it = end_it → erase h m it = Some (h, m))
  ∧ (∀ a, it = Some a → a ∈ addrs t →
       ∃ h' m' t',
         erase h m it = Some (h', m')
         ∧ Shape h' m' t' ∧ Sized m' t'
         ∧ count t = S (count t')
         ∧ size_ m' = size_ m - 1).
Proof.
  intros HS HZ. split.
  - intros ->. done.
  - intros a -> Ha.
    destruct (erase_spec h m t a HS Ha)
      as (h' & m' & t' & nodes & log & Hrun & HS' & Hc & Hsz & _).
    destruct (Sized_erase m t m' t' HZ Hc Hsz) as [HZ' Hsz'].
    exists h', m', t'. unfold erase. rewrite Hrun. done.
Qed.

Lemma erase_size_witness :
  erase store_10_20_30 map_10_20_30 end_it = Some (store_10_20_30, map_10_20_30)
  ∧ ∃ h' m', erase store_10_20_30 map_10_20_30 (Some 2%positive) = Some (h', m')
             ∧ size_ m' = 2.
Proof.
  assert (Sized map_10_20_30 tree_10_20_30) as HZ.
  { split; [reflexivity|]. vm_compute. reflexivity. }
  split.
  - apply (proj1 (erase_size store_10_20_30 map_10_20_30 tree_10_20_30 end_it
                    Shape_10_20_30 HZ)). reflexivity.
  - destruct (proj2 (erase_size store_10_20_30 map_10_20_30 tree_10_20_30
                       (Some 2%positive) Shape_10_20_30 HZ) 2%positive eq_refl)
      as (h' & m' & t' & Hrun & _ & _ & _ & Hsz).
    { refine (bool_decide_unpack _ _). vm_compute. exact I. }
    exists h', m'. split; [exact Hrun|exact Hsz].
Defined.

(** ** Iteration order *)

(** C8: after inserting distinct keys into an empty map, walking from
    [begin()] with [increment] until the end yields exactly those keys in
    strictly ascending order, and walking from [last(root)] with
    [decrement] yields them in strictly descending order. *)
Theorem iteration_sorted (ks : list Z) :
  NoDup ks →
  ∃ h m fwd,
    insert_all ks ∅ empty_map = Some (h, m)
    ∧ keys_forward h m = Some fwd
    ∧ keys_backward h m = Some (reverse fwd)
    ∧ fwd ≡ₚ ks
    ∧ StronglySorted Z.lt fwd
    ∧ StronglySorted (flip Z.lt) (reverse fwd).
Proof.
  intros Hnd.
  destruct (insert_all_Shape ks ∅ empty_map Leaf Shape_empty)
    as (h & m & t & Hrun & HS & Hkeys & _).
  exists h, m, (keys t). split_and!; [done| | | | |].
  - by apply keys_forward_spec.
  - by apply keys_backward_spec.
  - apply NoDup_Permutation; [by apply bst_NoDup, HS|done|].
    intros x. rewrite Hkeys. split; [|auto]. intros [?|Hx]; [done|].
    by apply elem_of_nil in Hx.
  - apply HS.
  - apply StronglySorted_reverse, HS.
Qed.

Lemma iteration_sorted_witness :
  ∃ h m fwd,
    insert_all [30; 10; 20] ∅ empty_map = Some (h, m)
    ∧ keys_forward h m = Some fwd
    ∧ keys_backward h m = Some (reverse fwd)
    ∧ StronglySorted Z.lt fwd.
Proof.
  destruct (iteration_sorted [30; 10; 20])
    as (h & m & fwd & Hrun & Hf & Hb & Hp & Hs & _).
  { refine (bool_decide_unpack _ _). vm_compute. exact I. }
  exists h, m, fwd. split; [exact Hrun|]. split; [exact Hf|]. split; [exact Hb|exact Hs].
Defined.

(** ** Erasing a node with two children *)

(** C10: when the node [a] under the iterator has two children, [erase]
    frees its in-order predecessor [p] (what [decrement] returns for it)
    and keeps [a], which afterwards holds the key and value [p] held. *)
Theorem erase_two_children_keeps_node (h : store) (m : AVLmap) (t : tree)
    (a l r : addr) (n : Node) :
  Shape h m t → a ∈ addrs t → h !! a = Some n →
  left n = Some l → right n = Some r →
  ∃ p np h' m' n',
    decrement (fuel_of h) h a = Some (Some p)
    ∧ p ≠ a
    ∧ h !! p = Some np
    ∧ erase h m (Some a) = Some (h', m')
    ∧ h' !! p = None
    ∧ h' !! a = Some n'
    ∧ key n' = key np
    ∧ value n' = value np.
Proof.
  intros HS Ha Hn Hl Hr.
  destruct (locate t a Ha) as (c & tl & k & v & hg & tr & ->).
  pose proof (Shape_fuel _ _ _ HS) as Hf.
  pose proof HS as [Hrep Hroot Hnd Hb].
  pose proof Hrep as Hrep0. apply rep_plug in Hrep0 as ((Han & Htl & Htr) & Hc).
  rewrite Hn in Han. injection Han as ->. cbn [left right] in Hl, Hr.
  destruct tl as [|ll la lk lv lhg lr]; [done|].
  destruct tr as [|rl ra rk rv rhg rr]; [done|].
  set (tl := T ll la lk lv lhg lr) in *. set (tr := T rl ra rk rv rhg rr) in *.
  destruct (last_items_T ll la lk lv lhg lr) as [[[p kp] vp] Hlast]. fold tl in Hlast.
  assert (list_last (addrs tl) = Some p) as Hlastp.
  { unfold addrs. apply last_Some in Hlast as [pre ->]. rewrite fmap_app. cbn.
    by rewrite last_snoc. }
  assert ((p, kp, vp) ∈ items tl) as Hpin.
  { apply last_Some in Hlast as [pre ->]. apply elem_of_app. right. by left. }
  destruct (rep_item h (Some a) tl p kp vp Htl Hpin) as (np & Hnp & Hkp & Hvp).
  pose proof (decrement_spec (fuel_of h) h c tl a k v hg tr Hrep Hnd Hf) as Hdec.
  rewrite fmap_app, last_app in Hdec. fold (addrs tl) in Hdec. rewrite Hlastp in Hdec.
  destruct (erase_located h m c tl a k v hg tr HS)
    as (h' & m' & t' & af & log & Hrun & HS' & Hit & Hsz & Haf & Hfree & Hfr).
  assert (af = p) as ->.
  { unfold tl, tr in Haf. cbn [freed_addr] in Haf. fold tl in Haf. congruence. }
  assert ((a, kp, vp) ∈ items t') as Hain.
  { rewrite Hit, items_plug. unfold tl at 1, tr at 1. cbn [delete_here]. fold tl tr.
    rewrite Hlast. cbn [items]. apply elem_of_app. right. apply elem_of_app. left.
    apply elem_of_app. right. by left. }
  destruct (rep_item h' None t' a kp vp (shape_rep _ _ _ HS') Hain) as (n' & Hn' & Hk' & Hv').
  exists p, np, h', m', n'. split_and!; try done; try congruence.
  unfold erase. by rewrite Hrun.
Qed.

Lemma erase_two_children_keeps_node_witness :
  ∃ h' m' n',
    erase store_10_20_30 map_10_20_30 (Some 2%positive) = Some (h', m')
    ∧ h' !! 1%positive = None
    ∧ h' !! 2%positive = Some n'
    ∧ key n' = 10.
Proof.
  destruct (erase_two_children_keeps_node store_10_20_30 map_10_20_30 tree_10_20_30
              2%positive 1%positive 3%positive
              (mkNode 20 0 0 0 None (Some 1%positive) (Some 3%positive)))
    as (p & np & h' & m' & n' & Hdec & _ & Hnp & Hrun & Hp & Ha & Hk & _).
  - exact Shape_10_20_30.
  - refine (bool_decide_unpack _ _). vm_compute. exact I.
  - vm_compute. reflexivity.
  - reflexivity.
  - reflexivity.
  - assert (p = 1%positive) as ->.
    { assert (decrement (fuel_of store_10_20_30) store_10_20_30 2%positive
              = Some (Some 1%positive)) as E by (vm_compute; reflexivity).
      congruence. }
    assert (key np = 10) as Hk10.
    { assert (store_10_20_30 !! 1%positive
              = Some (mkNode 10 0 1 0 (Some 2%positive) None None)) as E
        by (vm_compute; reflexivity).
      pose proof (eq_trans (eq_sym Hnp) E) as E'. by injection E' as ->. }
    exists h', m', n'. split_and!; [exact Hrun|exact Hp|exact Ha|congruence].
Defined.

(** * Further properties of the code *)

(** ** The map as a finite function *)

Lemma bindings_keys t : (bindings t).*1 = keys t.
Proof. unfold bindings, keys. rewrite <- list_fmap_compose. done. Qed.

Lemma bindings_T l a k v hg r :
  bindings (T l a k v hg r) = bindings l ++ (k, v) :: bindings r.
Proof. unfold bindings. cbn [items]. by rewrite fmap_app. Qed.

Lemma bindings_items t k v : (k, v) ∈ bindings t ↔ ∃ a, (a, k, v) ∈ items t.
Proof.
  unfold bindings. rewrite list_elem_of_fmap. split.
  - intros ([[a k'] v'] & [= -> ->] & Hin). by exists a.
  - intros (a & Hin). by exists (a, k, v).
Qed.

Lemma contents_Some t k v :
  bst t → contents t !! k = Some v ↔ (k, v) ∈ bindings t.
Proof.
  intros Hb. unfold contents. symmetry. apply elem_of_list_to_map.
  rewrite bindings_keys. by apply bst_NoDup.
Qed.

Lemma contents_None t k : contents t !! k = None ↔ k ∉ keys t.
Proof. unfold contents. rewrite <- not_elem_of_list_to_map, bindings_keys. done. Qed.

Lemma contents_size t : bst t → size (contents t) = count t.
Proof.
  intros Hb. unfold contents. rewrite map_size_list_to_map.
  - unfold bindings, count. by rewrite length_fmap.
  - rewrite bindings_keys. by apply bst_NoDup.
Qed.

Lemma contents_perm t t' k v :
  bst t' → bindings t' ≡ₚ (k, v) :: bindings t →
  contents t' = <[k:=v]> (contents t).
Proof.
  intros Hb Hp. unfold contents.
  rewrite (list_to_map_proper (bindings t') ((k, v) :: bindings t)); [done| |done].
  rewrite bindings_keys. by apply bst_NoDup.
Qed.

(** [find] and the value read through the iterator agree with the finite
    function. *)
Lemma get_spec h m t k : Shape h m t → get h m k = Some (contents t !! k).
Proof.
  intros HS. unfold get, find. rewrite (Shape_find h m t k HS).
  cbn [mbind option_bind]. destruct (find_t t k) as [a|] eqn:Hf.
  - destruct (find_t_Some _ _ _ Hf) as [v Hv].
    destruct (rep_item h None t a k v (shape_rep _ _ _ HS) Hv) as (n & -> & _ & Hval).
    cbn [mbind option_bind]. rewrite Hval. do 2 f_equal. symmetry.
    apply contents_Some; [by destruct HS|]. apply bindings_items. by exists a.
  - f_equal. symmetry. apply contents_None. apply find_t_None; [by destruct HS|done].
Qed.

(** A store and a root pointer hold at most one tree. *)
Lemma rep_unique h par t t' :
  rep h par t → rep h par t' → root t = root t' → t = t'.
Proof.
  revert par t'. induction t as [|l IHl a k v hg r IHr]; intros par t' Hr Hr' Hroot.
  { destruct t'; [done|]. by cbn in Hroot. }
  destruct t' as [|l' a' k' v' hg' r']; [by cbn in Hroot|].
  cbn [root] in Hroot. injection Hroot as <-.
  destruct Hr as (Ha & Hl & Hrr). destruct Hr' as (Ha' & Hl' & Hrr').
  rewrite Ha in Ha'. injection Ha' as <- <- <- Hrl Hrrt.
  f_equal; [by eapply IHl|by eapply IHr].
Qed.

Lemma Shape_unique h m t t' : Shape h m t → Shape h m t' → t = t'.
Proof.
  intros [Hr Hroot _ _] [Hr' Hroot' _ _].
  eapply rep_unique; [done|done|congruence].
Qed.

Lemma rep_item_unique h par t a k v k' v' :
  rep h par t → (a, k, v) ∈ items t → (a, k', v') ∈ items t → k = k' ∧ v = v'.
Proof.
  intros Hr H1 H2.
  destruct (rep_item _ _ _ _ _ _ Hr H1) as (n & Hn & <- & <-).
  destruct (rep_item _ _ _ _ _ _ Hr H2) as (n' & Hn' & <- & <-).
  rewrite Hn in Hn'. by injection Hn' as <-.
Qed.

(** *** Overwriting a value *)

Lemma items_set_val a v t : items (set_val a v t) = upd_item a v <$> items t.
Proof.
  induction t as [|l IHl a' k v' hg r IHr]; [done|].
  cbn [set_val items]. rewrite fmap_app, fmap_cons, IHl, IHr.
  do 2 f_equal. unfold upd_item. cbn [fst snd]. by destruct (decide (a' = a)).
Qed.

Lemma addrs_set_val a v t : addrs (set_val a v t) = addrs t.
Proof.
  unfold addrs. rewrite items_set_val, <- list_fmap_compose.
  apply list_fmap_ext. intros i x _. unfold upd_item. cbn. by destruct (decide _).
Qed.

Lemma keys_set_val a v t : keys (set_val a v t) = keys t.
Proof.
  unfold keys. rewrite items_set_val, <- list_fmap_compose.
  apply list_fmap_ext. intros i x _. unfold upd_item. cbn. by destruct (decide _).
Qed.

Lemma root_set_val a v t : root (set_val a v t) = root t.
Proof. by destruct t. Qed.

Lemma theight_set_val a v t : theight (set_val a v t) = theight t.
Proof.
  induction t as [|l IHl a' k v' hg r IHr]; [done|]. cbn [set_val theight]. lia.
Qed.

Lemma avl_set_val a v t : avl (set_val a v t) ↔ avl t.
Proof.
  induction t as [|l IHl a' k v' hg r IHr]; [done|].
  cbn [set_val avl]. rewrite !theight_set_val, IHl, IHr. done.
Qed.

Lemma depth_ok_set_val a v d t : depth_ok d (set_val a v t) ↔ depth_ok d t.
Proof.
  revert d. induction t as [|l IHl a' k v' hg r IHr]; intros d; [done|].
  cbn [set_val depth_ok]. rewrite IHl, IHr. done.
Qed.

Lemma rep_set_val h par t a v n :
  rep h par t → h !! a = Some n →
  rep (<[a := set_value v n]> h) par (set_val a v t).
Proof.
  revert par. induction t as [|l IHl a' k v' hg r IHr]; intros par Hr Ha; [done|].
  destruct Hr as (Ha' & Hl & Hrr). cbn [set_val rep]. rewrite !root_set_val.
  split_and!; [|by apply IHl|by apply IHr].
  destruct (decide (a' = a)) as [->|Hne].
  - rewrite lookup_insert_eq. rewrite Ha' in Ha. by injection Ha as <-.
  - by rewrite lookup_insert_ne.
Qed.

Lemma upd_item_id a v (l : list (addr * Z * Z)) :
  a ∉ (λ x, x.1.1) <$> l → upd_item a v <$> l = l.
Proof.
  induction l as [|x l IH]; [done|]. rewrite fmap_cons, not_elem_of_cons.
  intros [Hne Hl]. rewrite fmap_cons, IH by done. f_equal.
  unfold upd_item. by rewrite decide_False.
Qed.

Lemma contents_set_val t a k v0 v :
  bst t → NoDup (addrs t) → (a, k, v0) ∈ items t →
  contents (set_val a v t) = <[k:=v]> (contents t).
Proof.
  intros Hb Hnd Hin. apply list_elem_of_split in Hin as (pre & post & Hit).
  unfold addrs in Hnd. rewrite Hit, fmap_app, fmap_cons in Hnd.
  apply NoDup_app in Hnd as (_ & Hpre & Hpost). apply NoDup_cons in Hpost as [Hpost _].
  assert (a ∉ (λ x, x.1.1) <$> pre) as Hpre'.
  { intros Hx. apply (Hpre a Hx). by left. }
  assert (NoDup (keys t)) as Hk by (by apply bst_NoDup).
  unfold contents, bindings. rewrite items_set_val, Hit, fmap_app, fmap_cons.
  rewrite !upd_item_id by done. unfold upd_item at 1. cbn [fst snd].
  rewrite decide_True by done. rewrite !fmap_app, !fmap_cons. cbn [fst snd].
  unfold keys in Hk. rewrite Hit in Hk.
  set (bp := (λ x, (x.1.2, x.2)) <$> pre). set (bq := (λ x, (x.1.2, x.2)) <$> post).
  assert (NoDup (k :: (bp ++ bq).*1)) as Hnd'.
  { rewrite fmap_app in Hk. rewrite fmap_app. rewrite fmap_cons in Hk. cbn [fst snd] in Hk.
    subst bp bq. rewrite <- !list_fmap_compose. by rewrite <- Permutation_middle in Hk. }
  rewrite (list_to_map_proper (bp ++ (k, v) :: bq) ((k, v) :: (bp ++ bq))).
  2:{ rewrite <- Permutation_middle. done. }
  2:{ by rewrite <- Permutation_middle. }
  rewrite (list_to_map_proper (bp ++ (k, v0) :: bq) ((k, v0) :: (bp ++ bq))).
  2:{ rewrite <- Permutation_middle. done. }
  2:{ by rewrite <- Permutation_middle. }
  cbn [list_to_map foldr]. by rewrite insert_insert_eq.
Qed.

(** *** What deletion at a node removes *)

Lemma delete_here_bindings_perm l a k v hg r :
  bindings (T l a k v hg r) ≡ₚ (k, v) :: bindings (delete_here (T l a k v hg r)).
Proof.
  cbn [delete_here]. destruct l as [|ll la lk lv lhg lr].
  { cbn [only_child]. by rewrite bindings_T. }
  destruct r as [|rl ra rk rv rhg rr].
  { cbn [only_child]. rewrite (bindings_T _ a). cbn.
    by rewrite <- Permutation_middle, app_nil_r. }
  destruct (last_items_T ll la lk lv lhg lr) as [[[ap kp] vp] Hlast]. rewrite Hlast.
  rewrite !(bindings_T _ a). unfold bindings at 1.
  rewrite (items_remove_max _ _ Hlast), fmap_app.
  cbn [fmap list_fmap]. rewrite <- app_assoc. cbn [app fst snd].
  fold (bindings (remove_max (T ll la lk lv lhg lr))).
  rewrite <- !Permutation_middle. apply Permutation_swap.
Qed.

Lemma delete_here_addrs_perm l a k v hg r af :
  freed_addr (T l a k v hg r) = Some af →
  addrs (T l a k v hg r) ≡ₚ af :: addrs (delete_here (T l a k v hg r)).
Proof.
  cbn [delete_here freed_addr]. destruct l as [|ll la lk lv lhg lr].
  { intros [= <-]. cbn [only_child]. by rewrite addrs_T. }
  destruct r as [|rl ra rk rv rhg rr].
  { intros [= <-]. cbn [only_child]. rewrite (addrs_T _ a). cbn.
    by rewrite <- Permutation_middle, app_nil_r. }
  destruct (last_items_T ll la lk lv lhg lr) as [[[ap kp] vp] Hlast]. rewrite Hlast.
  unfold addrs at 1. rewrite fmap_last, Hlast. intros [= <-].
  rewrite !(addrs_T _ a). unfold addrs at 1.
  rewrite (items_remove_max _ _ Hlast), fmap_app.
  cbn [fmap list_fmap]. rewrite <- app_assoc. cbn [app fst snd].
  fold (addrs (remove_max (T ll la lk lv lhg lr))).
  by rewrite <- !Permutation_middle.
Qed.

(** ** Sequences of operations against the finite function *)

Lemma footprint_refl h t : footprint h t h t.
Proof.
  split; [auto|]. intros b Hb. by rewrite decide_False.
Qed.

Lemma footprint_trans h t h1 t1 h2 t2 :
  footprint h t h1 t1 → footprint h1 t1 h2 t2 → footprint h t h2 t2.
Proof.
  intros [F1 F2] [G1 G2]. split.
  - intros b Hb. destruct (G1 b Hb) as [Hb1|Hb1]; [auto|].
    destruct (decide (b ∈ addrs t1)) as [Hin|Hout]; [auto|].
    specialize (F2 b Hout). rewrite Hb1 in F2.
    destruct (decide (b ∈ addrs t)); auto.
  - intros b Hb. rewrite (G2 b Hb).
    destruct (decide (b ∈ addrs t1)) as [Hin|Hout].
    + destruct (F1 b Hin) as [Hb1|Hb1]; [by rewrite decide_True|].
      rewrite Hb1. by destruct (decide _).
    + by apply F2.
Qed.

(** Outside the old tree an operation leaves every allocated node alone. *)
Lemma footprint_frame h t h' t' b :
  footprint h t h' t' → b ∉ addrs t → is_Some (h !! b) → h' !! b = h !! b.
Proof.
  intros [F1 F2] Hb [n Hn]. destruct (decide (b ∈ addrs t')) as [Hin|Hout].
  - destruct (F1 b Hin) as [?|Hnone]; [done|]. by rewrite Hnone in Hn.
  - rewrite (F2 b Hout). by rewrite decide_False.
Qed.

Lemma bindings_perm t t' a k v :
  items t' ≡ₚ (a, k, v) :: items t → bindings t' ≡ₚ (k, v) :: bindings t.
Proof. intros Hp. unfold bindings. by rewrite Hp. Qed.

Lemma count_perm t t' x : items t' ≡ₚ x :: items t → count t' = S (count t).
Proof. intros Hp. unfold count. by rewrite Hp. Qed.

Lemma wrap32_succ c :
  wrap32 (wrap32 (Z.of_nat c) + 1) = wrap32 (Z.of_nat (S c)).
Proof. unfold wrap32. rewrite Zplus_mod_idemp_l. f_equal. lia. Qed.

Lemma wrap32_pred c :
  wrap32 (wrap32 (Z.of_nat (S c)) - 1) = wrap32 (Z.of_nat c).
Proof. unfold wrap32. rewrite Zminus_mod_idemp_l. f_equal. lia. Qed.

(** [operator[]] in full. *)
Lemma operator_index_full h m t k :
  Shape h m t →
  ∃ a h' m' t' v,
    operator_index h m k = Some (a, h', m')
    ∧ Shape h' m' t'
    ∧ (a, k, v) ∈ items t'
    ∧ contents t' = model_cmd (Touch k) (contents t)
    ∧ footprint h t h' t'
    ∧ (count t' ≤ S (count t))%nat
    ∧ (size_ m = wrap32 (Z.of_nat (count t)) →
       size_ m' = wrap32 (Z.of_nat (count t')))
    ∧ (avl t → avl t')
    ∧ (depth_ok 0 t → depth_ok 0 t').
Proof.
  intros HS. unfold operator_index. cbn [model_cmd].
  destruct (decide (k ∈ keys t)) as [Hk|Hk].
  - destruct (operator_index_found h m t k HS Hk) as (a & v & -> & Hin).
    cbn. exists a, h, m, t, v. split_and!; try done.
    + assert (contents t !! k = Some v) as ->; [|done].
      apply contents_Some; [by destruct HS|]. apply bindings_items. by exists a.
    + apply footprint_refl.
    + lia.
  - destruct (operator_index_absent h m t k HS Hk)
      as (h' & m' & t' & log & Hrun & HS' & Hit & Hsz & Hd & Hfr).
    rewrite Hrun. cbn. exists (new_addr h), h', m', t', 0. split_and!; try done.
    + rewrite Hit. by left.
    + assert (contents t !! k = None) as -> by (by apply contents_None).
      apply contents_perm; [by destruct HS'|]. by eapply bindings_perm.
    + split.
      * intros b Hb. unfold addrs in Hb. rewrite Hit, fmap_cons in Hb.
        apply elem_of_cons in Hb as [->|Hb]; [right; apply new_addr_fresh|by left].
      * intros b Hb. unfold addrs in Hb. rewrite Hit, fmap_cons in Hb.
        apply not_elem_of_cons in Hb as [Hne Hb]. rewrite decide_False by done.
        by apply Hfr.
    + by rewrite (count_perm _ _ _ Hit).
    + intros HZ. rewrite Hsz, HZ, (count_perm _ _ _ Hit). apply wrap32_succ.
    + intros Ha. destruct (operator_index_avl h m t k HS Ha)
        as (a1 & h1 & m1 & t1 & Hrun1 & HS1 & Ha1).
      unfold operator_index in Hrun1. rewrite Hrun in Hrun1. cbn in Hrun1.
      injection Hrun1 as <- <- <-. by rewrite (Shape_unique _ _ _ _ HS' HS1).
Qed.

(** A store through the reference [operator[]] returned. *)
Lemma wr_value_spec h m t a k v0 v :
  Shape h m t → (a, k, v0) ∈ items t →
  ∃ h', wr h a (set_value v) = Some h'
    ∧ Shape h' m (set_val a v t)
    ∧ contents (set_val a v t) = <[k:=v]> (contents t)
    ∧ footprint h t h' (set_val a v t)
    ∧ (∃ n, h' !! a = Some n ∧ key n = k ∧ value n = v).
Proof.
  intros HS Hin. pose proof HS as [Hrep Hroot Hnd Hb].
  destruct (rep_item h None t a k v0 Hrep Hin) as (n & Hn & Hkey & Hval).
  unfold wr. rewrite Hn. cbn [mbind option_bind]. eexists. split; [done|].
  split_and!.
  - split.
    + by apply rep_set_val.
    + by rewrite root_set_val.
    + by rewrite addrs_set_val.
    + unfold bst. by rewrite keys_set_val.
  - by apply (contents_set_val t a k v0 v).
  - split.
    + intros b. rewrite addrs_set_val. auto.
    + intros b. rewrite addrs_set_val. intros Hout. rewrite decide_False by done.
      apply lookup_insert_ne. intros <-. apply Hout. unfold addrs.
      apply list_elem_of_fmap. by exists (a, k, v0).
  - exists (set_value v n). by rewrite lookup_insert_eq.
Qed.

Lemma count_set_val a v t : count (set_val a v t) = count t.
Proof. by rewrite <- !count_addrs, addrs_set_val. Qed.

(** [m.erase(m.find(k))] in full. *)
Lemma erase_find_full h m t k :
  Shape h m t →
  ∃ h' m' t',
    (it ← find h m k; erase h m it) = Some (h', m')
    ∧ Shape h' m' t'
    ∧ contents t' = delete k (contents t)
    ∧ footprint h t h' t'
    ∧ (count t' ≤ count t)%nat
    ∧ (size_ m = wrap32 (Z.of_nat (count t)) →
       size_ m' = wrap32 (Z.of_nat (count t'))).
Proof.
  intros HS. unfold find. rewrite (Shape_find h m t k HS). cbn [mbind option_bind].
  destruct (find_t t k) as [a|] eqn:Hf.
  - destruct (find_t_Some _ _ _ Hf) as [v Hv].
    assert (a ∈ addrs t) as Ha.
    { unfold addrs. apply list_elem_of_fmap. by exists (a, k, v). }
    destruct (locate t a Ha) as (c & l & k' & v' & hg & r & ->).
    assert (k = k' ∧ v = v') as [<- <-].
    { eapply (rep_item_unique h None _ a); [apply HS|done|].
      rewrite items_plug. cbn [items]. apply elem_of_app. right.
      apply elem_of_app. left. apply elem_of_app. right. by left. }
    destruct (erase_located h m c l a k v hg r HS)
      as (h' & m' & t' & af & log & Hrun & HS' & Hit & Hsz & Haf & Hfree & Hfr).
    unfold erase. rewrite Hrun. cbn [mbind option_bind]. exists h', m', t'.
    split; [done|]. split; [done|].
    assert (bindings (plug c (T l a k v hg r)) ≡ₚ (k, v) :: bindings t') as Hbp.
    { unfold bindings at 2. rewrite Hit. unfold bindings. rewrite !items_plug, !fmap_app.
      fold (bindings (T l a k v hg r)). fold (bindings (delete_here (T l a k v hg r))).
      rewrite (delete_here_bindings_perm l a k v hg r).
      by rewrite <- app_comm_cons, <- Permutation_middle. }
    assert (addrs (plug c (T l a k v hg r)) ≡ₚ af :: addrs t') as Hap.
    { unfold addrs at 2. rewrite Hit. fold (addrs (plug c (delete_here (T l a k v hg r)))).
      rewrite !addrs_plug. rewrite (delete_here_addrs_perm l a k v hg r af Haf).
      by rewrite <- app_comm_cons, <- Permutation_middle. }
    assert (count (plug c (T l a k v hg r)) = S (count t')) as Hcnt.
    { rewrite <- !count_addrs. by rewrite Hap. }
    split_and!.
    + assert (contents t' !! k = None) as Hnone.
      { apply contents_None. intros Hk.
        pose proof (bst_NoDup _ (shape_bst _ _ _ HS)) as Hnd.
        rewrite <- bindings_keys, Hbp, fmap_cons, bindings_keys in Hnd.
        by apply NoDup_cons in Hnd as [? _]. }
      rewrite (contents_perm t' _ k v (shape_bst _ _ _ HS) Hbp).
      rewrite delete_insert_eq. symmetry. by apply delete_id.
    + split.
      * intros b Hb. left. rewrite Hap. by right.
      * intros b Hb. destruct (decide (b ∈ _)) as [Hin|Hout].
        -- rewrite Hap in Hin. apply elem_of_cons in Hin as [->|Hin]; done.
        -- by apply Hfr.
    + lia.
    + intros HZ. rewrite Hsz, HZ, Hcnt. apply wrap32_pred.
  - unfold erase, erase_log. cbn. exists h, m, t. split_and!; try done.
    + symmetry. apply delete_id. apply contents_None.
      apply find_t_None; [by destruct HS|done].
    + apply footprint_refl.
Qed.

Lemma owns_footprint h t h' t' : owns h t → footprint h t h' t' → owns h' t'.
Proof.
  intros Ho [F1 F2] b [n Hn]. destruct (decide (b ∈ addrs t')) as [|Hout]; [done|].
  rewrite (F2 b Hout) in Hn. destruct (decide (b ∈ addrs t)) as [|Hout']; [done|].
  destruct Hout'. apply Ho. by eexists.
Qed.

Lemma owns_size h m t : Shape h m t → owns h t → size h = count t.
Proof.
  intros [Hrep _ Hnd _] Ho. apply Nat.le_antisymm.
  - rewrite <- size_dom, <- count_addrs.
    rewrite <- (size_list_to_set (C := gset addr) (addrs t)) by done.
    apply subseteq_size. intros b Hb. apply elem_of_dom in Hb.
    apply elem_of_list_to_set. by apply Ho.
  - by eapply rep_count_le.
Qed.

Lemma exec_cmd_spec c h m t :
  Shape h m t →
  ∃ h' m' t',
    exec_cmd c h m = Some (h', m')
    ∧ Shape h' m' t'
    ∧ contents t' = model_cmd c (contents t)
    ∧ footprint h t h' t'
    ∧ (size_ m = wrap32 (Z.of_nat (count t)) →
       size_ m' = wrap32 (Z.of_nat (count t')))
    ∧ (inserts c = true → avl t → avl t')
    ∧ (inserts c = true → depth_ok 0 t → depth_ok 0 t').
Proof.
  intros HS. destruct c as [k v|k|k]; cbn [exec_cmd inserts].
  - destruct (operator_index_full h m t k HS)
      as (a & h1 & m1 & t1 & v1 & Hrun & HS1 & Hin & Hc & Hfp & _ & Hsz & Ha & Hd).
    destruct (wr_value_spec h1 m1 t1 a k v1 v HS1 Hin)
      as (h2 & Hwr & HS2 & Hc2 & Hfp2 & _).
    unfold index_assign. rewrite Hrun. cbn [mbind option_bind]. rewrite Hwr.
    cbn [mbind option_bind]. exists h2, m1, (set_val a v t1).
    split_and!; [done|done| |by eapply footprint_trans| | |].
    + rewrite Hc2, Hc. cbn [model_cmd].
      destruct (contents t !! k); [done|]. by rewrite insert_insert_eq.
    + intros HZ. rewrite count_set_val. auto.
    + intros _ Havl. apply avl_set_val. auto.
    + intros _ Hdep. apply depth_ok_set_val. auto.
  - destruct (operator_index_full h m t k HS)
      as (a & h1 & m1 & t1 & v1 & Hrun & HS1 & Hin & Hc & Hfp & _ & Hsz & Ha & Hd).
    rewrite Hrun. cbn [mbind option_bind]. exists h1, m1, t1. split_and!; auto.
  - destruct (erase_find_full h m t k HS)
      as (h1 & m1 & t1 & Hrun & HS1 & Hc & Hfp & _ & Hsz).
    rewrite Hrun. exists h1, m1, t1. split_and!; auto; done.
Qed.

Lemma exec_spec cs h m t :
  Shape h m t →
  ∃ h' m' t',
    exec cs h m = Some (h', m')
    ∧ Shape h' m' t'
    ∧ contents t' = model cs (contents t)
    ∧ footprint h t h' t'
    ∧ (size_ m = wrap32 (Z.of_nat (count t)) →
       size_ m' = wrap32 (Z.of_nat (count t')))
    ∧ (forallb inserts cs = true → avl t → avl t')
    ∧ (forallb inserts cs = true → depth_ok 0 t → depth_ok 0 t').
Proof.
  revert h m t. induction cs as [|c cs IH]; intros h m t HS; cbn [exec model forallb].
  { exists h, m, t. split_and!; try done. apply footprint_refl. }
  destruct (exec_cmd_spec c h m t HS)
    as (h1 & m1 & t1 & -> & HS1 & Hc1 & Hf1 & Hs1 & Ha1 & Hd1).
  cbn [mbind option_bind].
  destruct (IH h1 m1 t1 HS1) as (h2 & m2 & t2 & Hrun & HS2 & Hc2 & Hf2 & Hs2 & Ha2 & Hd2).
  exists h2, m2, t2.
  split_and!; [done|done|congruence|by eapply footprint_trans|auto| |].
  - intros [? ?]%andb_prop. auto.
  - intros [? ?]%andb_prop. auto.
Qed.

(** From the empty map. *)
Lemma exec_empty cs :
  ∃ h m t,
    exec cs ∅ empty_map = Some (h, m)
    ∧ Shape h m t
    ∧ contents t = model cs ∅
    ∧ owns h t
    ∧ size_ m = wrap32 (Z.of_nat (count t))
    ∧ (forallb inserts cs = true → avl t ∧ depth_ok 0 t).
Proof.
  destruct (exec_spec cs ∅ empty_map Leaf Shape_empty)
    as (h & m & t & Hrun & HS & Hc & Hf & Hs & Ha & Hd).
  exists h, m, t. split_and!; [done|done|done| |by apply Hs|].
  - eapply owns_footprint; [|done]. intros b [n Hn]. by rewrite lookup_empty in Hn.
  - intros Hins. split; [by apply Ha|by apply Hd].
Qed.

(** ** The map against a finite function *)

(** X1: every sequence of [m[k] = v], [m[k]] and [m.erase(m.find(k))] on
    an empty map runs to its end (no null or freed node is dereferenced),
    and afterwards [find] followed by [Value()] gives for every key what
    the finite function holds: the value last assigned, 0 for a key that
    was only created by [m[k]], and [end()] for a key that was erased or
    never inserted. *)
Theorem exec_refines_finite_map (cs : list cmd) :
  ∃ h m,
    exec cs ∅ empty_map = Some (h, m)
    ∧ ∀ k, get h m k = Some (model cs ∅ !! k).
Proof.
  destruct (exec_empty cs) as (h & m & t & Hrun & HS & Hc & _).
  exists h, m. split; [done|]. intros k. rewrite <- Hc. by apply get_spec.
Qed.

(** X2: after every such sequence [size()] is the number of keys of the
    finite function, as an [unsigned int], and the store holds exactly
    that many nodes: none leaked, none missing. *)
Theorem size_counts_keys (cs : list cmd) :
  ∃ h m,
    exec cs ∅ empty_map = Some (h, m)
    ∧ AVLmap_size m = wrap32 (Z.of_nat (size (model cs ∅)))
    ∧ size h = size (model cs ∅).
Proof.
  destruct (exec_empty cs) as (h & m & t & Hrun & HS & Hc & Ho & Hs & _).
  exists h, m. rewrite <- Hc, (contents_size t) by (by destruct HS).
  split_and!; [done|done|]. by eapply owns_size.
Qed.

Lemma contents_empty t : contents t = ∅ → t = Leaf.
Proof.
  destruct t as [|l a k v hg r]; [done|]. intros He.
  assert (contents (T l a k v hg r) !! k = None) as Hn by (by rewrite He).
  apply contents_None in Hn. destruct Hn. rewrite keys_T. apply elem_of_app.
  right. by left.
Qed.

(** X3: a sequence of operations that leaves no key (every key inserted
    was erased again, in whatever order) ends in the state it started
    from: an empty store, a null root and size 0. *)
Theorem erase_all_returns_to_empty (cs : list cmd) :
  model cs ∅ = ∅ → exec cs ∅ empty_map = Some (∅, empty_map).
Proof.
  intros He. destruct (exec_empty cs) as (h & m & t & Hrun & HS & Hc & Ho & Hs & _).
  rewrite He in Hc. apply contents_empty in Hc as ->.
  assert (h = ∅) as ->.
  { apply map_size_empty_iff. by rewrite (owns_size h m Leaf HS Ho). }
  destruct HS as [_ Hroot _ _]. destruct m as [rt sz]. cbn in *. by subst.
Qed.

Lemma erase_all_returns_to_empty_witness :
  exec [Put 20 7; Touch 10; Put 30 1; Touch 40; Del 20; Del 40; Del 10; Del 30]
    ∅ empty_map
  = Some (∅, empty_map).
Proof.
  apply erase_all_returns_to_empty. by vm_compute.
Defined.

(** ** Insertion and the nodes already there *)

(** X4: [m[k]] returns the node [find(k)] finds afterwards; for every
    other key [find] returns the same node as before, and every node
    allocated before still holds its key and value: rotations move links,
    never entries, so iterators and references to other entries stay
    valid across an insertion. *)
Theorem insertion_keeps_nodes (h : store) (m : AVLmap) (t : tree) (k : Z) :
  Shape h m t →
  ∃ a h' m',
    operator_index h m k = Some (a, h', m')
    ∧ find h' m' k = Some (Some a)
    ∧ (∀ k', k' ≠ k → find h' m' k' = find h m k')
    ∧ (∀ b n, h !! b = Some n →
         ∃ n', h' !! b = Some n' ∧ key n' = key n ∧ value n' = value n).
Proof.
  intros HS. pose proof HS as [Hrep Hroot Hnd Hb].
  destruct (decide (k ∈ keys t)) as [Hk|Hk].
  { destruct (operator_index_found h m t k HS Hk) as (a & v & Hrun & Hin).
    unfold operator_index. rewrite Hrun. cbn [mbind option_bind]. exists a, h, m.
    split_and!; [done| |done|by eauto].
    unfold find. rewrite (Shape_find h m t k HS). f_equal. by eapply find_t_elem. }
  destruct (operator_index_absent h m t k HS Hk)
    as (h' & m' & t' & log & Hrun & HS' & Hit & _ & _ & Hfr).
  unfold operator_index. rewrite Hrun. cbn [mbind option_bind].
  exists (new_addr h), h', m'. pose proof HS' as [Hrep' _ _ Hb'].
  split_and!; [done| | |].
  - unfold find. rewrite (Shape_find h' m' t' k HS'). f_equal.
    apply (find_t_elem t' k _ 0); [done|]. rewrite Hit. by left.
  - intros k' Hne. unfold find.
    rewrite (Shape_find h' m' t' k' HS'), (Shape_find h m t k' HS). f_equal.
    destruct (find_t t k') as [b|] eqn:Hf.
    + destruct (find_t_Some _ _ _ Hf) as [v Hv].
      apply (find_t_elem t' k' b v); [done|]. rewrite Hit. by right.
    + apply find_t_None; [done|]. apply find_t_None in Hf; [|done].
      intros Hin. apply keys_items in Hin as (b & v & Hin). rewrite Hit in Hin.
      apply elem_of_cons in Hin as [[= _ ? _]|Hin]; [done|].
      apply Hf. apply keys_items. eauto.
  - intros b n Hn. destruct (decide (b ∈ addrs t)) as [Hin|Hout].
    + unfold addrs in Hin. apply list_elem_of_fmap in Hin as ([[b' kb] vb] & Heq & Hin).
      cbn in Heq. subst b'.
      destruct (rep_item h None t b kb vb Hrep Hin) as (n0 & Hn0 & <- & <-).
      rewrite Hn in Hn0. injection Hn0 as <-.
      assert ((b, key n, value n) ∈ items t') as Hin' by (rewrite Hit; by right).
      destruct (rep_item h' None t' b _ _ Hrep' Hin') as (n' & Hn' & ? & ?). eauto.
    + exists n. split; [|done]. rewrite Hfr; [done|done|].
      intros ->. by rewrite new_addr_fresh in Hn.
Qed.

Lemma insertion_keeps_nodes_witness :
  ∃ a h' m',
    operator_index store_10_20 map_10_20 30 = Some (a, h', m')
    ∧ find h' m' 30 = Some (Some a)
    ∧ find h' m' 10 = find store_10_20 map_10_20 10.
Proof.
  destruct (insertion_keeps_nodes store_10_20 map_10_20 tree_10_20 30 Shape_10_20)
    as (a & h' & m' & Hrun & Hfind & Hother & _).
  exists a, h', m'. split_and!; [done|done|]. by apply Hother.
Defined.

(** X5: after [m[k] = v], reading [m[k]] gives [v] and changes neither
    the store nor the map object. *)
Theorem assign_then_read (h : store) (m : AVLmap) (t : tree) (k v : Z) :
  Shape h m t →
  ∃ h1 m1,
    index_assign h m k v = Some (h1, m1)
    ∧ index_read h1 m1 k = Some (v, h1, m1).
Proof.
  intros HS.
  destruct (operator_index_full h m t k HS)
    as (a & h1 & m1 & t1 & v1 & Hrun & HS1 & Hin & _).
  destruct (wr_value_spec h1 m1 t1 a k v1 v HS1 Hin)
    as (h2 & Hwr & HS2 & Hc2 & _ & (n & Hn & Hkey & Hval)).
  unfold index_assign. rewrite Hrun. cbn [mbind option_bind]. rewrite Hwr.
  cbn [mbind option_bind]. exists h2, m1. split; [done|].
  assert (k ∈ keys (set_val a v t1)) as Hk.
  { rewrite keys_set_val. apply keys_items. eauto. }
  destruct (operator_index_found h2 m1 _ k HS2 Hk) as (a' & v' & Hrun' & Hin').
  unfold index_read, operator_index. rewrite Hrun'. cbn [mbind option_bind].
  destruct (rep_item h2 None _ a' k v' (shape_rep _ _ _ HS2) Hin') as (n' & -> & _ & Hv').
  cbn [mbind option_bind]. rewrite Hv'. do 2 f_equal.
  assert (contents (set_val a v t1) !! k = Some v') as Hl.
  { apply contents_Some; [by destruct HS2|]. apply bindings_items. eauto. }
  rewrite Hc2, lookup_insert_eq in Hl. by injection Hl as ->.
Qed.

Lemma assign_then_read_witness :
  ∃ h1 m1,
    index_assign store_10_20_30 map_10_20_30 25 7 = Some (h1, m1)
    ∧ index_read h1 m1 25 = Some (7, h1, m1).
Proof. exact (assign_then_read _ _ _ 25 7 Shape_10_20_30). Defined.

(** ** Clearing *)

Lemma wrap32_minus x c : wrap32 (wrap32 x - c) = wrap32 (x - c).
Proof. unfold wrap32. apply Zminus_mod_idemp_l. Qed.

Lemma tree_Leaf_dec t : t = Leaf ∨ t ≠ Leaf.
Proof. destruct t; [by left|by right]. Qed.

Lemma ClearTree_spec fuel h m par t :
  rep h par t → NoDup (addrs t) → (count t < fuel)%nat →
  ∃ h' m',
    ClearTree fuel h m (root t) = Some (h', m')
    ∧ (∀ b, h' !! b = if decide (b ∈ addrs t) then None else h !! b)
    ∧ (t = Leaf → m' = m)
    ∧ (t ≠ Leaf →
       m' = mkMap None (wrap32 (size_ m - Z.of_nat (count t)))).
Proof.
  revert h m par t. induction fuel as [|f IH]; intros h m par t Hrep Hnd Hf; [lia|].
  destruct t as [|l a k v hg r].
  { cbn. exists h, m. by split_and!. }
  destruct Hrep as (Ha & Hl & Hr). rewrite count_T in Hf.
  rewrite addrs_T in Hnd. apply NoDup_app in Hnd as (Hndl & Hlr & Hnd).
  apply NoDup_cons in Hnd as [Har Hndr].
  assert (a ∉ addrs l) as Hal. { intros Hx. apply (Hlr a Hx). by left. }
  cbn [ClearTree root]. rewrite Ha. cbn [mbind option_bind left right].
  unfold FreeNode. rewrite Ha. cbn [mbind option_bind].
  destruct (IH (delete a h) (mkMap (mRoot m) (wrap32 (size_ m - 1))) (Some a) l)
    as (h2 & m2 & -> & Hh2 & Hm2l & Hm2); [|done|lia|].
  { eapply rep_frame; [done|]. intros b Hb. apply lookup_delete_ne. by intros ->. }
  cbn [mbind option_bind].
  destruct (IH h2 m2 (Some a) r) as (h3 & m3 & -> & Hh3 & Hm3l & Hm3); [|done|lia|].
  { eapply rep_frame; [done|]. intros b Hb. rewrite Hh2.
    rewrite decide_False.
    - apply lookup_delete_ne. by intros ->.
    - intros Hx. apply (Hlr b Hx). by right. }
  cbn [mbind option_bind]. eexists _, _. split; [done|]. split_and!.
  - intros b. rewrite Hh3, Hh2, addrs_T.
    destruct (decide (b ∈ addrs r)) as [Hbr|Hbr].
    { rewrite decide_True; [done|]. apply elem_of_app. right. by right. }
    destruct (decide (b ∈ addrs l)) as [Hbl|Hbl].
    { rewrite decide_True; [done|]. apply elem_of_app. by left. }
    destruct (decide (b = a)) as [->|Hne].
    { rewrite lookup_delete_eq. rewrite decide_True; [done|].
      apply elem_of_app. right. by left. }
    rewrite lookup_delete_ne by done. rewrite decide_False; [done|].
    intros Hx. apply elem_of_app in Hx as [?|Hx]; [done|].
    by apply elem_of_cons in Hx as [?|?].
  - done.
  - intros _. unfold set_mRoot. f_equal. rewrite count_T.
    destruct (tree_Leaf_dec l) as [->|Hl0]; destruct (tree_Leaf_dec r) as [->|Hr0].
    + rewrite (Hm3l eq_refl), (Hm2l eq_refl). cbn [size_]. f_equal.
    + rewrite (Hm3 Hr0), (Hm2l eq_refl). cbn [size_].
      rewrite wrap32_minus. f_equal. cbn. lia.
    + rewrite (Hm3l eq_refl), (Hm2 Hl0). cbn [size_].
      rewrite wrap32_minus. f_equal. cbn. lia.
    + rewrite (Hm3 Hr0), (Hm2 Hl0). cbn [size_].
      rewrite wrap32_minus, <- Z.sub_add_distr, wrap32_minus. f_equal. lia.
Qed.

(** X6: the destructor of a well-formed map frees every node of the
    map and no other: afterwards none of the map's nodes is allocated,
    every other node of the store is untouched, the root is null and the
    size is 0. *)
Theorem destructor_frees_the_map (h : store) (m : AVLmap) (t : tree) :
  Shape h m t → Sized m t →
  ∃ h',
    AVLmap_destructor h m = Some (h', empty_map)
    ∧ ∀ b, h' !! b = if decide (b ∈ addrs t) then None else h !! b.
Proof.
  intros HS [Hsz Hlt]. pose proof (Shape_fuel _ _ _ HS) as Hf.
  destruct HS as [Hrep Hroot Hnd _].
  destruct (ClearTree_spec (fuel_of h) h m None t Hrep Hnd Hf)
    as (h' & m' & Hrun & Hh & Hleaf & Hnode).
  unfold AVLmap_destructor. rewrite Hroot, Hrun. exists h'. split; [|done].
  do 2 f_equal. destruct (tree_Leaf_dec t) as [->|Hne].
  - rewrite (Hleaf eq_refl). destruct m as [rt sz]. cbn in *. by subst.
  - rewrite (Hnode Hne). unfold empty_map. f_equal. rewrite Hsz.
    by rewrite Z.sub_diag.
Qed.

Lemma destructor_frees_the_map_witness :
  ∃ h', AVLmap_destructor store_10_20_30 map_10_20_30 = Some (h', empty_map).
Proof.
  destruct (destructor_frees_the_map store_10_20_30 map_10_20_30 tree_10_20_30)
    as (h' & Hrun & _).
  - exact Shape_10_20_30.
  - split; by vm_compute.
  - by exists h'.
Defined.

(** ** Copying *)

Lemma footprint_disjoint h t h' t' b :
  footprint h t h' t' → b ∉ addrs t → is_Some (h !! b) → b ∉ addrs t'.
Proof.
  intros [F1 _] Hb [n Hn] Hin. destruct (F1 b Hin) as [?|Hnone]; [done|].
  by rewrite Hnone in Hn.
Qed.

(** A tree whose nodes an operation on another tree did not touch. *)
Lemma rep_footprint h t0 h' t0' par s :
  rep h par s → footprint h t0 h' t0' → (∀ b, b ∈ addrs s → b ∉ addrs t0) →
  rep h' par s ∧ (∀ b, b ∈ addrs s → b ∉ addrs t0').
Proof.
  intros Hrep Hf Hdis. split.
  - eapply rep_frame; [done|]. intros b Hb.
    eapply footprint_frame; [done|by apply Hdis|by eapply rep_lookup].
  - intros b Hb. eapply footprint_disjoint; [done|by apply Hdis|by eapply rep_lookup].
Qed.

Lemma Shape_footprint h m t t0 h' t0' :
  Shape h m t → footprint h t0 h' t0' → (∀ b, b ∈ addrs t → b ∉ addrs t0) →
  Shape h' m t.
Proof.
  intros [Hrep Hroot Hnd Hb] Hf Hdis. split; try done.
  by eapply rep_footprint.
Qed.

Lemma contents_T l a k v hg r :
  contents (T l a k v hg r) = contents l ∪ <[k:=v]> (contents r).
Proof. unfold contents. by rewrite bindings_T, list_to_map_app. Qed.

Lemma copy_union (cl cr M : gmap Z Z) k v :
  cl !! k = None → cr !! k = None →
  (∀ i, is_Some (cl !! i) → cr !! i = None) →
  cr ∪ (cl ∪ <[k:=v]> M) = (cl ∪ <[k:=v]> cr) ∪ M.
Proof.
  intros Hkl Hkr Hdis. apply map_eq. intros i.
  rewrite !lookup_union, !lookup_insert.
  destruct (decide (k = i)) as [<-|Hne].
  - rewrite Hkl, Hkr. by destruct (M !! k).
  - destruct (cl !! i) as [x|] eqn:Hl.
    + rewrite (Hdis i) by (by rewrite Hl). by destruct (M !! i).
    + by destruct (cr !! i), (M !! i).
Qed.

Lemma DeepCopyTree_spec fuel s : ∀ h m td par,
  rep h par s → NoDup (keys s) → (count s < fuel)%nat →
  Shape h m td → (∀ b, b ∈ addrs s → b ∉ addrs td) →
  ∃ h' m' td',
    DeepCopyTree fuel h m (root s) = Some (h', m')
    ∧ Shape h' m' td'
    ∧ contents td' = contents s ∪ contents td
    ∧ footprint h td h' td'
    ∧ (avl td → avl td')
    ∧ (size_ m = wrap32 (Z.of_nat (count td)) →
       size_ m' = wrap32 (Z.of_nat (count td'))).
Proof.
  revert s. induction fuel as [|f IH]; intros s h m td par Hrep Hnd Hf HS Hdis; [lia|].
  destruct s as [|l a k v hg r].
  { cbn. exists h, m, td. split_and!; try done.
    - unfold contents at 2. cbn. by rewrite (left_id_L ∅ (∪)).
    - apply footprint_refl. }
  pose proof Hrep as (Ha & Hl & Hr). rewrite count_T in Hf.
  rewrite keys_T in Hnd. apply NoDup_app in Hnd as (Hndl & Hlr & Hnd).
  apply NoDup_cons in Hnd as [Hkr Hndr].
  assert (k ∉ keys l) as Hkl. { intros Hx. apply (Hlr k Hx). by left. }
  assert (a ∉ addrs td) as Hatd.
  { apply Hdis. rewrite addrs_T. apply elem_of_app. right. by left. }
  assert (∀ b, b ∈ addrs l → b ∉ addrs td) as Hdl.
  { intros b Hb. apply Hdis. rewrite addrs_T. apply elem_of_app. by left. }
  assert (∀ b, b ∈ addrs r → b ∉ addrs td) as Hdr.
  { intros b Hb. apply Hdis. rewrite addrs_T. apply elem_of_app. right. by right. }
  cbn [DeepCopyTree root]. rewrite Ha. cbn [mbind option_bind key value].
  destruct (exec_cmd_spec (Put k v) h m td HS)
    as (h1 & m1 & t1 & Hrun1 & HS1 & Hc1 & Hf1 & Hs1 & Ha1 & _).
  cbn [exec_cmd] in Hrun1. rewrite Hrun1. cbn [mbind option_bind].
  assert (h1 !! a = h !! a) as Ha1'.
  { eapply footprint_frame; [done|done|by rewrite Ha]. }
  rewrite Ha1', Ha. cbn [mbind option_bind left].
  destruct (rep_footprint h td h1 t1 (Some a) l Hl Hf1 Hdl) as [Hl1 Hdl1].
  destruct (IH l h1 m1 t1 (Some a) Hl1 Hndl ltac:(lia) HS1 Hdl1)
    as (h2 & m2 & t2 & -> & HS2 & Hc2 & Hf2 & Ha2 & Hs2).
  cbn [mbind option_bind].
  pose proof (footprint_trans _ _ _ _ _ _ Hf1 Hf2) as Hf12.
  assert (h2 !! a = h !! a) as Ha2'.
  { eapply footprint_frame; [done|done|by rewrite Ha]. }
  rewrite Ha2', Ha. cbn [mbind option_bind right].
  destruct (rep_footprint h td h2 t2 (Some a) r Hr Hf12 Hdr) as [Hr2 Hdr2].
  destruct (IH r h2 m2 t2 (Some a) Hr2 Hndr ltac:(lia) HS2 Hdr2)
    as (h3 & m3 & t3 & -> & HS3 & Hc3 & Hf3 & Ha3 & Hs3).
  cbn [mbind option_bind]. exists h3, m3, t3.
  split_and!; [done|done| |by eapply footprint_trans|auto|auto].
  rewrite Hc3, Hc2, Hc1, contents_T. cbn [model_cmd].
  apply copy_union.
  - by apply contents_None.
  - by apply contents_None.
  - intros i [x Hx]. apply contents_None. intros Hir.
    assert (i ∈ keys l) as Hil.
    { destruct (decide (i ∈ keys l)) as [|Hn]; [done|].
      apply contents_None in Hn. by rewrite Hn in Hx. }
    apply (Hlr i Hil). by right.
Qed.

Lemma Shape_Leaf h : Shape h empty_map Leaf.
Proof. split; [done|done|constructor|constructor]. Qed.

Lemma DeepCopyTree_fresh fuel h rhs ts :
  rep h None ts → NoDup (addrs ts) → bst ts → mRoot rhs = root ts →
  (count ts < fuel)%nat →
  ∃ h' m' t',
    DeepCopyTree fuel h empty_map (mRoot rhs) = Some (h', m')
    ∧ Shape h' m' t' ∧ avl t'
    ∧ Shape h' rhs ts
    ∧ contents t' = contents ts
    ∧ size_ m' = wrap32 (Z.of_nat (count ts))
    ∧ footprint h Leaf h' t'.
Proof.
  intros Hrep Hnd Hb Hroot Hf.
  destruct (DeepCopyTree_spec fuel ts h empty_map Leaf None Hrep (bst_NoDup _ Hb) Hf
              (Shape_Leaf h))
    as (h' & m' & t' & Hrun & HS' & Hc & Hfp & Ha & Hs).
  { intros b _. apply not_elem_of_nil. }
  rewrite Hroot, Hrun. exists h', m', t'.
  assert (contents t' = contents ts) as Hc'.
  { rewrite Hc. unfold contents at 2. cbn. by rewrite (right_id_L ∅ (∪)). }
  split_and!; [done|done|by apply Ha| |done| |done].
  - split; [|done|done|done].
    apply (rep_footprint h Leaf h' t' None ts Hrep Hfp). intros b _. apply not_elem_of_nil.
  - rewrite Hs by done. do 2 f_equal.
    rewrite <- (contents_size t'), <- (contents_size ts), Hc'; [done|done|by destruct HS'].
Qed.

(** X7: the copy constructor builds, out of nodes that were not
    allocated before, a well-formed and AVL-balanced map in which every
    key looks up as in the source, with the source's number of entries as
    its size; the source and every other node of the store are left as
    they were.  The copy is balanced whatever the shape of the source. *)
Theorem copy_construct_copies (h : store) (rhs : AVLmap) (ts : tree) :
  Shape h rhs ts →
  ∃ h' m' t',
    copy_construct h rhs = Some (h', m')
    ∧ Shape h' m' t' ∧ avl t'
    ∧ (∀ k, get h' m' k = get h rhs k)
    ∧ AVLmap_size m' = wrap32 (Z.of_nat (count ts))
    ∧ (∀ b, b ∈ addrs t' → h !! b = None)
    ∧ (∀ b, is_Some (h !! b) → h' !! b = h !! b).
Proof.
  intros HS. pose proof (Shape_fuel _ _ _ HS) as Hf. pose proof HS as [Hrep Hroot Hnd Hb].
  destruct (DeepCopyTree_fresh (fuel_of h) h rhs ts Hrep Hnd Hb Hroot Hf)
    as (h' & m' & t' & Hrun & HS' & Ha & HSs & Hc & Hs & Hfp).
  exists h', m', t'. split_and!; try done.
  - intros k. by rewrite (get_spec h' m' t' k HS'), (get_spec h rhs ts k HS), Hc.
  - intros b Hb'. destruct Hfp as [F1 _]. destruct (F1 b Hb') as [Hx|?]; [|done].
    by apply elem_of_nil in Hx.
  - intros b Hb'. eapply footprint_frame; [done| |done]. apply not_elem_of_nil.
Qed.

Lemma copy_construct_copies_witness :
  ∃ h' m',
    copy_construct store_spine map_spine = Some (h', m')
    ∧ (∀ k, get h' m' k = get store_spine map_spine k)
    ∧ ∃ t', Shape h' m' t' ∧ avl t'.
Proof.
  destruct (copy_construct_copies store_spine map_spine tree_spine Shape_spine)
    as (h' & m' & t' & Hrun & HS' & Ha & Hget & _).
  exists h', m'. split_and!; [done|done|by exists t'].
Defined.

(** X8: a copy and its source are independent: whatever sequence of
    operations is run on the copy, every key still looks up in the source
    as before, and whatever sequence is run on the source, every key still
    looks up in the copy as it did in the source when the copy was made. *)
Theorem copy_is_independent (h : store) (rhs : AVLmap) (ts : tree) :
  Shape h rhs ts →
  ∃ h1 m1,
    copy_construct h rhs = Some (h1, m1)
    ∧ ∀ cs,
        (∃ h2 m2, exec cs h1 m1 = Some (h2, m2)
                  ∧ ∀ k, get h2 rhs k = get h rhs k)
        ∧ (∃ h2 r2, exec cs h1 rhs = Some (h2, r2)
                    ∧ ∀ k, get h2 m1 k = get h rhs k).
Proof.
  intros HS. pose proof (Shape_fuel _ _ _ HS) as Hf. pose proof HS as [Hrep Hroot Hnd Hb].
  destruct (DeepCopyTree_fresh (fuel_of h) h rhs ts Hrep Hnd Hb Hroot Hf)
    as (h1 & m1 & t1 & Hrun & HS1 & _ & HSs & Hc & _ & Hfp).
  exists h1, m1. split; [done|]. intros cs.
  assert (∀ b, b ∈ addrs ts → b ∉ addrs t1) as Hdis.
  { intros b Hb'. eapply footprint_disjoint; [done|apply not_elem_of_nil|].
    by eapply rep_lookup. }
  split.
  - destruct (exec_spec cs h1 m1 t1 HS1) as (h2 & m2 & t2 & Hex & _ & _ & Hfp2 & _).
    exists h2, m2. split; [done|]. intros k.
    assert (Shape h2 rhs ts) as HS2 by (by eapply Shape_footprint).
    by rewrite (get_spec h2 rhs ts k HS2), (get_spec h rhs ts k HS).
  - destruct (exec_spec cs h1 rhs ts HSs) as (h2 & r2 & t2 & Hex & _ & _ & Hfp2 & _).
    exists h2, r2. split; [done|]. intros k.
    assert (Shape h2 m1 t1) as HS2.
    { eapply Shape_footprint; [done|done|]. intros b Hb1 Hbs. by apply (Hdis b). }
    by rewrite (get_spec h2 m1 t1 k HS2), (get_spec h rhs ts k HS), Hc.
Qed.

Lemma copy_is_independent_witness :
  ∃ h1 m1,
    copy_construct store_10_20_30 map_10_20_30 = Some (h1, m1)
    ∧ (∃ h2 m2, exec [Del 20; Put 10 5] h1 m1 = Some (h2, m2)
                ∧ ∀ k, get h2 map_10_20_30 k = get store_10_20_30 map_10_20_30 k).
Proof.
  destruct (copy_is_independent store_10_20_30 map_10_20_30 tree_10_20_30 Shape_10_20_30)
    as (h1 & m1 & Hrun & Hind).
  exists h1, m1. split; [done|]. apply (Hind [Del 20; Put 10 5]).
Defined.

(** X9: copy assignment between two distinct well-formed maps frees the
    nodes of the destination and then copies: the destination ends as a
    well-formed, AVL-balanced map in which every key looks up as in the
    source, the source is unchanged, and every node allocated afterwards
    is a node of the new destination or a node outside the old
    destination that was not touched, so no old node leaks. *)
Theorem copy_assign_replaces (h : store) (this rhs : AVLmap) (tt ts : tree) :
  Shape h this tt → Sized this tt → Shape h rhs ts →
  (∀ b, b ∈ addrs ts → b ∉ addrs tt) →
  ∃ h' m' t',
    copy_assign h this rhs false = Some (h', m')
    ∧ Shape h' m' t' ∧ avl t'
    ∧ Shape h' rhs ts
    ∧ (∀ k, get h' m' k = get h rhs k)
    ∧ AVLmap_size m' = wrap32 (Z.of_nat (count ts))
    ∧ (∀ b, is_Some (h' !! b) →
         b ∈ addrs t' ∨ ((b ∉ addrs tt) ∧ h' !! b = h !! b)).
Proof.
  intros HSt [Hsz Hlt] HSs Hdis.
  pose proof (Shape_fuel _ _ _ HSt) as Hf. pose proof HSt as [Hrept Hroott Hndt _].
  destruct (ClearTree_spec (fuel_of h) h this None tt Hrept Hndt Hf)
    as (h1 & m1 & Hrun1 & Hh1 & Hleaf & Hnode).
  assert (m1 = empty_map) as ->.
  { destruct (tree_Leaf_dec tt) as [->|Hne].
    - rewrite (Hleaf eq_refl). destruct this as [rt sz]. cbn in *. by subst.
    - rewrite (Hnode Hne). unfold empty_map. f_equal. rewrite Hsz.
      by rewrite Z.sub_diag. }
  pose proof HSs as [Hreps Hroots Hnds Hbs].
  assert (rep h1 None ts) as Hreps1.
  { eapply rep_frame; [done|]. intros b Hb. rewrite Hh1.
    by rewrite decide_False by (by apply Hdis). }
  assert (count ts < fuel_of h1)%nat as Hf1.
  { pose proof (rep_count_le h1 None ts Hreps1 Hnds). unfold fuel_of. lia. }
  destruct (DeepCopyTree_fresh (fuel_of h1) h1 rhs ts Hreps1 Hnds Hbs Hroots Hf1)
    as (h' & m' & t' & Hrun & HS' & Ha & HSs' & Hc & Hs & Hfp).
  unfold copy_assign. rewrite Hroott, Hrun1. cbn [mbind option_bind]. rewrite Hrun.
  exists h', m', t'. split_and!; try done.
  - intros k. by rewrite (get_spec h' m' t' k HS'), (get_spec h rhs ts k HSs), Hc.
  - intros b Hb'. destruct (decide (b ∈ addrs t')) as [|Hout]; [by left|right].
    destruct Hfp as [_ F2]. specialize (F2 b Hout).
    rewrite decide_False in F2 by apply not_elem_of_nil.
    rewrite F2, Hh1 in Hb' |- *. destruct (decide (b ∈ addrs tt)); [|done].
    by destruct Hb'.
Qed.

Lemma copy_assign_replaces_witness :
  ∃ h' m',
    copy_assign store_two_maps (mkMap (Some 1%positive) 1) (mkMap (Some 2%positive) 1)
      false
    = Some (h', m')
    ∧ get h' m' 7 = Some (Some 0)
    ∧ get h' m' 5 = Some None.
Proof.
  destruct (copy_assign_replaces store_two_maps
              (mkMap (Some 1%positive) 1) (mkMap (Some 2%positive) 1)
              (T Leaf 1%positive 5 0 0 Leaf) (T Leaf 2%positive 7 0 0 Leaf))
    as (h' & m' & t' & Hrun & _ & _ & _ & Hget & _).
  - shape_by_computation.
  - split; by vm_compute.
  - shape_by_computation.
  - intros b Hb Hb'. apply list_elem_of_singleton in Hb, Hb'. by subst.
  - exists h', m'. split; [done|]. by rewrite !Hget.
Defined.

(** ** Balance and height after insertions *)

Lemma avl_plug_inv c s : avl (plug c s) → avl s.
Proof.
  revert s. induction c as [|f c IH]; intros s; cbn [plug]; [done|].
  intros Ha. apply IH in Ha. destruct f; cbn [fill avl] in Ha; tauto.
Qed.

(** A balanced tree of height [n] has at least [2 ^ ((n + 1) / 2) - 1]
    nodes. *)
Lemma avl_height_bound t :
  avl t → 2 ^ ((theight t + 1) / 2) ≤ Z.of_nat (count t) + 1.
Proof.
  induction t as [|l IHl a k v hg r IHr]; [by vm_compute|].
  intros (Hbal & Hl & Hr). specialize (IHl Hl). specialize (IHr Hr).
  rewrite count_T. cbn [theight].
  pose proof (theight_ge l) as Hgl. pose proof (theight_ge r) as Hgr.
  set (n := 1 + Z.max (theight l) (theight r)) in *.
  assert ((n + 1) / 2 = (n - 1) / 2 + 1) as ->.
  { replace (n + 1) with (n - 1 + 1 * 2) by lia. by rewrite Z.div_add. }
  destruct (decide (n = 0)) as [->|Hn]; [change (2 ^ ((0 - 1) / 2 + 1)) with 1; lia|].
  assert (0 ≤ (n - 1) / 2) as He by (apply Z.div_pos; lia).
  rewrite Z.add_1_r, Z.pow_succ_r by done.
  assert (2 ^ ((n - 1) / 2) ≤ 2 ^ ((theight l + 1) / 2)) as Hpl.
  { apply Z.pow_le_mono_r; [lia|]. apply Z.div_le_mono; lia. }
  assert (2 ^ ((n - 1) / 2) ≤ 2 ^ ((theight r + 1) / 2)) as Hpr.
  { apply Z.pow_le_mono_r; [lia|]. apply Z.div_le_mono; lia. }
  lia.
Qed.

(** X10: after any sequence of [m[k] = v] and [m[k]] on an empty map,
    with no erase, every allocated node is balanced: the balance
    [GetSubtreeBalance] computes for it lies between -1 and 1. *)
Theorem insertions_balance_every_node (cs : list cmd) :
  forallb inserts cs = true →
  ∃ h m,
    exec cs ∅ empty_map = Some (h, m)
    ∧ ∀ a, is_Some (h !! a) →
        ∃ b, GetSubtreeBalance (fuel_of h) h (Some a) = Some b ∧ -1 ≤ b ≤ 1.
Proof.
  intros Hins. destruct (exec_empty cs) as (h & m & t & Hrun & HS & _ & Ho & _ & Ha).
  destruct (Ha Hins) as [Havl _]. exists h, m. split; [done|]. intros a Hal.
  destruct (locate t a (Ho a Hal)) as (c & l & k & v & hg & r & ->).
  pose proof (Shape_fuel _ _ _ HS) as Hf.
  pose proof (count_plug_le c (T l a k v hg r)) as Hle. rewrite count_T in Hle.
  destruct HS as [Hrep _ _ _]. apply rep_plug in Hrep as ((Hn & Hl & Hr) & _).
  apply avl_plug_inv in Havl as (Hbal & _).
  cbn [GetSubtreeBalance]. rewrite Hn. cbn [mbind option_bind left right].
  rewrite (GetSubtreeHeight_spec _ h (Some a) l) by (done || lia).
  rewrite (GetSubtreeHeight_spec _ h (Some a) r) by (done || lia).
  cbn [mbind option_bind]. eexists. split; [done|]. lia.
Qed.

Lemma insertions_balance_every_node_witness :
  ∃ h m,
    exec [Put 1 10; Put 2 20; Touch 3; Put 4 40; Put 5 50] ∅ empty_map = Some (h, m)
    ∧ ∀ a, is_Some (h !! a) →
        ∃ b, GetSubtreeBalance (fuel_of h) h (Some a) = Some b ∧ -1 ≤ b ≤ 1.
Proof.
  exact (insertions_balance_every_node
           [Put 1 10; Put 2 20; Touch 3; Put 4 40; Put 5 50] eq_refl).
Defined.

(** X11: after any such sequence without erase the height of the tree
    is logarithmic in the number of keys: the height [GetSubtreeHeight]
    computes at the root satisfies [2 ^ ((height + 1) / 2) <= keys + 1]. *)
Theorem insertions_height_logarithmic (cs : list cmd) :
  forallb inserts cs = true →
  ∃ h m hgt,
    exec cs ∅ empty_map = Some (h, m)
    ∧ GetSubtreeHeight (fuel_of h) h (mRoot m) = Some hgt
    ∧ 2 ^ ((hgt + 1) / 2) ≤ Z.of_nat (size (model cs ∅)) + 1.
Proof.
  intros Hins. destruct (exec_empty cs) as (h & m & t & Hrun & HS & Hc & _ & _ & Ha).
  destruct (Ha Hins) as [Havl _]. exists h, m, (theight t). split; [done|].
  rewrite <- Hc, (contents_size t) by (by destruct HS). split.
  - pose proof (Shape_fuel _ _ _ HS) as Hf. destruct HS as [Hrep Hroot _ _].
    rewrite Hroot. by eapply GetSubtreeHeight_spec.
  - by apply avl_height_bound.
Qed.

Lemma insertions_height_logarithmic_witness :
  ∃ h m hgt,
    exec [Put 1 10; Put 2 20; Touch 3; Put 4 40; Put 5 50] ∅ empty_map = Some (h, m)
    ∧ GetSubtreeHeight (fuel_of h) h (mRoot m) = Some hgt
    ∧ 2 ^ ((hgt + 1) / 2) ≤ 6.
Proof.
  destruct (insertions_height_logarithmic
              [Put 1 10; Put 2 20; Touch 3; Put 4 40; Put 5 50] eq_refl)
    as (h & m & hgt & Hrun & Hh & Hb).
  exists h, m, hgt. split_and!; [done|done|]. exact Hb.
Defined.

(** ** A rotation and its inverse *)

Lemma redepth_redepth d d' t : redepth d (redepth d' t) = redepth d t.
Proof.
  revert d d'. induction t as [|l IHl a k v hg r IHr]; intros d d'; [done|].
  cbn [redepth]. by rewrite IHl, IHr.
Qed.

Lemma redepth_id d t : depth_ok d t → redepth d t = t.
Proof.
  revert d. induction t as [|l IHl a k v hg r IHr]; intros d; [done|].
  intros (-> & Hl & Hr). cbn [redepth]. by rewrite IHl, IHr.
Qed.

(** The nodes of a tree are what the representation says, in any store
    that holds the tree. *)
Lemma rep_lookup_eq h h' par t b :
  rep h par t → rep h' par t → b ∈ addrs t → h !! b = h' !! b.
Proof.
  revert par. induction t as [|l IHl a k v hg r IHr]; intros par Hr Hr' Hb.
  { by apply elem_of_nil in Hb. }
  destruct Hr as (Ha & Hl & Hrr). destruct Hr' as (Ha' & Hl' & Hrr').
  rewrite addrs_T in Hb. apply elem_of_app in Hb as [Hb|Hb]; [by eapply IHl|].
  apply elem_of_cons in Hb as [->|Hb]; [congruence|by eapply IHr].
Qed.

(** Two well-formed states on one tree that agree outside it are one
    state, if the sizes agree. *)
Lemma Shape_same h m h' m' t :
  Shape h m t → Shape h' m' t → size_ m' = size_ m →
  (∀ b, b ∉ addrs t → h' !! b = h !! b) → h' = h ∧ m' = m.
Proof.
  intros [Hrep Hroot _ _] [Hrep' Hroot' _ _] Hsz Hfr. split.
  - apply map_eq. intros b. destruct (decide (b ∈ addrs t)) as [Hin|Hout].
    + by eapply rep_lookup_eq.
    + by apply Hfr.
  - destruct m, m'. cbn in *. congruence.
Qed.

Lemma addrs_plug_eq c s s' : items s' = items s → addrs (plug c s') = addrs (plug c s).
Proof. intros Hi. unfold addrs. by rewrite (items_plug_eq c s s' Hi). Qed.

Lemma count_plug_eq c s s' : items s' = items s → count (plug c s') = count (plug c s).
Proof. intros Hi. unfold count. by rewrite (items_plug_eq c s s' Hi). Qed.

(** X12: on a map whose height fields hold the depths, rotating a node
    right and then rotating the promoted child left gives back the store
    and the map object exactly, and so does a left rotation followed by a
    right rotation of the promoted child; this covers the root and the
    non-root versions. *)
Theorem rotation_round_trip (h : store) (m : AVLmap) (t : tree) (y : addr)
    (ny : Node) :
  Shape h m t → depth_ok 0 t → y ∈ addrs t → h !! y = Some ny →
  (∀ x, left ny = Some x →
     ∃ p1 h1 m1 p2,
       RotateRight (fuel_of h) h m (Some y) = Some (p1, h1, m1)
       ∧ RotateLeft (fuel_of h) h1 m1 (Some x) = Some (p2, h, m))
  ∧ (∀ x, right ny = Some x →
     ∃ p1 h1 m1 p2,
       RotateLeft (fuel_of h) h m (Some y) = Some (p1, h1, m1)
       ∧ RotateRight (fuel_of h) h1 m1 (Some x) = Some (p2, h, m)).
Proof.
  intros HS Hd Hy Hny. pose proof (Shape_fuel _ _ _ HS) as Hf.
  destruct (locate t y Hy) as (c & l & ky & vy & hy & r & ->).
  pose proof (proj1 (rep_plug h c _) (shape_rep _ _ _ HS)) as ((Hn & _ & _) & _).
  rewrite Hn in Hny. injection Hny as <-. cbn [left right].
  pose proof (depth_ok_plug_inv _ _ Hd) as Hds.
  set (d := ctx_depth c) in *. split.
  - intros x Hx. destruct l as [|ll x' kx vx hx lr]; [done|].
    cbn [root] in Hx. injection Hx as ->.
    destruct (RotateRight_Shape (fuel_of h) h m c ll x kx vx hx lr y ky vy hy r HS Hf)
      as (h1 & p1 & m1 & Hrun1 & HS1 & Hsz1 & Hfr1).
    cbn [rot_right redepth] in HS1. fold d in HS1.
    destruct (RotateLeft_Shape (fuel_of h) h1 m1 c _ x kx vx d _ y ky vy (d + 1) _ HS1)
      as (h2 & p2 & m2 & Hrun2 & HS2 & Hsz2 & Hfr2).
    { rewrite (count_plug_eq c (T (T ll x kx vx hx lr) y ky vy hy r)); [done|].
      cbn [items]. rewrite !items_redepth. by rewrite <- !app_assoc. }
    cbn [rot_left redepth] in HS2. fold d in HS2. rewrite !redepth_redepth in HS2.
    change (Shape h2 m2 (plug c (redepth d (T (T ll x kx vx hx lr) y ky vy hy r))))
      in HS2.
    rewrite (redepth_id _ _ Hds) in HS2.
    destruct (Shape_same h m h2 m2 _ HS HS2) as [-> ->]; [congruence| |by eauto 6].
    intros b Hb. rewrite Hfr2, Hfr1; [done|done|].
    rewrite (addrs_plug_eq c (T (T ll x kx vx hx lr) y ky vy hy r)); [done|].
    cbn [items]. rewrite !items_redepth. by rewrite <- !app_assoc.
  - intros x Hx. destruct r as [|rl x' kx vx hx rr]; [done|].
    cbn [root] in Hx. injection Hx as ->.
    destruct (RotateLeft_Shape (fuel_of h) h m c l y ky vy hy rl x kx vx hx rr HS Hf)
      as (h1 & p1 & m1 & Hrun1 & HS1 & Hsz1 & Hfr1).
    cbn [rot_left redepth] in HS1. fold d in HS1.
    destruct (RotateRight_Shape (fuel_of h) h1 m1 c _ y ky vy (d + 1) _ x kx vx d _ HS1)
      as (h2 & p2 & m2 & Hrun2 & HS2 & Hsz2 & Hfr2).
    { rewrite (count_plug_eq c (T l y ky vy hy (T rl x kx vx hx rr))); [done|].
      cbn [items]. rewrite !items_redepth. by rewrite <- !app_assoc. }
    cbn [rot_right redepth] in HS2. fold d in HS2. rewrite !redepth_redepth in HS2.
    change (Shape h2 m2 (plug c (redepth d (T l y ky vy hy (T rl x kx vx hx rr)))))
      in HS2.
    rewrite (redepth_id _ _ Hds) in HS2.
    destruct (Shape_same h m h2 m2 _ HS HS2) as [-> ->]; [congruence| |by eauto 6].
    intros b Hb. rewrite Hfr2, Hfr1; [done|done|].
    rewrite (addrs_plug_eq c (T l y ky vy hy (T rl x kx vx hx rr))); [done|].
    cbn [items]. rewrite !items_redepth. by rewrite <- !app_assoc.
Qed.

Lemma rotation_round_trip_witness :
  ∃ p1 h1 m1 p2,
    RotateRight (fuel_of store_10_20_30) store_10_20_30 map_10_20_30 (Some 2%positive)
    = Some (p1, h1, m1)
    ∧ RotateLeft (fuel_of store_10_20_30) h1 m1 (Some 1%positive)
      = Some (p2, store_10_20_30, map_10_20_30).
Proof.
  refine (proj1 (rotation_round_trip store_10_20_30 map_10_20_30 tree_10_20_30
                   2%positive _ Shape_10_20_30 _ _ eq_refl) 1%positive eq_refl).
  - cbn. lia.
  - refine (bool_decide_unpack _ _). vm_compute. exact I.
Defined.

(** ** Successor and predecessor *)

(** X13: in a well-formed map, if [increment] moves from node [a] to a
    node [b], then [b] holds the next key of the map: the key of [a] is
    smaller, no key of the map lies strictly between the two, and
    [decrement] moves from [b] back to [a]. *)
Theorem increment_then_decrement (h : store) (m : AVLmap) (t : tree) (a b : addr) :
  Shape h m t → a ∈ addrs t →
  increment (fuel_of h) h a = Some (Some b) →
  ∃ na nb,
    h !! a = Some na ∧ h !! b = Some nb
    ∧ key na < key nb
    ∧ (∀ k, k ∈ keys t → ¬ (key na < k < key nb))
    ∧ decrement (fuel_of h) h b = Some (Some a).
Proof.
  intros HS Ha Hinc. pose proof (Shape_fuel _ _ _ HS) as Hf.
  pose proof HS as [Hrep _ Hnd Hb].
  destruct (locate t a Ha) as (c & l & k & v & hg & r & ->).
  rewrite (increment_spec _ h c l a k v hg r Hrep Hnd Hf) in Hinc.
  injection Hinc as Hhead.
  destruct (items r ++ ctx_after c) as [|[[b' kb] vb] post] eqn:Hpost; [done|].
  cbn in Hhead. injection Hhead as ->.
  assert (items (plug c (T l a k v hg r))
          = (ctx_before c ++ items l ++ [(a, k, v)]) ++ (b, kb, vb) :: post) as Hit.
  { rewrite items_plug. cbn [items]. rewrite <- !app_assoc. cbn [app].
    by rewrite Hpost. }
  destruct (position _ _ _ b kb vb Hnd Hit) as (c' & l' & hg' & r' & Hplug & Hpre & _).
  pose proof (proj1 (rep_plug h c _) Hrep) as ((Hna & _) & _).
  rewrite Hplug in Hrep, Hnd, Hf.
  pose proof (proj1 (rep_plug h c' _) Hrep) as ((Hnb & _) & _).
  eexists _, _. split; [exact Hna|]. split; [exact Hnb|]. cbn [key].
  unfold bst, keys in Hb. rewrite Hit in Hb.
  rewrite fmap_app, fmap_cons, !fmap_app in Hb. cbn [fmap list_fmap fst snd] in Hb.
  rewrite <- !app_assoc in Hb. cbn [app] in Hb.
  apply StronglySorted_app in Hb as (Hcb & _ & Hb).
  apply StronglySorted_app in Hb as (Hlb & _ & Hb).
  apply StronglySorted_cons in Hb as (Hak & Hb).
  apply StronglySorted_cons in Hb as (Hbk & _).
  rewrite Forall_cons in Hak. destruct Hak as [Hlt Hak].
  split; [done|]. split.
  - intros k' Hk' [H1 H2]. unfold keys in Hk'. rewrite Hit in Hk'.
    rewrite fmap_app, fmap_cons, !fmap_app in Hk'. cbn [fmap list_fmap fst snd] in Hk'.
    rewrite !elem_of_app, !elem_of_cons in Hk'.
    rewrite Forall_forall in Hbk.
    destruct Hk' as [[Hk'|[Hk'|[Hk'|Hk']]]|[Hk'|Hk']].
    + assert (k' < k); [|lia]. apply Hcb; [done|]. apply elem_of_app. right. by left.
    + assert (k' < k); [|lia]. apply Hlb; [done|]. by left.
    + lia.
    + by apply elem_of_nil in Hk'.
    + lia.
    + specialize (Hbk k' Hk'). lia.
  - rewrite (decrement_spec _ h c' l' b kb vb hg' r' Hrep Hnd Hf). do 2 f_equal.
    by rewrite fmap_last, <- Hpre, !app_assoc, last_snoc.
Qed.

Lemma increment_then_decrement_witness :
  ∃ na nb,
    store_10_20_30 !! 1%positive = Some na ∧ store_10_20_30 !! 2%positive = Some nb
    ∧ key na < key nb
    ∧ decrement (fuel_of store_10_20_30) store_10_20_30 2%positive
      = Some (Some 1%positive).
Proof.
  destruct (increment_then_decrement store_10_20_30 map_10_20_30 tree_10_20_30
              1%positive 2%positive Shape_10_20_30)
    as (na & nb & Ha & Hb & Hlt & _ & Hdec).
  - refine (bool_decide_unpack _ _). vm_compute. exact I.
  - by vm_compute.
  - by exists na, nb.
Defined.

(** ** Iteration after any operations *)

(** X14: after every sequence of operations on an empty map, erasures
    included, forward iteration from [begin()] lists exactly the keys of
    the finite function, each once and in ascending order, and backward
    iteration from [last(root)] lists them in descending order. *)
Theorem iteration_after_any_operations (cs : list cmd) :
  ∃ h m ks,
    exec cs ∅ empty_map = Some (h, m)
    ∧ keys_forward h m = Some ks
    ∧ keys_backward h m = Some (reverse ks)
    ∧ StronglySorted Z.lt ks
    ∧ (∀ k, k ∈ ks ↔ is_Some (model cs ∅ !! k))
    ∧ length ks = size (model cs ∅).
Proof.
  destruct (exec_empty cs) as (h & m & t & Hrun & HS & Hc & _).
  exists h, m, (keys t). split_and!; [done| | | | |].
  - by apply keys_forward_spec.
  - by apply keys_backward_spec.
  - by destruct HS.
  - intros k. rewrite <- Hc, <- not_eq_None_Some, contents_None.
    split; [auto|]. intros Hk. by destruct (decide (k ∈ keys t)).
  - rewrite <- Hc, (contents_size t) by (by destruct HS).
    unfold keys, count. by rewrite length_fmap.
Qed.

(** ** Rebalancing keeps the entries *)

(** X15: whatever stack of nodes of a well-formed map [BalanceTree] is
    given, and in either mode, it runs to its end, every key looks up as
    before, the order of iteration and the size are unchanged, and no
    node outside the map is touched. *)
Theorem BalanceTree_keeps_entries (h : store) (m : AVLmap) (t : tree)
    (nodes : list addr) (inserting : bool) :
  Shape h m t → (∀ y, y ∈ nodes → y ∈ addrs t) →
  ∃ h' m' log,
    BalanceTree (fuel_of h) nodes inserting h m = Some (h', m', log)
    ∧ (∀ k, get h' m' k = get h m k)
    ∧ keys_forward h' m' = keys_forward h m
    ∧ AVLmap_size m' = AVLmap_size m
    ∧ (∀ b, b ∉ addrs t → h' !! b = h !! b).
Proof.
  intros HS Hin.
  destruct (BalanceTree_spec (fuel_of h) nodes inserting h m t HS
              (Shape_fuel _ _ _ HS) Hin)
    as (h' & m' & t' & log & Hrun & HS' & Hit & Hsz & _ & Hfr).
  exists h', m', log. split_and!; [done| | |done|done].
  - intros k. rewrite (get_spec h' m' t' k HS'), (get_spec h m t k HS).
    unfold contents, bindings. by rewrite Hit.
  - rewrite (keys_forward_spec h' m' t' HS'), (keys_forward_spec h m t HS).
    unfold keys. by rewrite Hit.
Qed.

Lemma BalanceTree_keeps_entries_witness :
  ∃ h' m' log,
    BalanceTree (fuel_of store_spine) [3%positive; 1%positive] false store_spine map_spine
    = Some (h', m', log)
    ∧ keys_forward h' m' = keys_forward store_spine map_spine.
Proof.
  destruct (BalanceTree_keeps_entries store_spine map_spine tree_spine
              [3%positive; 1%positive] false Shape_spine)
    as (h' & m' & log & Hrun & _ & Hk & _).
  - intros y Hy. refine (bool_decide_unpack _ _).
    apply elem_of_cons in Hy as [->|Hy]; [by vm_compute|].
    apply list_elem_of_singleton in Hy as ->. by vm_compute.
  - by exists h', m', log.
Defined.

(** ** The private functions on a key that is not, or already, there *)

Lemma DeleteItem_absent fuel h m par t k :
  rep h par t → k ∉ keys t → (count t < fuel)%nat →
  DeleteItem fuel h m (root t) k = Some (h, m).
Proof.
  revert par t. induction fuel as [|f IH]; intros par t Hrep Hk Hf; [lia|].
  destruct t as [|l a k' v hg r]; [done|].
  destruct Hrep as (Ha & Hl & Hr). rewrite count_T in Hf.
  rewrite keys_T in Hk. apply not_elem_of_app in Hk as [Hkl Hk].
  apply not_elem_of_cons in Hk as [Hne Hkr].
  cbn [DeleteItem root]. rewrite Ha. cbn [mbind option_bind key left right].
  destruct (decide (k < k')); [apply (IH (Some a)); [done|done|lia]|].
  destruct (decide (k > k')); [apply (IH (Some a)); [done|done|lia]|]. lia.
Qed.

(** X16: [DeleteItem] called from the root with a key that no node
    holds descends to a null child and returns: the store, the root and
    the size are unchanged. *)
Theorem DeleteItem_missing_key (h : store) (m : AVLmap) (t : tree) (k : Z) :
  Shape h m t → get h m k = Some None →
  DeleteItem (fuel_of h) h m (mRoot m) k = Some (h, m).
Proof.
  intros HS Hget. pose proof (Shape_fuel _ _ _ HS) as Hf.
  rewrite (get_spec h m t k HS) in Hget. injection Hget as Hnone.
  apply contents_None in Hnone. destruct HS as [Hrep Hroot _ _]. rewrite Hroot.
  by eapply DeleteItem_absent.
Qed.

Lemma DeleteItem_missing_key_witness :
  DeleteItem (fuel_of store_10_20_30) store_10_20_30 map_10_20_30
    (mRoot map_10_20_30) 25
  = Some (store_10_20_30, map_10_20_30).
Proof.
  apply (DeleteItem_missing_key _ _ tree_10_20_30 25 Shape_10_20_30). by vm_compute.
Defined.

Lemma InsertItem_present fuel h m par t pp k v nodes :
  rep h par t → k ∈ keys t → bst t → (count t < fuel)%nat →
  ∃ nodes',
    InsertItem fuel h m (root t) pp k v nodes = Some (root t, h, m, nodes' ++ nodes).
Proof.
  revert par t pp nodes. induction fuel as [|f IH]; intros par t pp nodes Hrep Hk Hb Hf; [lia|].
  destruct t as [|l a k' v' hg r]; [by apply elem_of_nil in Hk|].
  pose proof Hrep as (Ha & Hl & Hr). rewrite count_T in Hf.
  apply bst_T in Hb as (Hbl & Hbr & Hlt & Hgt).
  rewrite Forall_forall in Hlt. rewrite Forall_forall in Hgt.
  rewrite keys_T in Hk. cbn [InsertItem root]. rewrite Ha.
  cbn [mbind option_bind key left right].
  destruct (decide (k < k')) as [Hlt'|Hlt'].
  { assert (k ∈ keys l) as Hkl.
    { apply elem_of_app in Hk as [|Hk]; [done|].
      apply elem_of_cons in Hk as [->|Hk]; [lia|]. specialize (Hgt k Hk). lia. }
    destruct (IH (Some a) l (Some a) (a :: nodes) Hl Hkl Hbl ltac:(lia)) as (nodes' & ->).
    cbn [mbind option_bind]. unfold wr. rewrite Ha. cbn [mbind option_bind].
    exists (nodes' ++ [a]). rewrite <- app_assoc. cbn [app]. do 2 f_equal.
    rewrite insert_id; [done|]. by rewrite Ha. }
  destruct (decide (k > k')) as [Hgt'|Hgt'].
  { assert (k ∈ keys r) as Hkr.
    { apply elem_of_app in Hk as [Hk|Hk]; [specialize (Hlt k Hk); lia|].
      apply elem_of_cons in Hk as [->|Hk]; [lia|done]. }
    destruct (IH (Some a) r (Some a) (a :: nodes) Hr Hkr Hbr ltac:(lia)) as (nodes' & ->).
    cbn [mbind option_bind]. unfold wr. rewrite Ha. cbn [mbind option_bind].
    exists (nodes' ++ [a]). rewrite <- app_assoc. cbn [app]. do 2 f_equal.
    rewrite insert_id; [done|]. by rewrite Ha. }
  by exists [].
Qed.

(** X17: [InsertItem] called from the root with a key that is already
    in the map allocates nothing: it returns the root it was given and
    leaves the store, the root pointer and the size as they were (only
    the stack of visited nodes grows). *)
Theorem InsertItem_existing_key (h : store) (m : AVLmap) (t : tree) (k v : Z) :
  Shape h m t → k ∈ keys t →
  ∃ nodes,
    InsertItem (fuel_of h) h m (mRoot m) (mRoot m) k v [] = Some (mRoot m, h, m, nodes).
Proof.
  intros HS Hk. pose proof (Shape_fuel _ _ _ HS) as Hf.
  destruct HS as [Hrep Hroot _ Hb].
  destruct (InsertItem_present (fuel_of h) h m None t (mRoot m) k v [] Hrep Hk Hb Hf)
    as (nodes & Hrun).
  exists nodes. rewrite app_nil_r in Hrun.
  replace (InsertItem (fuel_of h) h m (mRoot m) (mRoot m) k v [])
    with (InsertItem (fuel_of h) h m (root t) (mRoot m) k v [])
    by (by rewrite <- Hroot).
  by rewrite Hrun, Hroot.
Qed.

Lemma InsertItem_existing_key_witness :
  ∃ nodes,
    InsertItem (fuel_of store_10_20_30) store_10_20_30 map_10_20_30
      (mRoot map_10_20_30) (mRoot map_10_20_30) 30 5 []
    = Some (mRoot map_10_20_30, store_10_20_30, map_10_20_30, nodes).
Proof.
  apply (InsertItem_existing_key _ _ tree_10_20_30 30 5 Shape_10_20_30).
  refine (bool_decide_unpack _ _). by vm_compute.
Defined.

(** ** The accessors of the printer *)

(** X18: for every node of a well-formed map [getedgesymbol] returns a
    symbol without dereferencing a null parent: the minus sign exactly
    for the root, the backslash exactly for a node that is the left
    child of its parent, and the slash exactly for a right child. *)
Theorem getedgesymbol_classifies (h : store) (m : AVLmap) (t : tree)
    (a : addr) (n : Node) :
  Shape h m t → a ∈ addrs t → h !! a = Some n →
  ∃ s,
    getedgesymbol h a = Some s
    ∧ (s = "-"%char ↔ mRoot m = Some a)
    ∧ (s = "\"%char ↔
       ∃ p np, parent n = Some p ∧ h !! p = Some np ∧ left np = Some a)
    ∧ (s = "/"%char ↔
       ∃ p np, parent n = Some p ∧ h !! p = Some np ∧ right np = Some a).
Proof.
  intros HS Ha Hn. pose proof HS as [Hrep Hroot Hnd _].
  destruct (locate t a Ha) as (c & l & k & v & hg & r & ->).
  apply rep_plug in Hrep as ((Hn' & _ & _) & Hc).
  rewrite Hn in Hn'. injection Hn' as ->. unfold getedgesymbol. rewrite Hn.
  cbn [mbind option_bind parent]. rewrite Hroot, root_plug.
  destruct c as [|f c].
  { cbn [ctx_parent ctx_root]. exists "-"%char. split; [done|]. unfold ctx_root. cbn.
    split_and!; [done| |]; (split; [done|]); by intros (p & np & ? & _). }
  assert (Some a ≠ ctx_root (f :: c) (Some a)) as Hnr.
  { apply (ctx_root_cons_ne f c (T l a k v hg r)); [|done].
    by rewrite <- addrs_plug_perm. }
  cbn [plug] in Hnd. apply NoDup_plug_inner in Hnd.
  replace (ctx_root (f :: c) (root (T l a k v hg r)))
    with (ctx_root (f :: c) (Some a)) by done.
  destruct f as [p kp vp hp rp|lp p kp vp hp]; destruct Hc as (Hp & Hsib & _);
    cbn [ctx_parent frame_addr]; rewrite Hp; cbn [mbind option_bind left right];
    cbn [fill] in Hnd; rewrite !addrs_T in Hnd.
  - rewrite decide_True by done. exists "\"%char. split; [done|]. split_and!.
    + split; [done|]. intros Hx. by destruct Hnr.
    + split; [|done]. intros _. exists p. eexists. by split_and!.
    + split; [done|]. intros (p' & np & [= <-] & Hnp & Hr).
      rewrite Hp in Hnp. injection Hnp as <-. cbn in Hr.
      apply root_addrs in Hr. exfalso. revert Hr. nd_notin Hnd.
  - assert (root lp ≠ Some a) as Hl.
    { intros Hr. apply root_addrs in Hr. revert Hr. nd_notin Hnd. }
    rewrite decide_False by done. exists "/"%char. split; [done|]. split_and!.
    + split; [done|]. intros Hx. by destruct Hnr.
    + split; [done|]. intros (p' & np & [= <-] & Hnp & Hr).
      rewrite Hp in Hnp. injection Hnp as <-. by cbn in Hr.
    + split; [|done]. intros _. exists p. eexists. by split_and!.
Qed.

Lemma getedgesymbol_classifies_witness :
  ∃ s,
    getedgesymbol store_10_20_30 3%positive = Some s
    ∧ (s = "/"%char ↔
       ∃ p np, Some 2%positive = Some p ∧ store_10_20_30 !! p = Some np
               ∧ right np = Some 3%positive).
Proof.
  destruct (getedgesymbol_classifies store_10_20_30 map_10_20_30 tree_10_20_30
              3%positive (mkNode 30 0 1 0 (Some 2%positive) None None) Shape_10_20_30)
    as (s & Hs & _ & _ & Hr).
  - refine (bool_decide_unpack _ _). by vm_compute.
  - by vm_compute.
  - by exists s.
Defined.

Lemma ctx_depth_length c s :
  depth_ok 0 (plug c s) → ctx_depth c = Z.of_nat (length c).
Proof.
  revert s. induction c as [|f c IH]; intros s Hd; [done|].
  cbn [plug] in Hd. pose proof (IH _ Hd) as Hlen.
  apply depth_ok_plug_inv in Hd. cbn [ctx_depth length].
  destruct f; cbn [fill depth_ok frame_hg] in *; lia.
Qed.

(** X19: after any sequence of [m[k] = v] and [m[k]] on an empty map,
    with no erase, [getdepth] of every node is the number of its proper
    ancestors, the nodes [GetVisitedNodes] collects for it. *)
Theorem getdepth_counts_ancestors (cs : list cmd) :
  forallb inserts cs = true →
  ∃ h m,
    exec cs ∅ empty_map = Some (h, m)
    ∧ ∀ a, is_Some (h !! a) →
        ∃ nodes,
          GetVisitedNodes (fuel_of h) h a [] = Some nodes
          ∧ getdepth h a = Some (Z.of_nat (length nodes)).
Proof.
  intros Hins. destruct (exec_empty cs) as (h & m & t & Hrun & HS & _ & Ho & _ & Ha).
  destruct (Ha Hins) as [_ Hd]. exists h, m. split; [done|]. intros a Hal.
  destruct (locate t a (Ho a Hal)) as (c & l & k & v & hg & r & ->).
  pose proof (Shape_fuel _ _ _ HS) as Hf.
  pose proof (count_plug_length c (T l a k v hg r)) as Hlen.
  destruct HS as [Hrep _ _ _].
  exists (reverse (frame_addr <$> c)). split.
  - eapply GetVisitedNodes_spec; [done|lia].
  - apply rep_plug in Hrep as ((Hn & _) & _). unfold getdepth. rewrite Hn.
    cbn [mbind option_bind height]. rewrite length_reverse, length_fmap.
    rewrite <- (ctx_depth_length c _ Hd).
    by apply depth_ok_plug_inv in Hd as (-> & _).
Qed.

Lemma getdepth_counts_ancestors_witness :
  ∃ h m,
    exec [Put 1 10; Put 2 20; Touch 3; Put 4 40; Put 5 50] ∅ empty_map = Some (h, m)
    ∧ ∀ a, is_Some (h !! a) →
        ∃ nodes,
          GetVisitedNodes (fuel_of h) h a [] = Some nodes
          ∧ getdepth h a = Some (Z.of_nat (length nodes)).
Proof.
  exact (getdepth_counts_ancestors
           [Put 1 10; Put 2 20; Touch 3; Put 4 40; Put 5 50] eq_refl).
Defined.

(** ** Erase through an iterator *)

(** X20: [erase] on an iterator to a node of a well-formed map removes
    exactly the entry the iterator designates: afterwards its key is not
    found, every other key looks up as before, and the allocated nodes
    outside the map are untouched. *)
Theorem erase_removes_one_entry (h : store) (m : AVLmap) (t : tree)
    (a : addr) (n : Node) :
  Shape h m t → a ∈ addrs t → h !! a = Some n →
  ∃ h' m',
    erase h m (Some a) = Some (h', m')
    ∧ get h' m' (key n) = Some None
    ∧ (∀ k, k ≠ key n → get h' m' k = get h m k)
    ∧ (∀ b, b ∉ addrs t → is_Some (h !! b) → h' !! b = h !! b).
Proof.
  intros HS Ha Hn. pose proof HS as [Hrep _ _ Hb].
  unfold addrs in Ha. apply list_elem_of_fmap in Ha as ([[a' k] v] & Heq & Hin).
  cbn in Heq. subst a'.
  destruct (rep_item h None t a k v Hrep Hin) as (n' & Hn' & <- & <-).
  rewrite Hn in Hn'. injection Hn' as <-.
  destruct (erase_find_full h m t (key n) HS)
    as (h' & m' & t' & Hrun & HS' & Hc & Hfp & _).
  unfold find in Hrun. rewrite (Shape_find h m t _ HS) in Hrun.
  rewrite (find_t_elem t (key n) a (value n) Hb Hin) in Hrun.
  cbn [mbind option_bind] in Hrun. exists h', m'. split; [done|]. split_and!.
  - by rewrite (get_spec h' m' t' _ HS'), Hc, lookup_delete_eq.
  - intros k' Hne. rewrite (get_spec h' m' t' _ HS'), (get_spec h m t _ HS), Hc.
    by rewrite lookup_delete_ne.
  - intros b Hout Hal. by eapply footprint_frame.
Qed.

Lemma erase_removes_one_entry_witness :
  ∃ h' m',
    erase store_10_20_30 map_10_20_30 (Some 2%positive) = Some (h', m')
    ∧ get h' m' 20 = Some None
    ∧ get h' m' 10 = get store_10_20_30 map_10_20_30 10.
Proof.
  destruct (erase_removes_one_entry store_10_20_30 map_10_20_30 tree_10_20_30
              2%positive (mkNode 20 0 0 0 None (Some 1%positive) (Some 3%positive))
              Shape_10_20_30)
    as (h' & m' & Hrun & Hgone & Hother & _).
  - refine (bool_decide_unpack _ _). by vm_compute.
  - by vm_compute.
  - exists h', m'. split_and!; [done|done|]. by apply Hother.
Defined.

(** ** The nodes that survive an erase *)

Lemma delete_here_items_other l a k v hg r af b kb vb :
  freed_addr (T l a k v hg r) = Some af →
  (b, kb, vb) ∈ items (T l a k v hg r) → b ≠ a → b ≠ af →
  (b, kb, vb) ∈ items (delete_here (T l a k v hg r)).
Proof.
  cbn [freed_addr delete_here]. destruct l as [|ll la lk lv lhg lr].
  { intros _ Hin Hne _. cbn [only_child]. cbn in Hin.
    apply elem_of_cons in Hin as [[= ? _ _]|Hin]; done. }
  destruct r as [|rl ra rk rv rhg rr].
  { intros _ Hin Hne _. cbn [only_child].
    change (items (T (T ll la lk lv lhg lr) a k v hg Leaf))
      with (items (T ll la lk lv lhg lr) ++ [(a, k, v)]) in Hin.
    apply elem_of_app in Hin as [Hin|Hin]; [done|].
    apply list_elem_of_singleton in Hin as [= ? _ _]. done. }
  destruct (last_items_T ll la lk lv lhg lr) as [[[ap kp] vp] Hlast]. rewrite Hlast.
  unfold addrs. rewrite fmap_last, Hlast. cbn [fmap option_fmap option_map fst].
  intros [= <-] Hin Hne Hne'.
  change (items (T (T ll la lk lv lhg lr) a k v hg (T rl ra rk rv rhg rr)))
    with (items (T ll la lk lv lhg lr) ++ (a, k, v) :: items (T rl ra rk rv rhg rr))
    in Hin.
  change (items (T (remove_max (T ll la lk lv lhg lr)) a kp vp hg (T rl ra rk rv rhg rr)))
    with (items (remove_max (T ll la lk lv lhg lr))
          ++ (a, kp, vp) :: items (T rl ra rk rv rhg rr)).
  rewrite (items_remove_max _ _ Hlast) in Hin.
  rewrite !elem_of_app, !elem_of_cons in Hin. rewrite elem_of_app, elem_of_cons.
  destruct Hin as [[Hin|[[= ? _ _]|Hin]]|[[= ? _ _]|Hin]]; try done; auto.
  by apply elem_of_nil in Hin.
Qed.

(** X21: [erase] on an iterator to a node [a] of a well-formed map
    frees one node of the map; every other node of the map except [a]
    keeps its key and value, so iterators to them stay valid.  The freed
    node is [a] itself unless [a] has two children. *)
Theorem erase_keeps_other_nodes (h : store) (m : AVLmap) (t : tree) (a : addr) :
  Shape h m t → a ∈ addrs t →
  ∃ h' m' af,
    erase h m (Some a) = Some (h', m')
    ∧ af ∈ addrs t
    ∧ h' !! af = None
    ∧ (af ≠ a → ∃ n, h !! a = Some n ∧ is_Some (left n) ∧ is_Some (right n))
    ∧ (∀ b nb, b ∈ addrs t → b ≠ a → b ≠ af → h !! b = Some nb →
         ∃ nb', h' !! b = Some nb' ∧ key nb' = key nb ∧ value nb' = value nb).
Proof.
  intros HS Ha. destruct (locate t a Ha) as (c & l & k & v & hg & r & ->).
  destruct (erase_located h m c l a k v hg r HS)
    as (h' & m' & t' & af & log & Hrun & HS' & Hit & _ & Haf & Hfree & _).
  unfold erase. rewrite Hrun. cbn [mbind option_bind]. exists h', m', af.
  pose proof HS as [Hrep _ _ _].
  split_and!; [done| |done| |].
  - rewrite addrs_plug, (delete_here_addrs_perm l a k v hg r af Haf).
    apply elem_of_app. right. apply elem_of_app. left. by left.
  - intros Hne. apply rep_plug in Hrep as ((Hn & _) & _). eexists. split; [done|].
    cbn [left right freed_addr] in *.
    destruct l; [by injection Haf as <-|]. destruct r; [by injection Haf as <-|].
    split; by eexists.
  - intros b nb Hb Hne Hne' Hnb. unfold addrs in Hb.
    apply list_elem_of_fmap in Hb as ([[b' kb] vb] & Heq & Hin). cbn in Heq. subst b'.
    destruct (rep_item h None _ b kb vb Hrep Hin) as (n0 & Hn0 & <- & <-).
    rewrite Hnb in Hn0. injection Hn0 as <-.
    assert ((b, key nb, value nb) ∈ items t') as Hin'.
    { rewrite Hit, items_plug. rewrite items_plug in Hin.
      rewrite !elem_of_app in Hin |- *. destruct Hin as [?|[Hin|?]]; auto.
      right. left. by eapply delete_here_items_other. }
    destruct (rep_item h' None t' b _ _ (shape_rep _ _ _ HS') Hin') as (nb' & ? & ? & ?).
    eauto.
Qed.

Lemma erase_keeps_other_nodes_witness :
  ∃ h' m' af,
    erase store_10_20_30 map_10_20_30 (Some 2%positive) = Some (h', m')
    ∧ af ∈ addrs tree_10_20_30
    ∧ h' !! af = None.
Proof.
  destruct (erase_keeps_other_nodes store_10_20_30 map_10_20_30 tree_10_20_30
              2%positive Shape_10_20_30)
    as (h' & m' & af & Hrun & Haf & Hfree & _).
  - refine (bool_decide_unpack _ _). by vm_compute.
  - by exists h', m', af.
Defined.

(** ** Erase at the root *)

(** X22: [erase] on an iterator to the root of a well-formed map hands
    an empty stack to [BalanceTree]: no node is examined and no rotation
    is performed, whatever the removal does to the heights. *)
Theorem erase_at_root_never_rebalances (h : store) (m : AVLmap) (t : tree)
    (a : addr) :
  Shape h m t → mRoot m = Some a →
  ∃ h' m', erase_log h m (Some a) = Some (h', m', [], []).
Proof.
  intros HS Hroot. pose proof HS as [Hrep Hr _ _]. rewrite Hr in Hroot.
  destruct t as [|l a' k v hg r]; [done|]. cbn [root] in Hroot. injection Hroot as ->.
  destruct (erase_located h m [] l a k v hg r HS)
    as (h' & m' & t' & af & log & Hrun & _).
  cbn [fmap list_fmap reverse] in Hrun. change (reverse []) with (@nil addr) in Hrun.
  exists h', m'. rewrite Hrun. do 2 f_equal.
  unfold erase_log in Hrun. rewrite decide_False in Hrun by done.
  cbn [mbind option_bind] in Hrun.
  destruct (GetVisitedNodes _ _ _ _) as [nodes|]; [|done].
  cbn [mbind option_bind] in Hrun.
  destruct (h !! a) as [n|]; [|done]. cbn [mbind option_bind] in Hrun.
  destruct (DeleteItem _ _ _ _ _) as [[h1 m1]|]; [|done].
  cbn [mbind option_bind] in Hrun.
  destruct (BalanceTree _ nodes _ _ _) as [[[h2 m2] log2]|] eqn:Hbt; [|done].
  cbn [mbind option_bind] in Hrun. injection Hrun as <- <- -> <-.
  cbn in Hbt. by injection Hbt as _ _ <-.
Qed.

Lemma erase_at_root_never_rebalances_witness :
  ∃ h' m',
    erase_log store_20_10_30_40 map_20_10_30_40 (Some 1%positive)
    = Some (h', m', [], []).
Proof.
  exact (erase_at_root_never_rebalances store_20_10_30_40 map_20_10_30_40
           tree_20_10_30_40 1%positive Shape_20_10_30_40 eq_refl).
Defined.
